(** * Alphabetic index of the narrative web report, and the gallery filter rule

    A shallow embedding of

    - [gramps/plugins/webreport/common.py]: [first_letter],
      [primary_difference], [get_first_letters], [get_index_letter] and
      [alphabet_navigation], with the table [CONTRACTIONS_DICT];
    - [gramps/gen/filters/rules/_hasgallerybase.py]: the rule
      [HasGalleryBase].

    Python values are modelled as follows.  A [str] is the list of its code
    points; a value that may be [None] is an [option]; a call that may raise
    returns a [result], and so does the sort key of a locale, which the
    code calls as it is given.  A Python list is a Rocq list; the in-place
    updates of [get_first_letters] are written as explicit state passing. *)

From Stdlib Require Import String Ascii.
From Stdlib Require Import List NArith ZArith Bool Lia.
From Stdlib Require Import Sorted Permutation.
Import ListNotations.

Local Open Scope list_scope.

(** ** Python strings *)

(** A [str] is a sequence of Unicode code points. *)
Definition pystr : Type := list N.

(** Source literals are written as Rocq strings in UTF-8 and decoded to code
    points: [pending] continuation bytes are still expected for the code
    point whose high bits are [acc]. *)
Fixpoint utf8_decode (pending : nat) (acc : N) (s : string) : pystr :=
  match s with
  | EmptyString => []
  | String c rest =>
      let b := N_of_ascii c in
      match pending with
      | O =>
          if (b <? 128)%N then b :: utf8_decode 0 0 rest
          else if (b <? 224)%N then utf8_decode 1 (b - 192) rest
          else if (b <? 240)%N then utf8_decode 2 (b - 224) rest
          else utf8_decode 3 (b - 240) rest
      | S O => (acc * 64 + (b - 128))%N :: utf8_decode 0 0 rest
      | S p => utf8_decode p (acc * 64 + (b - 128))%N rest
      end
  end.

Definition py (s : string) : pystr := utf8_decode 0 0 s.

(** [a == b] on two [str]. *)
Fixpoint pystr_eqb (a b : pystr) : bool :=
  match a, b with
  | [], [] => true
  | x :: a', y :: b' => (x =? y)%N && pystr_eqb a' b'
  | _, _ => false
  end.

(** Three-way comparison of two [str]: code point by code point, a proper
    prefix being smaller. The rich comparisons are read off its result. *)
Fixpoint str_compare (a b : pystr) : comparison :=
  match a, b with
  | [], [] => Eq
  | [], _ :: _ => Lt
  | _ :: _, [] => Gt
  | x :: a', y :: b' =>
      match (x ?= y)%N with
      | Eq => str_compare a' b'
      | c => c
      end
  end.

(** [a < b] *)
Definition str_lt (a b : pystr) : bool :=
  match str_compare a b with Lt => true | _ => false end.

(** [a >= b] *)
Definition str_ge (a b : pystr) : bool :=
  match str_compare a b with Lt => false | _ => true end.

(** [a <= b], the order in which [list.sort] leaves the keys. *)
Definition str_le (a b : pystr) : bool :=
  match str_compare a b with Gt => false | _ => true end.

(** ** Exceptions *)

Inductive exn : Type :=
| AttributeError
| IndexError
| TypeError
| ValueError.

Inductive result (A : Type) : Type :=
| Ok (a : A)
| Raise (e : exn).

Arguments Ok {A} a.
Arguments Raise {A} e.

Definition bind {A B : Type} (m : result A) (k : A -> result B) : result B :=
  match m with
  | Ok a => k a
  | Raise e => Raise e
  end.

Notation "x <- m ;; k" := (bind m (fun x => k))
  (at level 61, m at next level, right associativity).

(** ** The host application *)

(** A [GrampsLocale] object. [locale_id] is the identity of the object,
    which [rlocale != glocale] compares; [collation] is the language tag of
    its collation, [sort_key] its full collation key and [sgettext] the
    lookup of its translation. A call of [sort_key] returns a key or
    raises: nothing in the code below catches what it raises. *)
Record GrampsLocale : Type := {
  locale_id : N;
  collation : pystr;
  sort_key : pystr -> result pystr;
  sgettext : pystr -> pystr
}.

Definition locale_ne (a b : GrampsLocale) : bool :=
  negb (locale_id a =? locale_id b)%N.

Record Name : Type := {
  get_first_name : pystr;
  get_suffix : pystr
}.

Record Person : Type := {
  get_primary_name : Name
}.

(** The database accessor: a person lookup answers [None] for a handle it
    does not know. *)
Record Database : Type := {
  get_person_from_handle : pystr -> option Person
}.

(** What the module binds when it is imported: the process-wide locale
    [glocale], the PyICU collator [PRIM_COLL] of primary strength when the
    import of PyICU succeeded (its [compare] answers a negative number, zero
    or a positive number), [unicodedata.normalize('NFKC', _)], [str.upper],
    the name displayer's [sort_string] and [utils.place_name]. *)
Class Host : Type := {
  glocale : GrampsLocale;
  PRIM_COLL : option (pystr -> pystr -> Z);
  normalize_NFKC : pystr -> pystr;
  str_upper : pystr -> pystr;
  nd_sort_string : Name -> pystr;
  utils_place_name : Database -> pystr -> option pystr
}.

(** ** The contraction table *)

(** One contraction: the tuple of its spellings and the index entry. *)
Definition Contraction : Type := (list pystr * pystr)%type.

Definition CONTRACTIONS_DICT : list (pystr * list Contraction) :=
  [ (py "ca", [([py "l·"; py "L·"], py "L")]);
    (py "cs", [([py "ch"; py "cH"; py "Ch"; py "CH"], py "CH")]);
    (py "da", [([py "aa"; py "Aa"; py "AA"], py "Å")]);
    (py "hr", [([py "dž"; py "Dž"], py "dž");
               ([py "lj"; py "Lj"; py "LJ"], py "Ǉ");
               ([py "Nj"; py "NJ"; py "nj"], py "Ǌ")]);
    (py "hu", [([py "cs"; py "Cs"; py "CS"], py "CS");
               ([py "dzs"; py "Dzs"; py "DZS"], py "DZS");
               ([py "dz"; py "Dz"; py "DZ"], py "DZ");
               ([py "gy"; py "Gy"; py "GY"], py "GY");
               ([py "ly"; py "Ly"; py "LY"], py "LY");
               ([py "ny"; py "Ny"; py "NY"], py "NY");
               ([py "sz"; py "Sz"; py "SZ"], py "SZ");
               ([py "ty"; py "Ty"; py "TY"], py "TY");
               ([py "zs"; py "Zs"; py "ZS"], py "ZS")]);
    (py "nb", [([py "aa"; py "Aa"; py "AA"], py "Å")]);
    (py "nn", [([py "aa"; py "Aa"; py "AA"], py "Å")]);
    (py "sk", [([py "ch"; py "cH"; py "Ch"; py "CH"], py "Ch")]) ].

(** [d.get(k)] on a dict written as its items. *)
Fixpoint dict_get {V : Type} (d : list (pystr * V)) (k : pystr) : option V :=
  match d with
  | [] => None
  | (k', v) :: rest => if pystr_eqb k' k then Some v else dict_get rest k
  end.

(** [s.split(sep)[0]]: the text before the first separator. *)
Fixpoint split_first (sep : N) (s : pystr) : pystr :=
  match s with
  | [] => []
  | c :: rest => if (c =? sep)%N then [] else c :: split_first sep rest
  end.

Definition underscore : N := 95.

(** The loop over the contractions of the language: [count] is the length
    of the first spelling of the entry (every entry of the table has one, see
    [CONTRACTIONS_DICT_spellings]), and the entry applies when the text has
    [count] characters and its first [count] characters are one of the
    spellings. *)
Definition contraction_applies (norm_unicode : pystr)
    (contraction : Contraction) : bool :=
  let count := length (hd [] (fst contraction)) in
  (count <=? length norm_unicode)%nat
  && existsb (pystr_eqb (firstn count norm_unicode)) (fst contraction).

Fixpoint scan_contractions (norm_unicode : pystr)
    (contractions : list Contraction) : option pystr :=
  match contractions with
  | [] => None
  | contraction :: rest =>
      if contraction_applies norm_unicode contraction
      then Some (snd contraction)
      else scan_contractions norm_unicode rest
  end.

(** The contractions of a language tag: the full tag first, then the tag
    before its first underscore. *)
Definition lookup_contractions (lang : pystr) : option (list Contraction) :=
  match dict_get CONTRACTIONS_DICT lang with
  | Some contractions => Some contractions
  | None => dict_get CONTRACTIONS_DICT (split_first underscore lang)
  end.

(** The body of [first_letter] once the language tag is fixed. *)
Definition first_letter_in (normalize upper : pystr -> pystr) (lang : pystr)
    (string : option pystr) : result pystr :=
  match string with
  | None => Ok (py " ")
  | Some s =>
      if (length s <? 1)%nat then Ok (py " ")
      else
        let norm_unicode := normalize s in
        let hit :=
          match lookup_contractions lang with
          | Some contractions => scan_contractions norm_unicode contractions
          | None => None
          end in
        match hit with
        | Some letter => Ok letter
        | None =>
            match norm_unicode with
            | [] => Raise IndexError
            | c :: _ => Ok (upper [c])
            end
        end
  end.

(** ** Sorting *)

(** [sorted(l, key=...)] for a key that is a [str] and is computed without
    a call that could raise: the sort is stable and compares keys with [<]
    only, so that each item goes behind the items whose key is not greater
    than its own. *)
Fixpoint insert_sorted {A : Type} (key : A -> pystr) (x : A) (l : list A)
    : list A :=
  match l with
  | [] => [x]
  | y :: rest =>
      if str_lt (key x) (key y) then x :: y :: rest
      else y :: insert_sorted key x rest
  end.

Definition sorted_by {A : Type} (key : A -> pystr) (l : list A) : list A :=
  fold_left (fun sorted x => insert_sorted key x sorted) l [].

(** [list.sort(key=...)] and [sorted(..., key=...)] call the key function
    once on every item, in the order of the list, before they compare
    anything, and keep each key with its item: an exception of the key
    function ends the sort. *)
Fixpoint keyed {A : Type} (key : A -> result pystr) (l : list A)
    : result (list (pystr * A)) :=
  match l with
  | [] => Ok []
  | x :: rest =>
      k <- key x ;;
      rest' <- keyed key rest ;;
      Ok ((k, x) :: rest')
  end.

Definition list_sort {A : Type} (key : A -> result pystr) (l : list A)
    : result (list A) :=
  decorated <- keyed key l ;;
  Ok (map snd (sorted_by fst decorated)).

(** [a] is not behind [b] in the order of the keys. *)
Definition le_by {A : Type} (key : A -> pystr) (a b : A) : Prop :=
  str_le (key a) (key b) = true.

(** The same for a key function that is called: both calls return, and the
    key of [a] is not behind the key of [b]. *)
Definition key_le {A : Type} (key : A -> result pystr) (a b : A) : Prop :=
  exists ka kb, key a = Ok ka /\ key b = Ok kb /\ str_le ka kb = true.

(** [l.remove(x)]: the first item equal to [x] goes; [ValueError] when there
    is none. *)
Fixpoint list_remove (x : pystr) (l : list pystr) : result (list pystr) :=
  match l with
  | [] => Raise ValueError
  | y :: rest =>
      if pystr_eqb y x then Ok rest
      else rest' <- list_remove x rest ;; Ok (y :: rest')
  end.

(** ** The index of first letters *)

Definition _KEYPERSON : Z := 0.
Definition _KEYPLACE : Z := 1.
Definition _KEYEVENT : Z := 2.
Definition _ALPHAEVENT : Z := 3.

(** The fallback comparator, defined when PyICU could not be imported.
    The operands of [>=] are evaluated from left to right, and the second
    operand of [or] only when the first one is false. *)
Definition primary_difference_fallback (prev_key new_key : pystr)
    (rlocale : GrampsLocale) : result bool :=
  prev_e <- sort_key rlocale (prev_key ++ py "e") ;;
  new_f <- sort_key rlocale (new_key ++ py "f") ;;
  if str_ge prev_e new_f then Ok true
  else
    new_e <- sort_key rlocale (new_key ++ py "e") ;;
    prev_f <- sort_key rlocale (prev_key ++ py "f") ;;
    Ok (str_ge new_e prev_f).

(** The comparator defined when PyICU was imported. *)
Definition primary_difference_icu (compare : pystr -> pystr -> Z)
    (prev_key new_key : pystr) (rlocale : GrampsLocale) : bool :=
  negb (compare prev_key new_key =? 0)%Z.

(** A record of the logger [LOG]. *)
Inductive LogRecord : Type :=
| LogWarning (letter : pystr)
| LogDebug (index_list : list pystr).

Section Index.
Context `{Host}.

Definition COLLATE_LANG : pystr := collation glocale.

(** [first_letter(string, rlocale=glocale)]. *)
Definition first_letter (string : option pystr) (rlocale : GrampsLocale)
    : result pystr :=
  first_letter_in normalize_NFKC str_upper COLLATE_LANG string.

(** [first_letter] as the specification words it: the contraction data are
    those of the locale that is passed in the call. *)
Definition first_letter_per_call (string : option pystr)
    (rlocale : GrampsLocale) : result pystr :=
  first_letter_in normalize_NFKC str_upper (collation rlocale) string.

(** [primary_difference(prev_key, new_key, rlocale=glocale)]: which of the
    two definitions the module has was settled when it was imported. *)
Definition primary_difference (prev_key new_key : pystr)
    (rlocale : GrampsLocale) : result bool :=
  match PRIM_COLL with
  | Some compare =>
      Ok (primary_difference_icu compare prev_key new_key rlocale)
  | None => primary_difference_fallback prev_key new_key rlocale
  end.

Definition __get_person_keyname (dbase : Database) (handle : pystr)
    : result (option pystr) :=
  match get_person_from_handle dbase handle with
  | None => Raise AttributeError
  | Some person => Ok (Some (nd_sort_string (get_primary_name person)))
  end.

Definition __get_place_keyname (dbase : Database) (handle : pystr)
    : option pystr :=
  utils_place_name dbase handle.

(** The body of the first loop of [get_first_letters]: the display key of
    one handle and its first letter. [first_letter] is called without a
    locale. *)
Definition item_letter (dbase : Database) (key : Z) (rlocale : GrampsLocale)
    (handle : pystr) : result pystr :=
  keyname <-
    (if (key =? _KEYPERSON)%Z then __get_person_keyname dbase handle
     else if (key =? _KEYPLACE)%Z
          then Ok (__get_place_keyname dbase handle)
          else if locale_ne rlocale glocale
               then Ok (Some (sgettext rlocale handle))
               else Ok (Some handle)) ;;
  first_letter keyname glocale.

(** The first loop: one letter per handle, appended to [index_list]. *)
Fixpoint collect_letters (dbase : Database) (handle_list : list pystr)
    (key : Z) (rlocale : GrampsLocale) (index_list : list pystr)
    : result (list pystr) :=
  match handle_list with
  | [] => Ok index_list
  | handle :: rest =>
      ltr <- item_letter dbase key rlocale handle ;;
      collect_letters dbase rest key rlocale (index_list ++ [ltr])
  end.

(** The second loop: [copy] is what is left of the slice copy,
    [index_list] the list that [remove] updates. [prev_index] is [None]
    until the first letter was seen. *)
Fixpoint dedup_loop (rlocale : GrampsLocale) (copy : list pystr)
    (first : bool) (prev_index : option pystr) (index_list : list pystr)
    : result (list pystr) :=
  match copy with
  | [] => Ok index_list
  | key :: rest =>
      differs <-
        (if first then Ok true
         else match prev_index with
              | Some prev => primary_difference prev key rlocale
              | None => Raise TypeError
              end) ;;
      if differs : bool
      then dedup_loop rlocale rest false (Some key) index_list
      else
        index_list' <- list_remove key index_list ;;
        dedup_loop rlocale rest first prev_index index_list'
  end.

(** [get_first_letters(dbase, handle_list, key, rlocale=glocale)]. *)
Definition get_first_letters (dbase : Database) (handle_list : list pystr)
    (key : Z) (rlocale : GrampsLocale) : result (list pystr) :=
  index_list <- collect_letters dbase handle_list key rlocale [] ;;
  index_list <- list_sort (sort_key rlocale) index_list ;;
  dedup_loop rlocale index_list true None index_list.

(** The loop of [get_index_letter]: [None] when it ends without a
    [return]. *)
Fixpoint scan_index_list (letter : pystr) (index_list : list pystr)
    (rlocale : GrampsLocale) : result (option pystr) :=
  match index_list with
  | [] => Ok None
  | index :: rest =>
      differs <- primary_difference letter index rlocale ;;
      if negb differs then Ok (Some index)
      else scan_index_list letter rest rlocale
  end.

(** [get_index_letter(letter, index_list, rlocale=glocale)], with what it
    logs. *)
Definition get_index_letter (letter : pystr) (index_list : list pystr)
    (rlocale : GrampsLocale) : result (pystr * list LogRecord) :=
  found <- scan_index_list letter index_list rlocale ;;
  match found with
  | Some index => Ok (index, [])
  | None => Ok (letter, [LogWarning letter; LogDebug index_list])
  end.

(** The letters [a] and [b] have a primary difference. *)
Definition differ (rlocale : GrampsLocale) (a b : pystr) : Prop :=
  primary_difference a b rlocale = Ok true.

(** What the loop has kept so far: nothing before the first letter, and
    afterwards a list that ends with [prev_index]. *)
Definition kept_state (first : bool) (prev_index : option pystr)
    (kept : list pystr) : Prop :=
  if first then kept = []
  else exists kept' prev, kept = kept' ++ [prev] /\ prev_index = Some prev.

(** The sort is consistent with the comparator on [letters]: two different
    letters with the same sort key have no primary difference, so that the
    letters without a primary difference are next to each other in sorted
    order. *)
Definition collation_consistent (rlocale : GrampsLocale)
    (letters : list pystr) : Prop :=
  forall a b k, In a letters -> In b letters ->
    sort_key rlocale a = Ok k -> sort_key rlocale b = Ok k -> a <> b ->
    primary_difference a b rlocale = Ok false.

(** The comparator returns on [letters], with the same answer for both
    orders of two letters. *)
Definition comparator_symmetric (rlocale : GrampsLocale)
    (letters : list pystr) : Prop :=
  forall a b, In a letters -> In b letters ->
    exists differs,
      primary_difference a b rlocale = Ok differs
      /\ primary_difference b a rlocale = Ok differs.

End Index.

(** ** The navigation bar *)

(** [Html("a", menu_item, title=title_str, href="#%s" % menu_item)] inside
    an [li]. *)
Record Hyperlink : Type := {
  link_text : pystr;
  link_title : pystr;
  link_href : pystr
}.

(** The [div] of id [alphanav]: one [ul] per row, holding its links. *)
Definition NavFragment : Type := list (list Hyperlink).

(** The outcome of a loop that is run with fuel. *)
Inductive run (A : Type) : Type :=
| Done (a : A)
| OutOfFuel.

Arguments Done {A} a.
Arguments OutOfFuel {A}.

(** [sorted_set[menu_item] += 1] on a [defaultdict(int)], which keeps its
    keys in the order of their first insertion. *)
Fixpoint count_item (menu_item : pystr) (sorted_set : list (pystr * Z))
    : list (pystr * Z) :=
  match sorted_set with
  | [] => [(menu_item, 1%Z)]
  | (k, n) :: rest =>
      if pystr_eqb k menu_item then (k, (n + 1)%Z) :: rest
      else (k, n) :: count_item menu_item rest
  end.

Definition nav_link (rlocale : GrampsLocale) (item : pystr) : Hyperlink :=
  let menu_item := if pystr_eqb item (py " ") then py "&nbsp;" else item in
  let title_txt := py "Alphabet Menu: " ++ menu_item in
  let title_str := sgettext rlocale title_txt in
  {| link_text := menu_item;
     link_title := title_str;
     link_href := py "#" ++ menu_item |}.

(** The [while] loop that fills one row. The subscript
    [sorted_alpha_index[index]] is guarded by [index < num_ltrs]. *)
Fixpoint fill_row (fuel : nat) (rlocale : GrampsLocale)
    (sorted_alpha_index : list pystr) (num_ltrs num_of_cols : nat)
    (cols index : nat) (unordered : list Hyperlink)
    : run (list Hyperlink * nat) :=
  if (cols <=? num_of_cols)%nat && (index <? num_ltrs)%nat then
    match fuel with
    | O => OutOfFuel
    | S fuel' =>
        let menu_item := nth index sorted_alpha_index [] in
        fill_row fuel' rlocale sorted_alpha_index num_ltrs num_of_cols
          (cols + 1) (index + 1) (unordered ++ [nav_link rlocale menu_item])
    end
  else Done (unordered, index).

(** The [for] loop over [range(num_of_rows)]; the decrement of
    [num_of_rows] in its body does not change the range. *)
Fixpoint fill_rows (rows : nat) (rlocale : GrampsLocale)
    (sorted_alpha_index : list pystr) (num_ltrs num_of_cols : nat)
    (index : nat) (alphabetnavigation : NavFragment) : run NavFragment :=
  match rows with
  | O => Done alphabetnavigation
  | S rows' =>
      match fill_row (S num_of_cols) rlocale sorted_alpha_index num_ltrs
              num_of_cols 0 index [] with
      | OutOfFuel => OutOfFuel
      | Done (unordered, index') =>
          fill_rows rows' rlocale sorted_alpha_index num_ltrs num_of_cols
            index' (alphabetnavigation ++ [unordered])
      end
  end.

(** The value of [sorted_alpha_index] in [alphabet_navigation]: the
    different letters of [index_list], sorted. *)
Definition sorted_letters (index_list : list pystr) (rlocale : GrampsLocale)
    : result (list pystr) :=
  list_sort (sort_key rlocale)
    (map fst
       (fold_left (fun d menu_item => count_item menu_item d) index_list [])).

(** [alphabet_navigation(index_list, rlocale=glocale)]: [None] when there
    is no letter. *)
Definition alphabet_navigation (index_list : list pystr)
    (rlocale : GrampsLocale) : result (run (option NavFragment)) :=
  let sorted_set :=
    fold_left (fun d menu_item => count_item menu_item d) index_list [] in
  sorted_alpha_index <- list_sort (sort_key rlocale) (map fst sorted_set) ;;
  Ok match sorted_alpha_index with
     | [] => Done None
     | _ :: _ =>
         let num_ltrs := length sorted_alpha_index in
         let num_of_cols := 26%nat in
         let num_of_rows := (num_ltrs / num_of_cols + 1)%nat in
         match fill_rows num_of_rows rlocale sorted_alpha_index num_ltrs
                 num_of_cols 0 [] with
         | OutOfFuel => OutOfFuel
         | Done alphabetnavigation => Done (Some alphabetnavigation)
         end
     end.

(** ** The rule [HasGalleryBase] *)

Record MediaRef : Type := {
  ref_handle : pystr
}.

(** An object with a gallery. *)
Record GalleryObject : Type := {
  media_list : list MediaRef
}.

(** The rule object: [list] holds the two parameters, and the two
    attributes that [prepare] sets are absent before it ran. *)
Record HasGalleryBase : Type := {
  rule_list : list pystr;
  count_type : option Z;
  userSelectedCount : option Z
}.

(** What a call of [apply] could touch: the database and the object. *)
Record World : Type := {
  world_db : Database;
  world_obj : GalleryObject
}.

(** A computation that may read and write the world. *)
Definition Stateful (A : Type) : Type := World -> A * World.

Definition ret {A : Type} (a : A) : Stateful A := fun w => (a, w).

Definition then_ {A B : Type} (m : Stateful A) (k : A -> Stateful B)
    : Stateful B :=
  fun w => let (a, w') := m w in k a w'.

(** [obj.get_media_list()] *)
Definition get_media_list : Stateful (list MediaRef) :=
  fun w => (media_list (world_obj w), w).

(** [l[i]] *)
Definition subscript {A : Type} (l : list A) (i : nat) : result A :=
  match nth_error l i with
  | Some a => Ok a
  | None => Raise IndexError
  end.

(** [self.attr] for an attribute that may not have been set. *)
Definition attribute {A : Type} (a : option A) : result A :=
  match a with
  | Some v => Ok v
  | None => Raise AttributeError
  end.

Section Rule.
(** The built-in [int] on a [str]: [ValueError] when it is not a number. *)
Variable int : pystr -> result Z.

(** [prepare(self, db, user)] *)
Definition prepare (self : HasGalleryBase) : result HasGalleryBase :=
  how <- subscript (rule_list self) 1 ;;
  let count_type' :=
    if pystr_eqb how (py "less than") then 0%Z
    else if pystr_eqb how (py "greater than") then 2%Z
    else 1%Z in
  number <- subscript (rule_list self) 0 ;;
  n <- int number ;;
  Ok {| rule_list := rule_list self;
        count_type := Some count_type';
        userSelectedCount := Some n |}.

(** [apply(self, db, obj)] *)
Definition apply (self : HasGalleryBase) : Stateful (result bool) :=
  then_ get_media_list (fun l =>
    let count := Z.of_nat (length l) in
    ret (ct <- attribute (count_type self) ;;
         if (ct =? 0)%Z then
           n <- attribute (userSelectedCount self) ;; Ok (count <? n)%Z
         else if (ct =? 2)%Z then
           n <- attribute (userSelectedCount self) ;; Ok (count >? n)%Z
         else
           n <- attribute (userSelectedCount self) ;; Ok (count =? n)%Z)).

End Rule.

(** ** Concrete hosts and locales *)

(** [str.upper] on the letters a to z; the other code points are left as
    they are. *)
Definition upper_ascii (s : pystr) : pystr :=
  map (fun c => if (97 <=? c)%N && (c <=? 122)%N then (c - 32)%N else c) s.

(** A locale that orders strings by code point and translates nothing. *)
Definition code_point_locale (id : N) (lang : string) : GrampsLocale :=
  {| locale_id := id;
     collation := py lang;
     sort_key := fun s => Ok s;
     sgettext := fun s => s |}.

(** A locale whose sort key is [locale.strxfrm] in the C locale: the text
    itself, and [ValueError] (embedded null character) for a text that has
    the character U+0000. *)
Definition strxfrm_locale (id : N) (lang : string) : GrampsLocale :=
  {| locale_id := id;
     collation := py lang;
     sort_key := fun s =>
       if existsb (fun c => (c =? 0)%N) s then Raise ValueError else Ok s;
     sgettext := fun s => s |}.

(** A host without PyICU whose process-wide locale is [locale], on texts
    that are in NFKC form already. *)
Definition plain_host (locale : GrampsLocale) : Host :=
  {| glocale := locale;
     PRIM_COLL := None;
     normalize_NFKC := fun s => s;
     str_upper := upper_ascii;
     nd_sort_string := fun name => get_first_name name;
     utils_place_name := fun _ handle => Some handle |}.

(** The letters A to Z and the letter Å. *)
Definition alphabet27 : list pystr :=
  map (fun c => [N.of_nat c]) (seq 65 26) ++ [py "Å"].

(** A database without people. *)
Definition no_people : Database :=
  {| get_person_from_handle := fun _ => None |}.

(** A database of two people, known by their first names. *)
Definition two_people : Database :=
  {| get_person_from_handle := fun handle =>
       if pystr_eqb handle (py "I0001")
       then Some {| get_primary_name :=
                      {| get_first_name := py "dzsudó"; get_suffix := [] |} |}
       else if pystr_eqb handle (py "I0002")
       then Some {| get_primary_name :=
                      {| get_first_name := py "Dezso"; get_suffix := [] |} |}
       else None |}.

(** The built-in [int] on the texts that are made of decimal digits. *)
Fixpoint int_digits (acc : Z) (s : pystr) : result Z :=
  match s with
  | [] => Ok acc
  | c :: rest =>
      if (48 <=? c)%N && (c <=? 57)%N
      then int_digits (10 * acc + Z.of_N (c - 48))%Z rest
      else Raise ValueError
  end.

Definition int_decimal (s : pystr) : result Z :=
  match s with
  | [] => Raise ValueError
  | _ :: _ => int_digits 0 s
  end.

(** * The index and the rule, continued *)

(** ** Loops that raise *)

(** The first item whose result is an exception decides a loop that binds
    its items in order. *)
Definition first_failure {A B : Type} (f : A -> result B) (l : list A)
    (e : exn) : Prop :=
  exists before x after,
    l = before ++ x :: after
    /\ (forall y, In y before -> exists v, f y = Ok v)
    /\ f x = Raise e.

(** ** The rows of the navigation bar *)

(** The rows that [rows] runs of the [while] loop make of the letters that
    are left, [width] links at a time. *)
Fixpoint row_chunks (rlocale : GrampsLocale) (width rows : nat)
    (letters : list pystr) : NavFragment :=
  match rows with
  | O => []
  | S rows' =>
      map (nav_link rlocale) (firstn width letters)
      :: row_chunks rlocale width rows' (skipn width letters)
  end.

(** ** The three comparisons of [HasGalleryBase] *)

(** A rule object with its parameters, before [prepare]. *)
Definition new_rule (parameters : list pystr) : HasGalleryBase :=
  {| rule_list := parameters;
     count_type := None;
     userSelectedCount := None |}.

(** * Other functions of the web report *)

(** ** Page names *)

(** [s.endswith(suffix)] *)
Definition str_endswith (s suffix : pystr) : bool :=
  (length suffix <=? length s)%nat
  && pystr_eqb (skipn (length s - length suffix) s) suffix.

Definition _WEB_EXT : list pystr :=
  [py ".html"; py ".htm"; py ".shtml"; py ".php"; py ".php3"; py ".cgi"].

(** [_has_webpage_extension(url)] *)
Definition _has_webpage_extension (url : pystr) : bool :=
  existsb (fun ext => str_endswith url ext) _WEB_EXT.

(** ** Sorting people by surname *)

(** The exceptions of the code below: those above, and two more. *)
Inductive error : Type :=
| Builtin (e : exn)
| KeyError
| UnboundLocalError.

(** A call that returns or throws. *)
Inductive outcome (A : Type) : Type :=
| Return (a : A)
| Throw (e : error).

Arguments Return {A} a.
Arguments Throw {A} e.

Definition and_then {A B : Type} (m : outcome A) (k : A -> outcome B)
    : outcome B :=
  match m with
  | Return a => k a
  | Throw e => Throw e
  end.

Notation "x <~ m ;; k" := (and_then m (fun x => k))
  (at level 61, m at next level, right associativity).

(** [[f(x) for x in l]] when [f] may throw. *)
Fixpoint for_each {A B : Type} (f : A -> outcome B) (l : list A)
    : outcome (list B) :=
  match l with
  | [] => Return []
  | x :: rest =>
      y <~ f x ;;
      ys <~ for_each f rest ;;
      Return (y :: ys)
  end.

(** An exception of the code above, thrown on. *)
Definition thrown {A : Type} (m : result A) : outcome A :=
  match m with
  | Ok a => Return a
  | Raise e => Throw (Builtin e)
  end.

(** [d[k] = v] on a dict, which keeps its keys in the order of their first
    insertion. *)
Fixpoint dict_set {V : Type} (k : pystr) (v : V) (d : list (pystr * V))
    : list (pystr * V) :=
  match d with
  | [] => [(k, v)]
  | (k', v') :: rest =>
      if pystr_eqb k' k then (k', v) :: rest
      else (k', v') :: dict_set k v rest
  end.

(** [d[k]] on a dict: [KeyError] when the key is missing. *)
Definition dict_item {V : Type} (d : list (pystr * V)) (k : pystr)
    : outcome V :=
  match dict_get d k with
  | Some v => Return v
  | None => Throw KeyError
  end.

(** [d[k].append(v)] on a [defaultdict(list)]. *)
Fixpoint dict_append (k v : pystr) (d : list (pystr * list pystr))
    : list (pystr * list pystr) :=
  match d with
  | [] => [(k, [v])]
  | (k', vs) :: rest =>
      if pystr_eqb k' k then (k', vs ++ [v]) :: rest
      else (k', vs) :: dict_append k v rest
  end.

(** [d[k]] on a [defaultdict(list)] whose key is there. *)
Definition dict_list (d : list (pystr * list pystr)) (k : pystr)
    : list pystr :=
  match dict_get d k with
  | Some vs => vs
  | None => []
  end.

Section SortPeople.
Context `{Host}.

(** The attribute [group_as] of a name, the name displayer's
    [primary_surname], the database's [get_name_group_mapping] (a [str] or
    [None]) and [str.isspace]. *)
Variable group_as : Name -> pystr.
Variable nd_primary_surname : Name -> pystr.
Variable get_name_group_mapping : Database -> pystr -> option pystr.
Variable str_isspace : pystr -> bool.

(** The surname under which [sort_people] files a name. *)
Definition group_surname (dbase : Database) (primary_name : Name) : pystr :=
  let surname :=
    match group_as primary_name with
    | _ :: _ => Some (group_as primary_name)
    | [] =>
        let group_map := nd_primary_surname primary_name in
        get_name_group_mapping dbase group_map
    end in
  match surname with
  | None => []
  | Some s => if str_isspace s then [] else s
  end.

(** The first loop of [sort_people]. *)
Fixpoint file_people (dbase : Database) (handle_list : list pystr)
    (sname_sub : list (pystr * list pystr))
    (sortnames : list (pystr * pystr))
    : outcome (list (pystr * list pystr) * list (pystr * pystr)) :=
  match handle_list with
  | [] => Return (sname_sub, sortnames)
  | person_handle :: rest =>
      match get_person_from_handle dbase person_handle with
      | None => Throw (Builtin AttributeError)
      | Some person =>
          let primary_name := get_primary_name person in
          let surname := group_surname dbase primary_name in
          let sortnames' :=
            dict_set person_handle (nd_sort_string primary_name) sortnames in
          let sname_sub' := dict_append surname person_handle sname_sub in
          file_people dbase rest sname_sub' sortnames'
      end
  end.

(** The body of the second loop: the people of one surname, sorted by
    their sort names. The names are [str], so that none is decoded. *)
Definition sort_group (rlocale : GrampsLocale)
    (sname_sub : list (pystr * list pystr))
    (sortnames : list (pystr * pystr)) (name : pystr)
    : outcome (pystr * list pystr) :=
  pairs <~ for_each (fun x => sortname <~ dict_item sortnames x ;;
                              Return (sortname, x))
           (dict_list sname_sub name) ;;
  slist <~ thrown (list_sort (fun x : pystr * pystr =>
                                sort_key rlocale (fst x)) pairs) ;;
  let entries := map snd slist in
  Return (name, entries).

(** [sort_people(dbase, handle_list, rlocale=glocale)] *)
Definition sort_people (dbase : Database) (handle_list : list pystr)
    (rlocale : GrampsLocale) : outcome (list (pystr * list pystr)) :=
  filed <~ file_people dbase handle_list [] [] ;;
  let (sname_sub, sortnames) := filed : _ * _ in
  temp_list <~ thrown (list_sort (sort_key rlocale) (map fst sname_sub)) ;;
  for_each (sort_group rlocale sname_sub sortnames) temp_list.

(** The sort name and the surname that the database gives for a handle. *)
Definition sort_name_of (dbase : Database) (handle : pystr) : pystr :=
  match get_person_from_handle dbase handle with
  | Some person => nd_sort_string (get_primary_name person)
  | None => []
  end.

Definition surname_of (dbase : Database) (handle : pystr) : pystr :=
  match get_person_from_handle dbase handle with
  | Some person => group_surname dbase (get_primary_name person)
  | None => []
  end.

(** What [sort_group] does for a surname. *)
Definition group_of (dbase : Database) (rlocale : GrampsLocale)
    (sname_sub : list (pystr * list pystr)) (name : pystr)
    : outcome (pystr * list pystr) :=
  slist <~ thrown (list_sort (fun x : pystr * pystr =>
                                sort_key rlocale (fst x))
                     (map (fun x => (sort_name_of dbase x, x))
                        (dict_list sname_sub name))) ;;
  Return (name, map snd slist).

(** What the first loop keeps true of its two dictionaries, [done] being
    the handles that it has seen. *)
Definition filed_state (dbase : Database)
    (sname_sub : list (pystr * list pystr))
    (sortnames : list (pystr * pystr)) (done : list pystr) : Prop :=
  NoDup (map fst sname_sub)
  /\ Permutation (concat (map snd sname_sub)) done
  /\ (forall k vs, In (k, vs) sname_sub ->
        vs <> []
        /\ forall h, In h vs ->
             get_person_from_handle dbase h <> None
             /\ surname_of dbase h = k)
  /\ (forall h, In h done ->
        dict_get sortnames h = Some (sort_name_of dbase h)).

End SortPeople.

(** ** Escaping text for HTML *)

Definition double_quote : N := 34.
Definition single_quote : N := 39.
Definition newline : N := 10.

(** The text before the first [q] and the text behind it, when there is a
    [q]. *)
Fixpoint split_at_first (q : N) (s : pystr) : option (pystr * pystr) :=
  match s with
  | [] => None
  | c :: rest =>
      if (c =? q)%N then Some ([], rest)
      else match split_at_first q rest with
           | Some (before, behind) => Some (c :: before, behind)
           | None => None
           end
  end.

(** [_HTML_DBL_QUOTES.match(text)] and [_HTML_SNG_QUOTES.match(text)], the
    quote being [q]. The pattern is verbose, so that its blanks do not
    count: a run without quote, a quote, a run without quote, a quote, and
    then what is left of the line, for the dot stops at a line break. The
    answer is [match.groups()]. *)
Definition quotes_match (q : N) (text : pystr)
    : option (pystr * pystr * pystr) :=
  match split_at_first q text with
  | None => None
  | Some (group1, rest) =>
      match split_at_first q rest with
      | None => None
      | Some (group2, rest') =>
          Some (group1, group2, split_first newline rest')
      end
  end.

(** The loop [while match: ...] that turns pairs of quotes into an opening
    and a closing mark. *)
Fixpoint curl_quotes (fuel : nat) (q : N) (opening closing : pystr)
    (text : pystr) : run pystr :=
  match quotes_match q text with
  | None => Done text
  | Some (group1, group2, group3) =>
      match fuel with
      | O => OutOfFuel
      | S fuel' =>
          curl_quotes fuel' q opening closing
            (group1 ++ opening ++ group2 ++ closing ++ group3)
      end
  end.

(** [text.startswith(old)] *)
Definition str_startswith (text old : pystr) : bool :=
  pystr_eqb (firstn (length old) text) old.

(** [text.replace(old, new)] for an [old] that is not empty: the
    occurrences are taken from the left and do not overlap. [skip] counts
    the characters of an occurrence that are still to pass. *)
Fixpoint replace_from (old new : pystr) (skip : nat) (text : pystr)
    : pystr :=
  match text with
  | [] => []
  | c :: rest =>
      match skip with
      | S skip' => replace_from old new skip' rest
      | O =>
          if str_startswith text old
          then new ++ replace_from old new (length old - 1) rest
          else c :: replace_from old new 0 rest
      end
  end.

Definition str_replace (old new text : pystr) : pystr :=
  replace_from old new 0 text.

Section HtmlEscape.
(** [xml.sax.saxutils.escape] *)
Variable escape : pystr -> pystr.

(** What [html_escape] does with the text that [escape] returned. *)
Definition escape_quotes (text : pystr) : run pystr :=
  match curl_quotes (length text) double_quote
          (py "&#8220;") (py "&#8221;") text with
  | OutOfFuel => OutOfFuel
  | Done text =>
      let text := str_replace [double_quote] (py "&#34;") text in
      let text := str_replace (py "'s ") (py "&#8217;s ") text in
      match curl_quotes (length text) single_quote
              (py "&#8216;") (py "&#8217;") text with
      | OutOfFuel => OutOfFuel
      | Done text => Done (str_replace [single_quote] (py "&#39;") text)
      end
  end.

(** [html_escape(text)] *)
Definition html_escape (text : pystr) : run pystr :=
  escape_quotes (escape text).

End HtmlEscape.

(** The number of [q] in a text. *)
Definition occurrences (q : N) (s : pystr) : nat :=
  length (filter (N.eqb q) s).

(** *** The marks *)

(** The characters of the marks that [html_escape] writes. *)
Definition entity_characters : pystr := py "&#;0123456789s ".

(** ** Three people *)

(** Three people: the suffix of their names stands for the surname. *)
Definition three_people : Database :=
  {| get_person_from_handle := fun handle =>
       if pystr_eqb handle (py "I0001")
       then Some {| get_primary_name :=
                      {| get_first_name := py "Carl";
                         get_suffix := py "Smith" |} |}
       else if pystr_eqb handle (py "I0002")
       then Some {| get_primary_name :=
                      {| get_first_name := py "Bob";
                         get_suffix := py "Jones" |} |}
       else if pystr_eqb handle (py "I0003")
       then Some {| get_primary_name :=
                      {| get_first_name := py "Anna";
                         get_suffix := py "Smith" |} |}
       else None |}.

(** One person, whose surname is the character U+0000. *)
Definition person_with_nul : Database :=
  {| get_person_from_handle := fun handle =>
       if pystr_eqb handle (py "I0001")
       then Some {| get_primary_name :=
                      {| get_first_name := py "Ann";
                         get_suffix := [0%N] |} |}
       else None |}.

(** [str.isspace] on blanks. *)
Definition isspace_blank (s : pystr) : bool :=
  match s with
  | [] => false
  | _ :: _ => forallb (fun c => (c =? 32)%N) s
  end.

(** [sort_people] on the three people, without name groups. *)
Definition sort_three_people : outcome (list (pystr * list pystr)) :=
  sort_people (H := plain_host (code_point_locale 0 "en"))
    (fun _ => []) get_suffix (fun _ surname => Some surname) isspace_blank
    three_people [py "I0001"; py "I0002"; py "I0003"]
    (code_point_locale 0 "en").

Definition three_people_sorted : list (pystr * list pystr) :=
  [(py "Jones", [py "I0002"]); (py "Smith", [py "I0003"; py "I0001"])].

(** ** Children in birth order *)

Section AddBirthdate.
(** Events and dates of the database, and what the function reads of
    them: the handle in the birth reference of a person (a person may have
    none), the event of a handle (the database may have none), the date of
    an event and its sort value, the date in the words of a locale, and
    [get_death_or_fallback] of [gramps.gen.utils.db]. *)
Variable Event : Type.
Variable Date : Type.
Variable get_birth_ref : Person -> option pystr.
Variable get_event_from_handle : Database -> pystr -> option Event.
Variable get_date_object : Event -> Date.
Variable get_sort_value : Date -> Z.
Variable get_date : GrampsLocale -> Date -> pystr.
Variable get_death_or_fallback : Database -> Person -> option Event.

(** One entry of the result:
    [(birth_date, birth1, death, person_handle)]. *)
Definition BirthEntry : Type := (Z * pystr * pystr * pystr)%type.

(** A local variable: [None] as long as nothing was assigned to it. *)
Definition read_local {A : Type} (variable : option A) : outcome A :=
  match variable with
  | Some v => Return v
  | None => Throw UnboundLocalError
  end.

(** The loop of [add_birthdate]. The variables [birth1] and [death] are
    those of the function: they keep, from one round to the next, what was
    last assigned to them. *)
Fixpoint add_birthdate_loop (dbase : Database) (ppl_handle_list : list pystr)
    (rlocale : GrampsLocale) (birth1 death : option pystr)
    (sortable_individuals : list BirthEntry) : outcome (list BirthEntry) :=
  match ppl_handle_list with
  | [] => Return sortable_individuals
  | person_handle :: rest =>
      let birth_date := 0%Z in
      let '(birth_date, birth1, death) :=
        match get_person_from_handle dbase person_handle with
        | Some person =>
            let birth_ref := get_birth_ref person in
            let birth1 := [] in
            let '(birth_date, birth1) :=
              match birth_ref with
              | Some ref =>
                  match get_event_from_handle dbase ref with
                  | Some birth =>
                      (get_sort_value (get_date_object birth),
                       get_date rlocale (get_date_object birth))
                  | None => (birth_date, birth1)
                  end
              | None => (birth_date, birth1)
              end in
            let death :=
              match get_death_or_fallback dbase person with
              | Some death_event =>
                  get_date rlocale (get_date_object death_event)
              | None => []
              end in
            (birth_date, Some birth1, Some death)
        | None => (birth_date, birth1, death)
        end in
      b <~ read_local birth1 ;;
      d <~ read_local death ;;
      add_birthdate_loop dbase rest rlocale birth1 death
        (sortable_individuals ++ [(birth_date, b, d, person_handle)])
  end.

(** [add_birthdate(dbase, ppl_handle_list, rlocale)] *)
Definition add_birthdate (dbase : Database) (ppl_handle_list : list pystr)
    (rlocale : GrampsLocale) : outcome (list BirthEntry) :=
  add_birthdate_loop dbase ppl_handle_list rlocale None None [].

(** The handle of an entry. *)
Definition entry_handle (entry : BirthEntry) : pystr := snd entry.

End AddBirthdate.

(** [add_birthdate] on people of [three_people]: an event is a sort value
    with the words of its date, Carl has the birth event [E0001], nobody has
    a death event, and [I0009] is the handle of no person. *)
Definition birth_of (person : Person) : option pystr :=
  if pystr_eqb (get_first_name (get_primary_name person)) (py "Carl")
  then Some (py "E0001") else None.

Definition events_of (dbase : Database) (handle : pystr)
    : option (Z * pystr) :=
  if pystr_eqb handle (py "E0001") then Some (19000101%Z, py "1900-01-01")
  else None.

Definition birthdates_of_three : outcome (list (BirthEntry)) :=
  add_birthdate (Z * pystr) (Z * pystr) birth_of events_of
    (fun event => event) fst (fun _ date => snd date) (fun _ _ => None)
    three_people [py "I0001"; py "I0009"; py "I0002"]
    (code_point_locale 0 "en").

Definition three_birthdates : list BirthEntry :=
  [(19000101%Z, py "1900-01-01", [], py "I0001");
   (0%Z, py "1900-01-01", [], py "I0009");
   (0%Z, [], [], py "I0002")].

(** ** The grid of thumbnails *)

Section ThumbnailGrid.
(** A media object of the database. *)
Variable Photo : Type.

(** One entry of [media_list]: [(ptitle, person_handle, photo)]. *)
Definition MediaItem : Type := (pystr * pystr * Photo)%type.

(** A cell of the grid: the [td] of a thumbnail, which holds its index
    and what was made of the entry of [media_list], or the empty [td] of
    class [emptyDays]. *)
Inductive GridCell : Type :=
| Thumbnail (index : nat) (item : MediaItem)
| EmptyDays.

(** The inner [while] loop, which fills [trow]. *)
Fixpoint thumbnail_row (fuel : nat) (media_list : list MediaItem)
    (num_of_images num_of_cols : nat) (index indexpos cols : nat)
    (trow : list GridCell) : run (outcome (list GridCell * nat * nat * nat)) :=
  if (cols <? num_of_cols)%nat && (indexpos <? num_of_images)%nat then
    match fuel with
    | O => OutOfFuel
    | S fuel' =>
        match nth_error media_list indexpos with
        | None => Done (Throw (Builtin IndexError))
        | Some item =>
            thumbnail_row fuel' media_list num_of_images num_of_cols
              (index + 1) (indexpos + 1) (cols + 1)
              (trow ++ [Thumbnail index item])
        end
    end
  else Done (Return (trow, index, indexpos, cols)).

(** The outer [while] loop. [tbody] holds the rows that were attached to
    the table before [trow], which is the row attached last: a new row
    takes the name [trow], and the row that had it stays in the table as
    it is. [trow] and [cols] have no value before the first round. *)
Fixpoint thumbnail_rows (fuel : nat) (media_list : list MediaItem)
    (num_of_images num_of_rows num_of_cols : nat)
    (grid_row index indexpos : nat) (cols : option nat)
    (trow : option (list GridCell)) (tbody : list (list GridCell))
    : run (outcome (list (list GridCell) * option (list GridCell) * option nat * nat)) :=
  if (grid_row <? num_of_rows)%nat then
    match fuel with
    | O => OutOfFuel
    | S fuel' =>
        let tbody :=
          match trow with
          | Some row => tbody ++ [row]
          | None => tbody
          end in
        match thumbnail_row num_of_cols media_list num_of_images
                num_of_cols index indexpos 0 [] with
        | OutOfFuel => OutOfFuel
        | Done (Throw e) => Done (Throw e)
        | Done (Return (trow, index, indexpos, cols)) =>
            thumbnail_rows fuel' media_list num_of_images num_of_rows
              num_of_cols (grid_row + 1) index indexpos (Some cols)
              (Some trow) tbody
        end
    end
  else Done (Return (tbody, trow, cols, grid_row)).

(** The rows of the table: those of [tbody], then [trow]. *)
Definition table_rows (tbody : list (list GridCell)) (trow : option (list GridCell))
    : list (list GridCell) :=
  match trow with
  | Some row => tbody ++ [row]
  | None => tbody
  end.

(** The rows of the [tbody] that [ThumbnailPreviewPage.__init__] builds
    from [media_list], with the cells that finish the last row. *)
Definition thumbnail_grid (media_list : list MediaItem)
    : run (outcome (list (list GridCell))) :=
  let index := 1%nat in
  let indexpos := 0%nat in
  let num_of_images := length media_list in
  let num_of_rows := (num_of_images / 7 + 1)%nat in
  let num_of_cols := 7%nat in
  let grid_row := 0%nat in
  match thumbnail_rows num_of_rows media_list num_of_images num_of_rows
          num_of_cols grid_row index indexpos None None [] with
  | OutOfFuel => OutOfFuel
  | Done (Throw e) => Done (Throw e)
  | Done (Return (tbody, trow, cols, grid_row)) =>
      Done
        (if (grid_row =? num_of_rows)%nat then
           cols <~ read_local cols ;;
           if (cols <? num_of_cols)%nat then
             trow <~ read_local trow ;;
             Return
               (tbody
                ++ [trow ++ map (fun emptycols => EmptyDays)
                              (seq cols (num_of_cols - cols))])
           else Return (table_rows tbody trow)
         else Return (table_rows tbody trow))
  end.

(** The cells of some entries, numbered from [index] on. *)
Fixpoint number_from (index : nat) (items : list MediaItem) : list GridCell :=
  match items with
  | [] => []
  | item :: rest => Thumbnail index item :: number_from (S index) rest
  end.

(** [rows] rows of at most [num_of_cols] entries each. *)
Fixpoint grid_rows (num_of_cols rows index : nat) (items : list MediaItem)
    : list (list GridCell) :=
  match rows with
  | O => []
  | S rows' =>
      number_from index (firstn num_of_cols items)
      :: grid_rows num_of_cols rows'
           (index + Nat.min num_of_cols (length items))
           (skipn num_of_cols items)
  end.

End ThumbnailGrid.

Arguments Thumbnail {Photo} index item.
Arguments EmptyDays {Photo}.
Arguments thumbnail_row {Photo} fuel media_list.
Arguments thumbnail_rows {Photo} fuel media_list.
Arguments table_rows {Photo} tbody trow.
Arguments thumbnail_grid {Photo} media_list.
Arguments number_from {Photo} index items.
Arguments grid_rows {Photo} num_of_cols rows index items.

(** Seven media, which fill one row. *)
Definition seven_media : list (MediaItem unit) :=
  map (fun title => (title, py "M" ++ title, tt))
    [py "1"; py "2"; py "3"; py "4"; py "5"; py "6"; py "7"].

(** ** Events by type *)

(** Three-way comparison of two tuples [(sort_value, event_handle)]: the
    first components decide unless they are equal. *)
Definition tuple_compare (a b : Z * pystr) : comparison :=
  match (fst a ?= fst b)%Z with
  | Eq => str_compare (snd a) (snd b)
  | c => c
  end.

(** [a < b] on such tuples. *)
Definition tuple_lt (a b : Z * pystr) : bool :=
  match tuple_compare a b with Lt => true | _ => false end.

(** [tup_list.sort()]: stable, and comparing with [<] only. *)
Fixpoint insert_tuple (x : Z * pystr) (l : list (Z * pystr))
    : list (Z * pystr) :=
  match l with
  | [] => [x]
  | y :: rest =>
      if tuple_lt x y then x :: y :: rest
      else y :: insert_tuple x rest
  end.

Definition sort_tuples (l : list (Z * pystr)) : list (Z * pystr) :=
  fold_left (fun sorted x => insert_tuple x sorted) l [].

(** [object.attribute] where [object] may be [None]. *)
Definition attribute_of {A : Type} (object : option A) : outcome A :=
  match object with
  | Some a => Return a
  | None => Throw (Builtin AttributeError)
  end.

Section SortEventTypes.
(** Events, their types and their dates, and what the function reads of
    them. *)
Variable Event : Type.
Variable EventType : Type.
Variable Date : Type.
Variable get_event_from_handle : Database -> pystr -> option Event.
Variable get_type : Event -> EventType.
Variable xml_str : EventType -> pystr.
Variable get_date_object : Event -> Date.
Variable get_sort_value : Date -> Z.

(** The loop over [event_handle_list]. *)
Fixpoint file_events (dbase : Database) (event_handle_list : list pystr)
    (rlocale : GrampsLocale) (event_dict : list (pystr * list (Z * pystr)))
    : outcome (list (pystr * list (Z * pystr))) :=
  match event_handle_list with
  | [] => Return event_dict
  | event_handle :: rest =>
      let event := get_event_from_handle dbase event_handle in
      event <~ attribute_of event ;;
      let event_type := sgettext rlocale (xml_str (get_type event)) in
      let event_dict :=
        match dict_get event_dict event_type with
        | Some tup_list =>
            let sort_value := get_sort_value (get_date_object event) in
            dict_set event_type (tup_list ++ [(sort_value, event_handle)])
              event_dict
        | None => event_dict
        end in
      file_events dbase rest rlocale event_dict
  end.

(** [sort_event_types(dbase, event_types, event_handle_list, rlocale)] *)
Definition sort_event_types (dbase : Database) (event_types : list pystr)
    (event_handle_list : list pystr) (rlocale : GrampsLocale)
    : outcome (list (pystr * list (Z * pystr))) :=
  let event_dict :=
    fold_left (fun d evt_type => dict_set evt_type [] d) event_types [] in
  event_dict <~ file_events dbase event_handle_list rlocale event_dict ;;
  let event_dict :=
    map (fun item => (fst item, sort_tuples (snd item))) event_dict in
  let retval := event_dict in
  Return (sorted_by fst retval).

(** The type under which the loop files an event. *)
Definition has_type (dbase : Database) (rlocale : GrampsLocale)
    (event_type event_handle : pystr) : bool :=
  match get_event_from_handle dbase event_handle with
  | Some event =>
      pystr_eqb (sgettext rlocale (xml_str (get_type event))) event_type
  | None => false
  end.

(** The tuple of an event. *)
Definition event_tuple (dbase : Database) (event_handle : pystr)
    : Z * pystr :=
  (match get_event_from_handle dbase event_handle with
   | Some event => get_sort_value (get_date_object event)
   | None => 0%Z
   end, event_handle).

End SortEventTypes.

(** [a] is not behind [b]: the order in which [tup_list.sort()] leaves the
    tuples. *)
Definition tuple_le (a b : Z * pystr) : Prop :=
  (fst a < fst b)%Z \/ (fst a = fst b /\ str_le (snd a) (snd b) = true).

(** [sort_event_types] on four events: an event is the name of its type
    with the sort value of its date. *)
Definition four_events (dbase : Database) (handle : pystr)
    : option (pystr * Z) :=
  if pystr_eqb handle (py "E0001") then Some (py "Birth", 19000101%Z)
  else if pystr_eqb handle (py "E0002") then Some (py "Death", 19500101%Z)
  else if pystr_eqb handle (py "E0003") then Some (py "Birth", 18900101%Z)
  else if pystr_eqb handle (py "E0004") then Some (py "Birth", 18900101%Z)
  else None.

Definition sort_four_events : outcome (list (pystr * list (Z * pystr))) :=
  sort_event_types (pystr * Z) pystr Z four_events fst (fun type => type)
    snd (fun date => date) no_people
    [py "Death"; py "Birth"; py "Death"; py "Marriage"]
    [py "E0004"; py "E0001"; py "E0002"; py "E0003"]
    (code_point_locale 0 "en").

Definition births_sorted : list (Z * pystr) :=
  [(18900101%Z, py "E0003"); (18900101%Z, py "E0004");
   (19000101%Z, py "E0001")].

Definition four_events_sorted : list (pystr * list (Z * pystr)) :=
  [(py "Birth", births_sorted);
   (py "Death", [(19500101%Z, py "E0002")]);
   (py "Marriage", [])].

(** ** The events of some people *)

Section BuildEventData.
(** Events and families of the database, and what the function reads of
    them: the handles in the event references of a person and of a family,
    the handles of the families of a person, and the name of the type of
    an event, which the function asks for in two ways,
    [str(event.get_type())] and [str(event.type)]. *)
Variable Event : Type.
Variable Family : Type.
Variable get_event_from_handle : Database -> pystr -> option Event.
Variable get_family_from_handle : Database -> pystr -> option Family.
Variable get_event_ref_list : Person -> list pystr.
Variable get_family_handle_list : Person -> list pystr.
Variable family_get_event_ref_list : Family -> list pystr.
Variable str_get_type : Event -> pystr.
Variable str_type : Event -> pystr.

(** The two lists that the function fills:
    [(event_handle_list, event_types)]. *)
Definition EventData : Type := (list pystr * list pystr)%type.

(** The loop over the event references of a person. *)
Fixpoint person_events (dbase : Database) (evt_ref_list : list pystr)
    (data : EventData) : EventData :=
  match evt_ref_list with
  | [] => data
  | evt_ref :: rest =>
      let '(event_handle_list, event_types) := data in
      person_events dbase rest
        match get_event_from_handle dbase evt_ref with
        | Some event =>
            (event_handle_list ++ [evt_ref],
             event_types ++ [str_get_type event])
        | None => (event_handle_list, event_types)
        end
  end.

(** The loop over the event references of a family. *)
Fixpoint family_events (dbase : Database) (family_evt_ref_list : list pystr)
    (data : EventData) : EventData :=
  match family_evt_ref_list with
  | [] => data
  | evt_ref :: rest =>
      let '(event_handle_list, event_types) := data in
      family_events dbase rest
        match get_event_from_handle dbase evt_ref with
        | Some event =>
            (event_handle_list ++ [evt_ref], event_types ++ [str_type event])
        | None => (event_handle_list, event_types)
        end
  end.

(** The loop over the families of a person. *)
Fixpoint families_events (dbase : Database)
    (person_family_handle_list : list pystr) (data : EventData)
    : EventData :=
  match person_family_handle_list with
  | [] => data
  | family_handle :: rest =>
      families_events dbase rest
        match get_family_from_handle dbase family_handle with
        | Some family =>
            family_events dbase (family_get_event_ref_list family) data
        | None => data
        end
  end.

(** The loop over the people. *)
Fixpoint people_events (dbase : Database) (ppl_handle_list : list pystr)
    (data : EventData) : EventData :=
  match ppl_handle_list with
  | [] => data
  | person_handle :: rest =>
      people_events dbase rest
        match get_person_from_handle dbase person_handle with
        | Some person =>
            let data :=
              person_events dbase (get_event_ref_list person) data in
            families_events dbase (get_family_handle_list person) data
        | None => data
        end
  end.

(** [build_event_data_by_individuals(dbase, ppl_handle_list)] *)
Definition build_event_data_by_individuals (dbase : Database)
    (ppl_handle_list : list pystr) : EventData :=
  let event_handle_list := [] in
  let event_types := [] in
  people_events dbase ppl_handle_list (event_handle_list, event_types).

(** The events of some references that the database has, each handle with
    the name of the type of its event as [type_name] gives it. *)
Definition known_events (type_name : Event -> pystr) (dbase : Database)
    (evt_ref_list : list pystr) : list (pystr * pystr) :=
  flat_map (fun evt_ref =>
              match get_event_from_handle dbase evt_ref with
              | Some event => [(evt_ref, type_name event)]
              | None => []
              end) evt_ref_list.

(** The events of the families of some handles, named by
    [str(event.type)]. *)
Definition family_event_data (dbase : Database)
    (person_family_handle_list : list pystr) : list (pystr * pystr) :=
  flat_map (fun family_handle =>
              match get_family_from_handle dbase family_handle with
              | Some family =>
                  known_events str_type dbase
                    (family_get_event_ref_list family)
              | None => []
              end) person_family_handle_list.

(** What one handle of [ppl_handle_list] adds: the events of the person,
    named by [str(event.get_type())], then the events of the families of
    the person. *)
Definition person_event_data (dbase : Database) (person_handle : pystr)
    : list (pystr * pystr) :=
  match get_person_from_handle dbase person_handle with
  | Some person =>
      known_events str_get_type dbase (get_event_ref_list person)
      ++ family_event_data dbase (get_family_handle_list person)
  | None => []
  end.

(** What the two lists hold after some pairs are added to them. *)
Definition with_events (data : EventData) (events : list (pystr * pystr))
    : EventData :=
  (fst data ++ map fst events, snd data ++ map snd events).

End BuildEventData.

(** ** The order of sort keys *)

Lemma pystr_eqb_eq (a b : pystr) : pystr_eqb a b = true <-> a = b.
Proof.
  revert b; induction a as [|x a IH]; intros [|y b]; simpl;
    try (split; [discriminate | discriminate]); [tauto|].
  rewrite andb_true_iff, N.eqb_eq, IH.
  split; [intros [-> ->]; reflexivity | intros E; inversion E; auto].
Qed.

Lemma pystr_eqb_refl (a : pystr) : pystr_eqb a a = true.
Proof. apply pystr_eqb_eq; reflexivity. Qed.

Lemma pystr_eqb_neq (a b : pystr) : pystr_eqb a b = false <-> a <> b.
Proof.
  rewrite <- pystr_eqb_eq. destruct (pystr_eqb a b); split; congruence.
Qed.

Lemma str_compare_antisym (a b : pystr) :
  str_compare b a = CompOpp (str_compare a b).
Proof.
  revert b; induction a as [|x a IH]; intros [|y b]; simpl; auto.
  rewrite (N.compare_antisym x y).
  destruct (x ?= y)%N; simpl; auto.
Qed.

Lemma str_compare_eq (a b : pystr) : str_compare a b = Eq <-> a = b.
Proof.
  revert b; induction a as [|x a IH]; intros [|y b]; simpl;
    try (split; [discriminate | discriminate]); [tauto|].
  destruct (x ?= y)%N eqn:E.
  - apply N.compare_eq_iff in E; subst y. rewrite IH.
    split; [intros ->; reflexivity | intros E; inversion E; auto].
  - split; [discriminate|]. intros E'; inversion E'; subst.
    rewrite N.compare_refl in E; discriminate.
  - split; [discriminate|]. intros E'; inversion E'; subst.
    rewrite N.compare_refl in E; discriminate.
Qed.

Lemma str_compare_lt_trans (a b c : pystr) :
  str_compare a b = Lt -> str_compare b c = Lt -> str_compare a c = Lt.
Proof.
  revert b c; induction a as [|x a IH]; intros [|y b] [|z c]; simpl;
    try discriminate; auto.
  destruct (x ?= y)%N eqn:Exy; try discriminate;
    destruct (y ?= z)%N eqn:Eyz; try discriminate; intros Hab Hbc.
  - apply N.compare_eq_iff in Exy, Eyz; subst. rewrite N.compare_refl.
    eauto.
  - apply N.compare_eq_iff in Exy; subst. rewrite Eyz; reflexivity.
  - apply N.compare_eq_iff in Eyz; subst. rewrite Exy; reflexivity.
  - rewrite N.compare_lt_iff in Exy, Eyz.
    assert (E : (x ?= z)%N = Lt) by (apply N.compare_lt_iff; lia).
    rewrite E; reflexivity.
Qed.

Lemma str_le_refl (a : pystr) : str_le a a = true.
Proof.
  unfold str_le. replace (str_compare a a) with Eq; auto.
  symmetry; apply str_compare_eq; reflexivity.
Qed.

Lemma str_le_trans (a b c : pystr) :
  str_le a b = true -> str_le b c = true -> str_le a c = true.
Proof.
  unfold str_le.
  destruct (str_compare a b) eqn:Eab; try discriminate;
    destruct (str_compare b c) eqn:Ebc; try discriminate; intros _ _.
  - apply str_compare_eq in Eab, Ebc; subst. rewrite (proj2 (str_compare_eq c c) eq_refl); reflexivity.
  - apply str_compare_eq in Eab; subst. rewrite Ebc; reflexivity.
  - apply str_compare_eq in Ebc; subst. rewrite Eab; reflexivity.
  - rewrite (str_compare_lt_trans _ _ _ Eab Ebc); reflexivity.
Qed.

Lemma str_le_antisym (a b : pystr) :
  str_le a b = true -> str_le b a = true -> a = b.
Proof.
  unfold str_le. rewrite (str_compare_antisym a b).
  destruct (str_compare a b) eqn:E; simpl; try discriminate.
  intros _ _. apply str_compare_eq; assumption.
Qed.

Lemma str_lt_le (a b : pystr) : str_lt a b = true -> str_le a b = true.
Proof. unfold str_lt, str_le. destruct (str_compare a b); auto. Qed.

Lemma str_not_lt_le (a b : pystr) : str_lt a b = false -> str_le b a = true.
Proof.
  unfold str_lt, str_le. rewrite (str_compare_antisym a b).
  destruct (str_compare a b); simpl; auto.
Qed.

Lemma str_ge_not_lt (a b : pystr) : str_ge a b = negb (str_lt a b).
Proof. unfold str_ge, str_lt. destruct (str_compare a b); reflexivity. Qed.

(** ** Calls that may raise *)

Lemma bind_ok {A B : Type} (m : result A) (k : A -> result B) (b : B) :
  bind m k = Ok b -> exists a, m = Ok a /\ k a = Ok b.
Proof. destruct m as [a|e]; simpl; [eauto | discriminate]. Qed.

(** ** Sorting by key *)

Section SortedBy.
Context {A : Type}.
Variable key : A -> pystr.

Lemma insert_sorted_perm (x : A) (l : list A) :
  Permutation (x :: l) (insert_sorted key x l).
Proof.
  induction l as [|y l IH]; simpl; auto.
  destruct (str_lt (key x) (key y)); auto.
  rewrite perm_swap. constructor. exact IH.
Qed.

Lemma insert_sorted_sorted (x : A) (l : list A) :
  Sorted (le_by key) l -> Sorted (le_by key) (insert_sorted key x l).
Proof.
  induction 1 as [|y l Hs IH Hhd]; simpl.
  - repeat constructor.
  - destruct (str_lt (key x) (key y)) eqn:E.
    + constructor; [constructor; assumption|].
      constructor. apply str_lt_le; assumption.
    + constructor; [assumption|].
      apply str_not_lt_le in E.
      destruct l as [|z l]; simpl.
      * constructor; assumption.
      * destruct (str_lt (key x) (key z)); constructor; auto.
        inversion Hhd; assumption.
Qed.

Lemma sorted_by_fold (l acc : list A) :
  Permutation (acc ++ l)
    (fold_left (fun sorted x => insert_sorted key x sorted) l acc)
  /\ (Sorted (le_by key) acc ->
      Sorted (le_by key)
        (fold_left (fun sorted x => insert_sorted key x sorted) l acc)).
Proof.
  revert acc; induction l as [|x l IH]; intros acc; simpl.
  - rewrite app_nil_r. auto.
  - destruct (IH (insert_sorted key x acc)) as (Hperm & Hsorted). split.
    + rewrite <- Hperm, <- insert_sorted_perm.
      symmetry; apply Permutation_middle.
    + intros Hacc. apply Hsorted, insert_sorted_sorted, Hacc.
Qed.

Lemma sorted_by_perm (l : list A) : Permutation l (sorted_by key l).
Proof. apply (sorted_by_fold l []). Qed.

Lemma sorted_by_sorted (l : list A) :
  StronglySorted (le_by key) (sorted_by key l).
Proof.
  apply Sorted_StronglySorted.
  - intros a b c. unfold le_by. apply str_le_trans.
  - apply (sorted_by_fold l []). constructor.
Qed.

End SortedBy.

Lemma StronglySorted_map {A B : Type} (R : B -> B -> Prop) (f : A -> B)
    (l : list A) :
  StronglySorted (fun a b => R (f a) (f b)) l -> StronglySorted R (map f l).
Proof.
  induction 1 as [|x l Hs IH Hall]; simpl; constructor; auto.
  rewrite Forall_map. exact Hall.
Qed.

Lemma StronglySorted_weaken {A : Type} (R R' : A -> A -> Prop) (l : list A) :
  (forall a b, In a l -> In b l -> R a b -> R' a b) ->
  StronglySorted R l -> StronglySorted R' l.
Proof.
  intros Himp Hs. induction Hs as [|x l Hs IH Hall]; constructor.
  - apply IH. intros a b Ha Hb. apply Himp; simpl; auto.
  - rewrite Forall_forall in *. intros b Hb.
    apply Himp; simpl; auto.
Qed.

(** *** The first exception of a loop *)

Lemma first_failure_nil {A B : Type} (f : A -> result B) (e : exn) :
  ~ first_failure f [] e.
Proof. intros (before & x & after & E & _). destruct before; discriminate. Qed.

Lemma first_failure_cons_ok {A B : Type} (f : A -> result B) (x : A) (v : B)
    (l : list A) (e : exn) :
  f x = Ok v -> (first_failure f (x :: l) e <-> first_failure f l e).
Proof.
  intros Hx. split.
  - intros (before & y & after & E & Hbefore & Hy).
    destruct before as [|z before]; simpl in E; inversion E; subst.
    + congruence.
    + exists before, y, after. split; [reflexivity|]. split; [|exact Hy].
      intros w Hw. apply Hbefore. simpl; auto.
  - intros (before & y & after & -> & Hbefore & Hy).
    exists (x :: before), y, after. split; [reflexivity|]. split; [|exact Hy].
    intros w [<-|Hw]; eauto.
Qed.

Lemma first_failure_cons_raise {A B : Type} (f : A -> result B) (x : A)
    (l : list A) (e0 e : exn) :
  f x = Raise e0 -> (first_failure f (x :: l) e <-> e = e0).
Proof.
  intros Hx. split.
  - intros (before & y & after & E & Hbefore & Hy).
    destruct before as [|z before]; simpl in E; inversion E; subst.
    + congruence.
    + destruct (Hbefore z) as (v & Hv); [simpl; auto | congruence].
  - intros ->. exists [], x, l. split; [reflexivity|]. split; [|exact Hx].
    intros y [].
Qed.

Lemma first_failure_in {A B : Type} (f : A -> result B) (l : list A)
    (e : exn) :
  first_failure f l e -> exists x, In x l /\ f x = Raise e.
Proof.
  intros (before & x & after & -> & _ & Hx). exists x.
  rewrite in_app_iff. simpl. auto.
Qed.

Lemma first_failure_exists {A B : Type} (f : A -> result B) (l : list A) :
  (exists x e, In x l /\ f x = Raise e) -> exists e, first_failure f l e.
Proof.
  induction l as [|y l IH]; intros (x & e & Hin & Hx); [contradiction|].
  destruct (f y) as [v|e0] eqn:Ey.
  - destruct Hin as [->|Hin]; [congruence|].
    destruct IH as (e1 & He1); [eauto|].
    exists e1. apply (first_failure_cons_ok f y v); assumption.
  - exists e0. apply (first_failure_cons_raise f y l e0 e0 Ey). reflexivity.
Qed.

(** *** Sorting with a key function that is called *)

Section SortByKey.
Context {A : Type}.
Variable key : A -> result pystr.

Lemma key_le_trans (a b c : A) :
  key_le key a b -> key_le key b c -> key_le key a c.
Proof.
  intros (ka & kb & Ha & Hb & Hab) (kb' & kc & Hb' & Hc & Hbc).
  rewrite Hb in Hb'. inversion Hb'; subst kb'.
  exists ka, kc. split; [exact Ha|]. split; [exact Hc|].
  apply (str_le_trans _ _ _ Hab Hbc).
Qed.

(** The keys that are kept are those of the items. *)
Lemma keyed_items :
  forall l decorated,
    keyed key l = Ok decorated ->
    map snd decorated = l
    /\ Forall (fun kx => key (snd kx) = Ok (fst kx)) decorated.
Proof.
  induction l as [|x l IH]; simpl; intros decorated.
  - intros E; inversion E; subst. split; [reflexivity | constructor].
  - destruct (key x) as [k|e] eqn:Ex; simpl; [|discriminate].
    destruct (keyed key l) as [rest|e] eqn:El; simpl; [|discriminate].
    intros E; inversion E; subst. destruct (IH rest eq_refl) as (Hitems & Hkeys).
    simpl. rewrite Hitems. split; [reflexivity|]. constructor; assumption.
Qed.

(** The exception of the first item whose key raises ends the sort. *)
Lemma keyed_raise (e : exn) :
  forall l, keyed key l = Raise e <-> first_failure key l e.
Proof.
  induction l as [|x l IH]; simpl.
  - split; [discriminate|]. intros Hf. destruct (first_failure_nil _ _ Hf).
  - destruct (key x) as [k|e0] eqn:Ex; simpl.
    + rewrite (first_failure_cons_ok key x k l e Ex), <- IH.
      destruct (keyed key l); simpl; split; congruence.
    + rewrite (first_failure_cons_raise key x l e0 e Ex).
      split; congruence.
Qed.

Lemma keyed_returns :
  forall l,
    (forall x, In x l -> exists k, key x = Ok k) ->
    exists decorated, keyed key l = Ok decorated.
Proof.
  induction l as [|x l IH]; simpl; intros Hkeys; [eauto|].
  destruct (Hkeys x) as (k & ->); [auto|]. simpl.
  destruct IH as (rest & ->); [auto|]. simpl. eauto.
Qed.

Lemma list_sort_perm (l l' : list A) :
  list_sort key l = Ok l' -> Permutation l l'.
Proof.
  unfold list_sort. intros Hsort. apply bind_ok in Hsort.
  destruct Hsort as (decorated & Hkeyed & E). inversion E; subst l'.
  destruct (keyed_items _ _ Hkeyed) as (<- & _).
  apply Permutation_map, sorted_by_perm.
Qed.

Lemma list_sort_in (l l' : list A) (x : A) :
  list_sort key l = Ok l' -> (In x l' <-> In x l).
Proof.
  intros Hsort. apply list_sort_perm in Hsort.
  split; apply Permutation_in; [symmetry|]; exact Hsort.
Qed.

Lemma list_sort_sorted (l l' : list A) :
  list_sort key l = Ok l' -> StronglySorted (key_le key) l'.
Proof.
  unfold list_sort. intros Hsort. apply bind_ok in Hsort.
  destruct Hsort as (decorated & Hkeyed & E). inversion E; subst l'.
  destruct (keyed_items _ _ Hkeyed) as (_ & Hkeys).
  apply StronglySorted_map.
  eapply StronglySorted_weaken; [|apply (sorted_by_sorted fst decorated)].
  intros a b Ha Hb Hab.
  apply (Permutation_in _ (Permutation_sym (sorted_by_perm fst decorated)))
    in Ha, Hb.
  rewrite Forall_forall in Hkeys.
  exists (fst a), (fst b). auto.
Qed.

Lemma list_sort_keys (l l' : list A) :
  list_sort key l = Ok l' -> forall x, In x l -> exists k, key x = Ok k.
Proof.
  unfold list_sort. intros Hsort. apply bind_ok in Hsort.
  destruct Hsort as (decorated & Hkeyed & _).
  destruct (keyed_items _ _ Hkeyed) as (<- & Hkeys).
  intros x Hx. apply in_map_iff in Hx. destruct Hx as (kx & <- & Hkx).
  rewrite Forall_forall in Hkeys. exists (fst kx). auto.
Qed.

Lemma list_sort_raise (l : list A) (e : exn) :
  list_sort key l = Raise e <-> first_failure key l e.
Proof.
  rewrite <- keyed_raise. unfold list_sort.
  destruct (keyed key l); simpl; split; congruence.
Qed.

Lemma list_sort_returns (l : list A) :
  (forall x, In x l -> exists k, key x = Ok k) ->
  exists l', list_sort key l = Ok l'.
Proof.
  intros Hkeys. destruct (keyed_returns l Hkeys) as (decorated & E).
  unfold list_sort. rewrite E. simpl. eauto.
Qed.

Lemma StronglySorted_drop_middle (l1 : list A) (x : A) (l2 : list A) :
  StronglySorted (key_le key) (l1 ++ x :: l2) ->
  StronglySorted (key_le key) (l1 ++ l2).
Proof.
  induction l1 as [|y l1 IH]; simpl; intros Hs.
  - inversion Hs; assumption.
  - inversion Hs as [|? ? Hs' Hall]; subst. constructor; auto.
    rewrite Forall_app in *. destruct Hall as [H1 H2].
    inversion H2; auto.
Qed.

(** Between two items of the same key, every key is that key. *)
Lemma StronglySorted_between (x : A) (l1 : list A) (y : A) (l2 : list A) :
  StronglySorted (key_le key) (x :: l1 ++ y :: l2) -> key x = key y ->
  Forall (fun z => key z = key x) l1.
Proof.
  intros Hs Exy. inversion Hs as [|? ? Hs' Hall]; subst.
  rewrite Forall_app in Hall. destruct Hall as [Hle _].
  clear Hs. revert Hs' Hle. induction l1 as [|z l1 IH]; simpl; intros Hs' Hle.
  - constructor.
  - inversion Hs' as [|? ? Hs'' Hall]; subst.
    inversion Hle as [|? ? Hxz Hle']; subst.
    constructor; [|apply IH; assumption].
    rewrite Forall_app in Hall. destruct Hall as [_ Hzy].
    inversion Hzy as [|? ? Hzy' _]; subst.
    destruct Hxz as (kx & kz & Hx & Hz & Hxz).
    destruct Hzy' as (kz' & ky & Hz' & Hy & Hzy').
    rewrite Hz in Hz'. inversion Hz'; subst kz'.
    rewrite Exy, Hy in Hx. inversion Hx; subst kx.
    rewrite Hz, Exy, Hy. f_equal.
    apply str_le_antisym; assumption.
Qed.


End SortByKey.


Lemma Sorted_snoc {A : Type} (R : A -> A -> Prop) (l : list A) (p v : A) :
  Sorted R (l ++ [p]) -> R p v -> Sorted R ((l ++ [p]) ++ [v]).
Proof.
  intros Hs Hpv. induction l as [|x l IH]; simpl in *.
  - repeat constructor. assumption.
  - inversion Hs as [|? ? Hs' Hhd]; subst. constructor; [auto|].
    destruct l as [|y l]; simpl in *; inversion Hhd; subst;
      constructor; assumption.
Qed.

(** ** The loops of [get_first_letters] *)



Lemma list_remove_here (x : pystr) (l : list pystr) :
  list_remove x (x :: l) = Ok l.
Proof. simpl. rewrite pystr_eqb_refl. reflexivity. Qed.

(** [remove] finds the letter it is asked to drop, and what is in front of
    the copy keeps its elements. *)
Lemma list_remove_middle (front : list pystr) (x : pystr) (back : list pystr) :
  exists front',
    list_remove x (front ++ x :: back) = Ok (front' ++ back)
    /\ (forall z, In z front' <-> In z front).
Proof.
  induction front as [|y front IH].
  - exists []. split; [exact (list_remove_here x back) | tauto].
  - simpl. destruct (pystr_eqb y x) eqn:E.
    + apply pystr_eqb_eq in E; subst y.
      exists (front ++ [x]). rewrite <- app_assoc. split; [reflexivity|].
      intros z. rewrite in_app_iff. simpl. tauto.
    + destruct IH as (front' & -> & Hin). exists (y :: front'). simpl.
      split; [reflexivity|]. intros z. rewrite Hin. tauto.
Qed.

Lemma skipn_nth_cons {A : Type} (l : list A) (n : nat) (d : A) :
  (n < length l)%nat -> skipn n l = nth n l d :: skipn (S n) l.
Proof.
  revert n; induction l as [|x l IH]; intros [|n] Hn; simpl in *;
    try lia; auto.
  apply IH. lia.
Qed.

Lemma run_of_equals (x : pystr) (l back : list pystr) :
  Forall (fun z => z = x) l -> l ++ x :: back = x :: l ++ back.
Proof.
  induction 1 as [|y l Hy _ IH]; simpl; [reflexivity|].
  subst y. rewrite IH. reflexivity.
Qed.

(** What the fallback comparator answers when the four keys are there. *)
Lemma primary_difference_fallback_keys (A B : pystr) (rlocale : GrampsLocale)
    (Ae Bf Be Af : pystr) :
  sort_key rlocale (A ++ py "e") = Ok Ae ->
  sort_key rlocale (B ++ py "f") = Ok Bf ->
  sort_key rlocale (B ++ py "e") = Ok Be ->
  sort_key rlocale (A ++ py "f") = Ok Af ->
  primary_difference_fallback A B rlocale
  = Ok (str_ge Ae Bf || str_ge Be Af).
Proof.
  intros HAe HBf HBe HAf. unfold primary_difference_fallback.
  rewrite HAe, HBf. simpl. destruct (str_ge Ae Bf); [reflexivity|].
  rewrite HBe, HAf. reflexivity.
Qed.

(** The exceptions of the fallback comparator are those of the sort key,
    on one of the four texts. *)
Lemma primary_difference_fallback_raise (A B : pystr)
    (rlocale : GrampsLocale) (e : exn) :
  primary_difference_fallback A B rlocale = Raise e ->
  exists text,
    In text [A ++ py "e"; B ++ py "f"; B ++ py "e"; A ++ py "f"]
    /\ sort_key rlocale text = Raise e.
Proof.
  unfold primary_difference_fallback.
  destruct (sort_key rlocale (A ++ py "e")) as [Ae|e1] eqn:HAe; simpl.
  2: { intros E; inversion E; subst. exists (A ++ py "e").
       split; [cbn [In]; auto | assumption]. }
  destruct (sort_key rlocale (B ++ py "f")) as [Bf|e1] eqn:HBf; simpl.
  2: { intros E; inversion E; subst. exists (B ++ py "f").
       split; [cbn [In]; auto | assumption]. }
  destruct (str_ge Ae Bf); [discriminate|].
  destruct (sort_key rlocale (B ++ py "e")) as [Be|e1] eqn:HBe; simpl.
  2: { intros E; inversion E; subst. exists (B ++ py "e").
       split; [cbn [In]; auto | assumption]. }
  destruct (sort_key rlocale (A ++ py "f")) as [Af|e1] eqn:HAf; simpl.
  2: { intros E; inversion E; subst. exists (A ++ py "f").
       split; [cbn [In]; auto | assumption]. }
  discriminate.
Qed.

(** When the fallback comparator returns for both orders of two keys, its
    two answers are the same. *)
Lemma primary_difference_fallback_agree (A B : pystr)
    (rlocale : GrampsLocale) (ab ba : bool) :
  primary_difference_fallback A B rlocale = Ok ab ->
  primary_difference_fallback B A rlocale = Ok ba ->
  ab = ba.
Proof.
  unfold primary_difference_fallback.
  destruct (sort_key rlocale (A ++ py "e")) as [Ae|e1]; simpl;
    [|discriminate].
  destruct (sort_key rlocale (B ++ py "f")) as [Bf|e1]; simpl;
    [|discriminate].
  destruct (sort_key rlocale (B ++ py "e")) as [Be|e1]; simpl.
  - destruct (sort_key rlocale (A ++ py "f")) as [Af|e1]; simpl.
    + destruct (str_ge Ae Bf), (str_ge Be Af); simpl; congruence.
    + destruct (str_ge Ae Bf); discriminate.
  - destruct (str_ge Ae Bf); discriminate.
Qed.

Section IndexProofs.
Context `{Host}.

(** The letters that [collect_letters] appends are the letters of the
    items, in the order of the handles. *)
Lemma collect_letters_items (dbase : Database) (key : Z)
    (rlocale : GrampsLocale) (handle_list : list pystr) :
  forall index_list letters,
    collect_letters dbase handle_list key rlocale index_list = Ok letters ->
    exists added,
      letters = index_list ++ added
      /\ Forall2 (fun handle ltr =>
                    item_letter dbase key rlocale handle = Ok ltr)
           handle_list added.
Proof.
  induction handle_list as [|handle rest IH]; simpl; intros index_list letters.
  - intros E; inversion E; subst. exists []. rewrite app_nil_r. auto.
  - destruct (item_letter dbase key rlocale handle) as [ltr|e] eqn:E; simpl;
      [|discriminate].
    intros Hrest. destruct (IH _ _ Hrest) as (added & -> & Hall).
    exists (ltr :: added). rewrite <- app_assoc. simpl. auto.
Qed.

Lemma collect_letters_in (dbase : Database) (key : Z)
    (rlocale : GrampsLocale) (handle_list letters : list pystr)
    (handle ltr : pystr) :
  collect_letters dbase handle_list key rlocale [] = Ok letters ->
  In handle handle_list ->
  item_letter dbase key rlocale handle = Ok ltr ->
  In ltr letters.
Proof.
  intros Hc Hin Hl. destruct (collect_letters_items _ _ _ _ _ _ Hc)
    as (added & -> & Hall). simpl.
  clear Hc. induction Hall as [|h l hs ls Hh _ IH]; [contradiction|].
  destruct Hin as [->|Hin]; [left; congruence | right; auto].
Qed.

(** The exceptions of the comparator are those of the sort key, and there
    is none with PyICU. *)
Lemma primary_difference_raise (a b : pystr) (rlocale : GrampsLocale)
    (e : exn) :
  primary_difference a b rlocale = Raise e ->
  PRIM_COLL = None
  /\ exists text,
       In text [a ++ py "e"; b ++ py "f"; b ++ py "e"; a ++ py "f"]
       /\ sort_key rlocale text = Raise e.
Proof.
  unfold primary_difference. destruct PRIM_COLL as [compare|];
    [discriminate|].
  intros Hraise. split; [reflexivity|].
  apply primary_difference_fallback_raise. exact Hraise.
Qed.

Section Dedup.
Variable rlocale : GrampsLocale.

(** A chain of primary differences inside one sort key repeats one
    letter. *)
Lemma differ_chain_same_key (letters : list pystr) (x : pystr) (k : pystr)
    (l : list pystr) :
  collation_consistent rlocale letters -> incl (x :: l) letters ->
  Sorted (differ rlocale) (x :: l) ->
  sort_key rlocale x = Ok k ->
  Forall (fun z => sort_key rlocale z = sort_key rlocale x) l ->
  Forall (fun z => z = x) l.
Proof.
  intros Hc Hincl Hs Hx Hk. induction l as [|y l IH].
  - constructor.
  - inversion Hs as [|? ? Hs' Hhd]; subst. inversion Hhd as [|? ? Hxy]; subst.
    inversion Hk as [|? ? Hy Hk']; subst.
    assert (E : y = x).
    { destruct (pystr_eqb x y) eqn:E; [apply pystr_eqb_eq in E; auto|].
      apply pystr_eqb_neq in E. unfold differ in Hxy.
      rewrite (Hc x y k) in Hxy; auto; try discriminate;
        try (apply Hincl; simpl; auto).
      rewrite Hy. exact Hx. }
    subst y. constructor; [reflexivity|].
    apply IH; auto. intros z Hz. apply Hincl. simpl in *. tauto.
Qed.

(** On a sorted list with consistent collation, [remove] drops the
    occurrence that the loop is looking at. *)
Lemma list_remove_current (letters kept : list pystr) (x : pystr)
    (rest : list pystr) :
  collation_consistent rlocale letters -> incl (kept ++ x :: rest) letters ->
  StronglySorted (key_le (sort_key rlocale)) (kept ++ x :: rest) ->
  Sorted (differ rlocale) kept ->
  list_remove x (kept ++ x :: rest) = Ok (kept ++ rest).
Proof.
  intros Hc. induction kept as [|y kept IH]; intros Hincl Hs Hd.
  - apply list_remove_here.
  - simpl. destruct (pystr_eqb y x) eqn:E.
    + apply pystr_eqb_eq in E; subst y. f_equal.
      apply run_of_equals.
      assert (Hkey : exists k, sort_key rlocale x = Ok k).
      { simpl in Hs. inversion Hs as [|? ? _ Hall]; subst.
        rewrite Forall_forall in Hall.
        destruct (Hall x) as (k & _ & Hk & _); [|eauto].
        rewrite in_app_iff. simpl. auto. }
      destruct Hkey as (k & Hk).
      apply (differ_chain_same_key letters x k); auto.
      * intros z Hz. apply Hincl. simpl in *. rewrite in_app_iff. tauto.
      * apply (StronglySorted_between _ x kept x rest); auto.
    + rewrite IH; [reflexivity| | |].
      * intros z Hz. apply Hincl. simpl; auto.
      * simpl in Hs. inversion Hs; assumption.
      * inversion Hd; assumption.
Qed.

End Dedup.
End IndexProofs.

Section IndexLoops.
Context `{Host}.
Variable rlocale : GrampsLocale.

(** The deduplication loop on a sorted list, under consistent collation:
    the list it returns is sorted, and its neighbours differ. *)
Lemma dedup_loop_sorted (letters : list pystr) :
  collation_consistent rlocale letters ->
  forall copy kept first prev_index l,
    incl (kept ++ copy) letters ->
    StronglySorted (key_le (sort_key rlocale)) (kept ++ copy) ->
    Sorted (differ rlocale) kept ->
    kept_state first prev_index kept ->
    dedup_loop rlocale copy first prev_index (kept ++ copy) = Ok l ->
    StronglySorted (key_le (sort_key rlocale)) l
    /\ Sorted (differ rlocale) l.
Proof.
  intros Hc. induction copy as [|v rest IH];
    intros kept first prev_index l Hincl Hs Hd Hk.
  - rewrite app_nil_r in *. simpl. intros E; inversion E; subst. auto.
  - destruct first; simpl in Hk.
    + subst kept. simpl.
      apply (IH [v] false (Some v)).
      * exact Hincl.
      * exact Hs.
      * repeat constructor.
      * exists [], v. auto.
    + destruct Hk as (kept' & prev & -> & ->). simpl.
      destruct (primary_difference prev v rlocale) as [[|]|e] eqn:E; simpl;
        [| |discriminate].
      * replace ((kept' ++ [prev]) ++ v :: rest)
          with (((kept' ++ [prev]) ++ [v]) ++ rest) in *
          by (rewrite <- !app_assoc; reflexivity).
        apply IH.
        -- exact Hincl.
        -- exact Hs.
        -- apply Sorted_snoc; assumption.
        -- exists (kept' ++ [prev]), v. auto.
      * rewrite (list_remove_current rlocale letters); auto. simpl.
        apply IH.
        -- intros z Hz. apply Hincl. rewrite in_app_iff in *. simpl. tauto.
        -- eapply StronglySorted_drop_middle; eassumption.
        -- exact Hd.
        -- exists kept', prev. auto.
Qed.

(** The deduplication loop on any list. When it returns, it has kept what
    is in front of the copy and added no letter, and every letter of the
    copy is in the result or has no primary difference from a letter of the
    result. When it raises, the exception is that of a comparison of two
    letters of the list: [remove] finds the letter it is asked to drop, and
    [prev_index] is a letter when it is compared. *)
Lemma dedup_loop_covers :
  forall copy front first prev_index,
    (if first : bool then front = []
     else exists prev, prev_index = Some prev /\ In prev front) ->
    match dedup_loop rlocale copy first prev_index (front ++ copy) with
    | Ok l =>
        incl front l
        /\ incl l (front ++ copy)
        /\ forall x, In x copy ->
             In x l
             \/ exists b, In b l /\ primary_difference b x rlocale = Ok false
    | Raise e =>
        exists a b,
          In a (front ++ copy) /\ In b (front ++ copy)
          /\ primary_difference a b rlocale = Raise e
    end.
Proof.
  induction copy as [|v rest IH]; intros front first prev_index Hk.
  - rewrite app_nil_r in *. simpl.
    repeat split; auto using incl_refl. intros x [].
  - destruct first; simpl in Hk.
    + subst front. simpl.
      specialize (IH [v] false (Some v)). simpl in IH.
      destruct (dedup_loop rlocale rest false (Some v) (v :: rest))
        as [l|e].
      * destruct IH as (Hfront & Hback & Hcov); [exists v; simpl; auto|].
        repeat split; auto.
        -- intros z [].
        -- intros x [<-|Hx]; [|apply Hcov; assumption].
           left. apply Hfront; simpl; auto.
      * apply IH. exists v. simpl; auto.
    + destruct Hk as (prev & -> & Hprev). simpl.
      destruct (primary_difference prev v rlocale) as [[|]|e] eqn:E; simpl.
      * specialize (IH (front ++ [v]) false (Some v)).
        rewrite <- app_assoc in IH. simpl in IH.
        destruct (dedup_loop rlocale rest false (Some v) (front ++ v :: rest))
          as [l|e].
        -- destruct IH as (Hfront & Hback & Hcov).
           { exists v. rewrite in_app_iff; simpl; auto. }
           repeat split; auto.
           ++ intros z Hz. apply Hfront. rewrite in_app_iff; auto.
           ++ intros x [<-|Hx]; [|apply Hcov; assumption].
              left. apply Hfront. rewrite in_app_iff; simpl; auto.
        -- apply IH. exists v. rewrite in_app_iff; simpl; auto.
      * destruct (list_remove_middle front v rest) as (front' & -> & Hsame).
        simpl. specialize (IH front' false (Some prev)).
        destruct (dedup_loop rlocale rest false (Some prev) (front' ++ rest))
          as [l|e].
        -- destruct IH as (Hfront & Hback & Hcov).
           { exists prev. rewrite Hsame. auto. }
           repeat split; auto.
           ++ intros z Hz. apply Hfront, Hsame, Hz.
           ++ intros z Hz. apply Hback in Hz. rewrite in_app_iff in *. simpl.
              rewrite Hsame in Hz. tauto.
           ++ intros x [<-|Hx]; [|apply Hcov; assumption].
              right. exists prev.
              split; [apply Hfront, Hsame, Hprev | assumption].
        -- destruct IH as (a & b & Ha & Hb & Hab).
           { exists prev. rewrite Hsame. auto. }
           exists a, b. rewrite in_app_iff in Ha, Hb.
           rewrite Hsame in Ha, Hb.
           split; [|split; [|exact Hab]]; rewrite in_app_iff; simpl; tauto.
      * exists prev, v. rewrite !in_app_iff. simpl. auto.
Qed.


(** The scan of [get_index_letter] answers the first letter of the list that
    has no primary difference from [letter], and it passes on the exception
    of the first comparison that raises. *)
Lemma scan_index_list_first (letter : pystr) (index_list : list pystr) :
  match scan_index_list letter index_list rlocale with
  | Ok (Some index) =>
      exists before after,
        index_list = before ++ index :: after
        /\ Forall (fun b => primary_difference letter b rlocale = Ok true)
             before
        /\ primary_difference letter index rlocale = Ok false
  | Ok None =>
      Forall (fun b => primary_difference letter b rlocale = Ok true)
        index_list
  | Raise e =>
      exists before index after,
        index_list = before ++ index :: after
        /\ Forall (fun b => primary_difference letter b rlocale = Ok true)
             before
        /\ primary_difference letter index rlocale = Raise e
  end.
Proof.
  induction index_list as [|index rest IH]; simpl; [constructor|].
  destruct (primary_difference letter index rlocale) as [[|]|e] eqn:E; simpl.
  - destruct (scan_index_list letter rest rlocale) as [[found|]|e].
    + destruct IH as (before & after & -> & Hb & Hf).
      exists (index :: before), after. simpl. auto.
    + constructor; assumption.
    + destruct IH as (before & index' & after & -> & Hb & Hf).
      exists (index :: before), index', after. simpl. auto.
  - exists [], rest. simpl. auto.
  - exists [], index, rest. simpl. auto.
Qed.

End IndexLoops.

(** ** The index builder and the index lookup *)

Section IndexTheorems.
Context `{Host}.


(** The fallback comparator returns, with the same answer for both orders,
    on letters on which the sort key returns when "e" or "f" follows
    them. *)
Lemma comparator_symmetric_fallback (rlocale : GrampsLocale)
    (letters : list pystr) :
  PRIM_COLL = None ->
  (forall a, In a letters ->
     exists ke kf,
       sort_key rlocale (a ++ py "e") = Ok ke
       /\ sort_key rlocale (a ++ py "f") = Ok kf) ->
  comparator_symmetric rlocale letters.
Proof.
  intros Hicu Hkeys a b Ha Hb.
  destruct (Hkeys a Ha) as (Ae & Af & HAe & HAf).
  destruct (Hkeys b Hb) as (Be & Bf & HBe & HBf).
  unfold primary_difference. rewrite Hicu.
  rewrite (primary_difference_fallback_keys a b rlocale Ae Bf Be Af)
    by assumption.
  rewrite (primary_difference_fallback_keys b a rlocale Be Af Ae Bf)
    by assumption.
  exists (str_ge Ae Bf || str_ge Be Af). split; [reflexivity|].
  rewrite orb_comm. reflexivity.
Qed.


(** C2. When the comparator returns on the collected letters and answers
    the same for both orders of two of them, [get_index_letter] answers,
    for the first letter of every item, a member of the list that
    [get_first_letters] returned for the items; and when that letter has no
    primary difference from itself, the scan finds a letter of the list
    with no primary difference from it, and nothing is logged. *)
Theorem get_index_letter_finds_bucket (dbase : Database)
    (handle_list : list pystr) (key : Z) (rlocale : GrampsLocale)
    (letters index_list : list pystr) :
  collect_letters dbase handle_list key rlocale [] = Ok letters ->
  get_first_letters dbase handle_list key rlocale = Ok index_list ->
  comparator_symmetric rlocale letters ->
  forall handle letter,
    In handle handle_list ->
    item_letter dbase key rlocale handle = Ok letter ->
    (exists index log,
       get_index_letter letter index_list rlocale = Ok (index, log)
       /\ In index index_list)
    /\ (primary_difference letter letter rlocale = Ok false ->
        exists index,
          get_index_letter letter index_list rlocale = Ok (index, [])
          /\ In index index_list
          /\ primary_difference letter index rlocale = Ok false).
Proof.
  intros Hcollect Hlist Hsym handle letter Hin Hletter.
  unfold get_first_letters in Hlist. rewrite Hcollect in Hlist.
  simpl in Hlist. apply bind_ok in Hlist.
  destruct Hlist as (sorted & Hsorted & Hloop).
  pose proof (dedup_loop_covers rlocale sorted [] true None eq_refl) as Hcov.
  simpl in Hcov. rewrite Hloop in Hcov. destruct Hcov as (_ & Hback & Hcov).
  assert (Hmem : In letter letters)
    by (eapply collect_letters_in; eassumption).
  assert (Hletters : forall b, In b index_list -> In b letters).
  { intros b Hb. apply Hback in Hb.
    apply (list_sort_in _ _ _ _ Hsorted) in Hb. exact Hb. }
  unfold get_index_letter.
  pose proof (scan_index_list_first rlocale letter index_list) as Hscan.
  destruct (scan_index_list letter index_list rlocale) as [[index|]|e];
    simpl.
  - destruct Hscan as (before & after & -> & _ & Hnone).
    assert (Hindex : In index (before ++ index :: after))
      by (rewrite in_app_iff; simpl; auto).
    split; [eauto|]. intros _. exists index. auto.
  - rewrite Forall_forall in Hscan.
    destruct (Hcov letter) as [Hkept | (b & Hb & Hdiff)].
    { apply (list_sort_in _ _ _ _ Hsorted). exact Hmem. }
    + split; [eauto|]. intros Hrefl.
      rewrite (Hscan letter Hkept) in Hrefl. discriminate.
    + destruct (Hsym letter b Hmem (Hletters b Hb)) as (d & Hlb & Hbl).
      rewrite (Hscan b Hb) in Hlb. congruence.
  - destruct Hscan as (before & index & after & -> & _ & Hraise).
    destruct (Hsym letter index Hmem) as (d & Hd & _); [|congruence].
    apply Hletters. rewrite in_app_iff. simpl. auto.
Qed.

(** C7 (as amended). [get_index_letter] returns the first letter of the
    list that has no primary difference from [letter], and logs nothing;
    when the list has no such letter it returns [letter] itself, after a
    warning and a debug record. It raises nothing of its own: when the
    comparison with a letter of the list raises, all the letters in front
    of it having a primary difference from [letter], that exception comes
    out, and it is an exception of the sort key of the locale in the
    fallback comparator. *)
Theorem get_index_letter_first_or_same (letter : pystr)
    (index_list : list pystr) (rlocale : GrampsLocale) :
  (exists before index after,
     index_list = before ++ index :: after
     /\ Forall (fun b => primary_difference letter b rlocale = Ok true) before
     /\ primary_difference letter index rlocale = Ok false
     /\ get_index_letter letter index_list rlocale = Ok (index, []))
  \/ (Forall (fun b => primary_difference letter b rlocale = Ok true)
        index_list
      /\ get_index_letter letter index_list rlocale
         = Ok (letter, [LogWarning letter; LogDebug index_list]))
  \/ (exists before index after e text,
        index_list = before ++ index :: after
        /\ Forall (fun b => primary_difference letter b rlocale = Ok true)
             before
        /\ primary_difference letter index rlocale = Raise e
        /\ PRIM_COLL = None
        /\ In text [letter ++ py "e"; index ++ py "f"; index ++ py "e";
                    letter ++ py "f"]
        /\ sort_key rlocale text = Raise e
        /\ get_index_letter letter index_list rlocale = Raise e).
Proof.
  unfold get_index_letter.
  pose proof (scan_index_list_first rlocale letter index_list) as Hscan.
  destruct (scan_index_list letter index_list rlocale) as [[index|]|e];
    simpl.
  - left. destruct Hscan as (before & after & Hsplit & Hbefore & Hindex).
    exists before, index, after. auto.
  - right. left. auto.
  - right. right.
    destruct Hscan as (before & index & after & Hsplit & Hbefore & Hraise).
    destruct (primary_difference_raise _ _ _ _ Hraise)
      as (Hicu & text & Htext & Hkey).
    exists before, index, after, e, text. auto 10.
Qed.

End IndexTheorems.

(** ** The first letter *)

(** Every contraction of the table has a first spelling, so that
    [contraction[0][0]] is defined. *)
Lemma CONTRACTIONS_DICT_spellings :
  forallb (fun entry : pystr * list Contraction =>
             forallb (fun contraction : Contraction =>
                        match fst contraction with
                        | [] => false
                        | _ :: _ => true
                        end) (snd entry))
    CONTRACTIONS_DICT = true.
Proof. reflexivity. Qed.

(** The loop over the contractions stops at the first entry that applies. *)
Lemma scan_contractions_first_match (norm_unicode : pystr)
    (before : list Contraction) (entry : Contraction)
    (after : list Contraction) :
  Forall (fun c => contraction_applies norm_unicode c = false) before ->
  contraction_applies norm_unicode entry = true ->
  scan_contractions norm_unicode (before ++ entry :: after)
  = Some (snd entry).
Proof.
  intros Hbefore Hentry. induction Hbefore as [|c before Hc _ IH]; simpl.
  - rewrite Hentry. reflexivity.
  - rewrite Hc. exact IH.
Qed.

Section FirstLetterTheorems.
Context `{Host}.

(** C3. When the collation language is Hungarian and the text is in NFKC
    form, the first letter of "dzsudó" is "DZS". The entry of "dz", which
    is later in the table, applies to the text as well; and for every text,
    the answer is the index entry of the first contraction of the table that
    applies. *)
Theorem first_letter_dzsudo (rlocale : GrampsLocale) :
  COLLATE_LANG = py "hu" \/ COLLATE_LANG = py "hu_HU" ->
  normalize_NFKC (py "dzsudó") = py "dzsudó" ->
  first_letter (Some (py "dzsudó")) rlocale = Ok (py "DZS")
  /\ contraction_applies (py "dzsudó") ([py "dz"; py "Dz"; py "DZ"], py "DZ")
     = true
  /\ forall string before entry after,
       string <> [] ->
       lookup_contractions COLLATE_LANG = Some (before ++ entry :: after) ->
       Forall (fun c => contraction_applies (normalize_NFKC string) c = false)
         before ->
       contraction_applies (normalize_NFKC string) entry = true ->
       first_letter (Some string) rlocale = Ok (snd entry).
Proof.
  intros Hlang Hnorm. split; [|split].
  - unfold first_letter, first_letter_in. rewrite Hnorm.
    destruct Hlang as [-> | ->]; reflexivity.
  - reflexivity.
  - intros string before entry after Hne Htable Hbefore Hentry.
    unfold first_letter, first_letter_in. rewrite Htable.
    destruct string as [|c string]; [congruence|]. simpl length.
    rewrite (scan_contractions_first_match _ _ _ _ Hbefore Hentry).
    reflexivity.
Qed.

(** C9 (as amended). [first_letter] does not look at the locale that is
    passed in the call: its answer is the same for any two locales, and it
    is the answer for the contraction data of the process-wide locale. *)
Theorem first_letter_ignores_locale (string : option pystr)
    (rlocale rlocale' : GrampsLocale) :
  first_letter string rlocale = first_letter string rlocale'
  /\ first_letter string rlocale = first_letter_per_call string glocale.
Proof. split; reflexivity. Qed.

End FirstLetterTheorems.

(** ** The fallback comparator *)

(** C5. The fallback [primary_difference] answers false exactly when both
    [sort_key(A + "e") < sort_key(B + "f")] and
    [sort_key(B + "e") < sort_key(A + "f")] hold, the four calls of
    [sort_key] returning the keys that are compared. *)
Theorem primary_difference_fallback_false_iff (A B : pystr)
    (rlocale : GrampsLocale) :
  primary_difference_fallback A B rlocale = Ok false
  <-> exists Ae Bf Be Af,
        sort_key rlocale (A ++ py "e") = Ok Ae
        /\ sort_key rlocale (B ++ py "f") = Ok Bf
        /\ sort_key rlocale (B ++ py "e") = Ok Be
        /\ sort_key rlocale (A ++ py "f") = Ok Af
        /\ str_lt Ae Bf = true
        /\ str_lt Be Af = true.
Proof.
  split.
  - unfold primary_difference_fallback.
    destruct (sort_key rlocale (A ++ py "e")) as [Ae|e]; simpl;
      [|discriminate].
    destruct (sort_key rlocale (B ++ py "f")) as [Bf|e]; simpl;
      [|discriminate].
    rewrite str_ge_not_lt.
    destruct (str_lt Ae Bf) eqn:E1; simpl; [|discriminate].
    destruct (sort_key rlocale (B ++ py "e")) as [Be|e]; simpl;
      [|discriminate].
    destruct (sort_key rlocale (A ++ py "f")) as [Af|e]; simpl;
      [|discriminate].
    rewrite str_ge_not_lt. destruct (str_lt Be Af) eqn:E2; simpl;
      [|discriminate].
    intros _. exists Ae, Bf, Be, Af. auto 10.
  - intros (Ae & Bf & Be & Af & HAe & HBf & HBe & HAf & E1 & E2).
    rewrite (primary_difference_fallback_keys A B rlocale Ae Bf Be Af)
      by assumption.
    rewrite !str_ge_not_lt, E1, E2. reflexivity.
Qed.

(** C6. The fallback [primary_difference] answers the same for both orders
    of its two keys: whenever the two calls return, their answers are
    equal; one answers false exactly when the other does; and when
    [sort_key] returns on the four texts, both calls return. *)
Theorem primary_difference_fallback_sym (A B : pystr)
    (rlocale : GrampsLocale) :
  (forall ab ba,
     primary_difference_fallback A B rlocale = Ok ab ->
     primary_difference_fallback B A rlocale = Ok ba ->
     ab = ba)
  /\ (primary_difference_fallback A B rlocale = Ok false
      <-> primary_difference_fallback B A rlocale = Ok false)
  /\ (forall Ae Af Be Bf,
        sort_key rlocale (A ++ py "e") = Ok Ae ->
        sort_key rlocale (A ++ py "f") = Ok Af ->
        sort_key rlocale (B ++ py "e") = Ok Be ->
        sort_key rlocale (B ++ py "f") = Ok Bf ->
        primary_difference_fallback A B rlocale
        = primary_difference_fallback B A rlocale).
Proof.
  split; [|split].
  - apply primary_difference_fallback_agree.
  - assert (Hhalf : forall X Y,
              primary_difference_fallback X Y rlocale = Ok false ->
              primary_difference_fallback Y X rlocale = Ok false).
    { intros X Y. unfold primary_difference_fallback.
      destruct (sort_key rlocale (X ++ py "e")) as [Xe|e]; simpl;
        [|discriminate].
      destruct (sort_key rlocale (Y ++ py "f")) as [Yf|e]; simpl;
        [|discriminate].
      destruct (str_ge Xe Yf) eqn:E1; [discriminate|].
      destruct (sort_key rlocale (Y ++ py "e")) as [Ye|e]; simpl;
        [|discriminate].
      destruct (sort_key rlocale (X ++ py "f")) as [Xf|e]; simpl;
        [|discriminate].
      destruct (str_ge Ye Xf) eqn:E2; [discriminate|].
      simpl. auto. }
    split; apply Hhalf.
  - intros Ae Af Be Bf HAe HAf HBe HBf.
    rewrite (primary_difference_fallback_keys A B rlocale Ae Bf Be Af)
      by assumption.
    rewrite (primary_difference_fallback_keys B A rlocale Be Af Ae Bf)
      by assumption.
    f_equal. apply orb_comm.
Qed.

(** ** The navigation bar *)

(** The fuel that [fill_rows] hands to the [while] loop is enough. *)
Lemma fill_row_done (rlocale : GrampsLocale) (sorted_alpha_index : list pystr)
    (num_ltrs num_of_cols : nat) :
  forall fuel cols index unordered,
    (num_of_cols + 1 <= fuel + cols)%nat ->
    exists outcome,
      fill_row fuel rlocale sorted_alpha_index num_ltrs num_of_cols
        cols index unordered = Done outcome.
Proof.
  induction fuel as [|fuel IH]; intros cols index unordered Hfuel; simpl;
    destruct ((cols <=? num_of_cols)%nat && (index <? num_ltrs)%nat) eqn:E;
    eauto.
  - apply andb_true_iff in E. destruct E as [E _].
    apply Nat.leb_le in E. lia.
  - apply IH. lia.
Qed.

Lemma fill_rows_done (rlocale : GrampsLocale) (sorted_alpha_index : list pystr)
    (num_ltrs num_of_cols : nat) :
  forall rows index alphabetnavigation,
    exists fragment,
      fill_rows rows rlocale sorted_alpha_index num_ltrs num_of_cols
        index alphabetnavigation = Done fragment.
Proof.
  induction rows as [|rows IH]; intros index alphabetnavigation;
    cbn [fill_rows]; eauto.
  destruct (fill_row_done rlocale sorted_alpha_index num_ltrs num_of_cols
              (S num_of_cols) 0 index []) as ([unordered index'] & ->);
    [lia|]. apply IH.
Qed.

(** [alphabet_navigation] returns when the sort of the letters does. *)
Lemma alphabet_navigation_done (index_list : list pystr)
    (rlocale : GrampsLocale) (letters : list pystr) :
  sorted_letters index_list rlocale = Ok letters ->
  exists fragment,
    alphabet_navigation index_list rlocale = Ok (Done fragment).
Proof.
  unfold alphabet_navigation, sorted_letters. intros ->. simpl.
  destruct letters as [|menu_item others]; eauto.
  match goal with
  | |- context [fill_rows ?r ?l ?s ?n ?c ?i ?a] =>
      destruct (fill_rows_done l s n c r i a) as (fragment & ->)
  end.
  eauto.
Qed.

(** One run of the [while] loop takes the links of the next letters, as
    long as [cols] is at most [num_of_cols]: that is [num_of_cols + 1]
    links for a row that starts at column 0. *)
Lemma fill_row_links (rlocale : GrampsLocale) (sorted_alpha_index : list pystr)
    (num_of_cols : nat) :
  forall fuel cols index unordered,
    (num_of_cols + 1 <= fuel + cols)%nat ->
    fill_row fuel rlocale sorted_alpha_index (length sorted_alpha_index)
      num_of_cols cols index unordered
    = Done (unordered
            ++ map (nav_link rlocale)
                 (firstn (num_of_cols + 1 - cols)
                    (skipn index sorted_alpha_index)),
            (index + Nat.min (num_of_cols + 1 - cols)
                       (length sorted_alpha_index - index))%nat).
Proof.
  induction fuel as [|fuel IH]; intros cols index unordered Hfuel;
    cbn [fill_row];
    destruct ((cols <=? num_of_cols)%nat
              && (index <? length sorted_alpha_index)%nat) eqn:E.
  - apply andb_true_iff in E. destruct E as [E _].
    apply Nat.leb_le in E. lia.
  - apply andb_false_iff in E. destruct E as [E|E].
    + apply Nat.leb_gt in E.
      replace (num_of_cols + 1 - cols)%nat with 0%nat by lia.
      simpl. rewrite app_nil_r, Nat.add_0_r. reflexivity.
    + apply Nat.ltb_ge in E. rewrite skipn_all2 by exact E.
      rewrite firstn_nil. simpl. rewrite app_nil_r. f_equal. f_equal. lia.
  - apply andb_true_iff in E. destruct E as [Ecols Eindex].
    apply Nat.leb_le in Ecols. apply Nat.ltb_lt in Eindex.
    rewrite IH by lia.
    remember (num_of_cols + 1 - (cols + 1))%nat as k eqn:Ek.
    replace (num_of_cols + 1 - cols)%nat with (S k) by lia.
    replace (index + 1)%nat with (S index) by lia.
    rewrite (skipn_nth_cons sorted_alpha_index index []) by exact Eindex.
    rewrite firstn_cons, <- app_assoc. cbn [map app]. f_equal. f_equal. lia.
  - apply andb_false_iff in E. destruct E as [E|E].
    + apply Nat.leb_gt in E.
      replace (num_of_cols + 1 - cols)%nat with 0%nat by lia.
      simpl. rewrite app_nil_r, Nat.add_0_r. reflexivity.
    + apply Nat.ltb_ge in E. rewrite skipn_all2 by exact E.
      rewrite firstn_nil. simpl. rewrite app_nil_r. f_equal. f_equal. lia.
Qed.

(** The rows that are already there stay in front. *)
Lemma fill_rows_extends (rlocale : GrampsLocale)
    (sorted_alpha_index : list pystr) (num_ltrs num_of_cols : nat) :
  forall rows index alphabetnavigation fragment,
    fill_rows rows rlocale sorted_alpha_index num_ltrs num_of_cols index
      alphabetnavigation = Done fragment ->
    exists more, fragment = alphabetnavigation ++ more.
Proof.
  induction rows as [|rows IH]; intros index alphabetnavigation fragment;
    cbn [fill_rows].
  - intros E; inversion E; subst. exists []. rewrite app_nil_r. reflexivity.
  - destruct (fill_row _ _ _ _ _ _ _ _) as [[unordered index']|];
      [|discriminate].
    intros E. destruct (IH _ _ _ E) as (more & ->).
    exists (unordered :: more). rewrite <- app_assoc. reflexivity.
Qed.

(** The first row of the navigation bar holds the links of the first
    twenty-seven letters in sorted order, or of all of them when they are
    fewer. *)
Lemma alphabet_navigation_first_row (index_list : list pystr)
    (rlocale : GrampsLocale) (letters : list pystr) :
  sorted_letters index_list rlocale = Ok letters ->
  letters <> [] ->
  exists rest,
    alphabet_navigation index_list rlocale
    = Ok (Done (Some (map (nav_link rlocale) (firstn 27 letters) :: rest))).
Proof.
  intros Hsorted Hne.
  destruct (alphabet_navigation_done index_list rlocale letters Hsorted)
    as (fragment & E).
  rewrite E. revert E. unfold alphabet_navigation.
  fold (sorted_letters index_list rlocale). rewrite Hsorted. cbn [bind].
  destruct letters as [|item others]; [congruence|].
  rewrite Nat.add_1_r. cbn [fill_rows].
  rewrite (fill_row_links rlocale (item :: others) 26 27 0 0 []) by lia.
  cbn [app Nat.sub Nat.add skipn].
  destruct (fill_rows _ _ _ _ _ _ _) as [rows|] eqn:Erows; [|discriminate].
  intros E; inversion E; subst fragment.
  destruct (fill_rows_extends _ _ _ _ _ _ _ _ Erows) as (more & ->).
  exists more. reflexivity.
Qed.

(** C4. For the twenty-seven letters A to Z and Å, [alphabet_navigation]
    makes two rows: the first one holds all twenty-seven links, and the
    second one is empty. *)
Theorem alphabet_navigation_27_in_a_row :
  exists row1 row2,
    alphabet_navigation alphabet27 (code_point_locale 0 "en")
    = Ok (Done (Some [row1; row2]))
    /\ map link_text row1 = alphabet27
    /\ length row1 = 27%nat
    /\ row2 = [].
Proof.
  eexists. eexists. split; [vm_compute; reflexivity|].
  split; [|split]; reflexivity.
Qed.

Section EmptyInput.
Context `{Host}.

(** C8. On an empty handle list [get_first_letters] returns the empty
    list, and on an empty list of letters [alphabet_navigation] returns
    [None]. *)
Theorem empty_input (dbase : Database) (key : Z) (rlocale : GrampsLocale) :
  get_first_letters dbase [] key rlocale = Ok []
  /\ alphabet_navigation [] rlocale = Ok (Done None).
Proof. split; reflexivity. Qed.

End EmptyInput.

(** ** The rule [HasGalleryBase] *)

Lemma subscript_ok {A : Type} (l : list A) (i : nat) (a : A) :
  subscript l i = Ok a -> nth_error l i = Some a.
Proof.
  unfold subscript. destruct (nth_error l i); [|discriminate].
  intros E; inversion E; reflexivity.
Qed.

(** C10. Once [prepare] has succeeded, [apply] leaves the database and the
    object as they were, and answers whether the number of media references
    of the object is less than, greater than or equal to the number read
    from the first parameter, according to whether the second parameter is
    "less than", "greater than" or anything else. *)
Theorem HasGalleryBase_apply_counts (int : pystr -> result Z)
    (self self' : HasGalleryBase) (w : World) :
  prepare int self = Ok self' ->
  exists number how n b,
    nth_error (rule_list self) 0 = Some number
    /\ nth_error (rule_list self) 1 = Some how
    /\ int number = Ok n
    /\ apply self' w = (Ok b, w)
    /\ (how = py "less than" ->
        (b = true <-> (Z.of_nat (length (media_list (world_obj w))) < n)%Z))
    /\ (how <> py "less than" -> how = py "greater than" ->
        (b = true <-> (Z.of_nat (length (media_list (world_obj w))) > n)%Z))
    /\ (how <> py "less than" -> how <> py "greater than" ->
        (b = true <-> Z.of_nat (length (media_list (world_obj w))) = n)).
Proof.
  unfold prepare. intros Hprepare.
  apply bind_ok in Hprepare. destruct Hprepare as (how & Hhow & Hprepare).
  apply bind_ok in Hprepare. destruct Hprepare as (number & Hnumber & Hprepare).
  apply bind_ok in Hprepare. destruct Hprepare as (n & Hn & Hprepare).
  apply subscript_ok in Hhow, Hnumber.
  inversion Hprepare; subst self'; clear Hprepare.
  exists number, how, n.
  unfold apply, then_, get_media_list, ret. cbn [count_type userSelectedCount
    attribute bind].
  destruct (pystr_eqb how (py "less than")) eqn:Eless.
  - apply pystr_eqb_eq in Eless. cbn [Z.eqb bind]. eexists.
    do 3 (split; [assumption|]). split; [reflexivity|]. split; [|split].
    + intros _. apply Z.ltb_lt.
    + intros Hne; contradiction.
    + intros Hne; contradiction.
  - apply pystr_eqb_neq in Eless.
    destruct (pystr_eqb how (py "greater than")) eqn:Egreater.
    + apply pystr_eqb_eq in Egreater. cbn [Z.eqb bind]. eexists.
      do 3 (split; [assumption|]). split; [reflexivity|]. split; [|split].
      * intros He; contradiction.
      * intros _ _. rewrite Z.gtb_ltb, Z.ltb_lt. lia.
      * intros _ Hne; contradiction.
    + apply pystr_eqb_neq in Egreater. cbn [Z.eqb Pos.eqb bind]. eexists.
      do 3 (split; [assumption|]). split; [reflexivity|]. split; [|split].
      * intros He; contradiction.
      * intros _ He; contradiction.
      * intros _ _. apply Z.eqb_eq.
Qed.

(** ** The theorems at concrete inputs *)



(** Two people in a Hungarian locale that orders by code point: the
    letters D and DZS are both kept and both found. *)
Lemma get_index_letter_finds_bucket_witness :
  let rlocale := code_point_locale 0 "hu_HU" in
  let handle_list := [py "I0001"; py "I0002"] in
  let letters := [py "DZS"; py "D"] in
  let index_list := [py "D"; py "DZS"] in
  collect_letters (H := plain_host rlocale) two_people handle_list
    _KEYPERSON rlocale [] = Ok letters
  /\ get_first_letters (H := plain_host rlocale) two_people handle_list
       _KEYPERSON rlocale = Ok index_list
  /\ comparator_symmetric (H := plain_host rlocale) rlocale letters
  /\ forall handle letter,
       In handle handle_list ->
       item_letter (H := plain_host rlocale) two_people _KEYPERSON
         rlocale handle = Ok letter ->
       exists index,
         get_index_letter (H := plain_host rlocale) letter index_list
           rlocale = Ok (index, [])
         /\ In index index_list
         /\ primary_difference (H := plain_host rlocale) letter index
              rlocale = Ok false.
Proof.
  intros rlocale handle_list letters index_list.
  assert (Hsym : comparator_symmetric (H := plain_host rlocale) rlocale
                   letters).
  { intros a b [<-|[<-|[]]] [<-|[<-|[]]]; eexists; split; reflexivity. }
  split; [reflexivity|]. split; [reflexivity|]. split; [exact Hsym|].
  intros handle letter Hin Hletter.
  apply (get_index_letter_finds_bucket (H := plain_host rlocale)
           two_people handle_list _KEYPERSON rlocale letters index_list
           eq_refl eq_refl Hsym handle letter Hin Hletter).
  destruct Hin as [<-|[<-|[]]]; inversion Hletter; reflexivity.
Defined.

(** With the sort key of the C locale and without PyICU, the lookup of the
    letter U+0000 in the list of the letter A raises [ValueError]: the
    fallback comparator calls the sort key on the letter followed by "e",
    and nothing catches what it raises. *)
Lemma get_index_letter_raises :
  get_index_letter (H := plain_host (strxfrm_locale 0 "en")) [0%N] [py "A"]
    (strxfrm_locale 0 "en")
  = Raise ValueError.
Proof. reflexivity. Qed.

(** The Hungarian locale of Hungary, on a host that leaves the text as it
    is. *)
Lemma first_letter_dzsudo_witness :
  let rlocale := code_point_locale 0 "hu_HU" in
  (COLLATE_LANG (H := plain_host rlocale) = py "hu"
   \/ COLLATE_LANG (H := plain_host rlocale) = py "hu_HU")
  /\ normalize_NFKC (Host := plain_host rlocale) (py "dzsudó") = py "dzsudó"
  /\ first_letter (H := plain_host rlocale) (Some (py "dzsudó")) rlocale
     = Ok (py "DZS").
Proof.
  intros rlocale.
  split; [right; reflexivity|]. split; [reflexivity|].
  apply (first_letter_dzsudo (H := plain_host rlocale) rlocale).
  - right; reflexivity.
  - reflexivity.
Defined.

(** With English as the process-wide collation language, a call that
    passes a Hungarian locale answers C for "Csaba", where the contractions
    of the locale of the call give CS. *)
Lemma first_letter_locale_not_consulted :
  first_letter (H := plain_host (code_point_locale 0 "en"))
    (Some (py "Csaba")) (code_point_locale 1 "hu") = Ok (py "C")
  /\ first_letter_per_call (H := plain_host (code_point_locale 0 "en"))
       (Some (py "Csaba")) (code_point_locale 1 "hu") = Ok (py "CS").
Proof. split; reflexivity. Qed.

(** A rule for more than two media references, on an object with three. *)
Lemma HasGalleryBase_apply_counts_witness :
  let self :=
    {| rule_list := [py "2"; py "greater than"];
       count_type := None;
       userSelectedCount := None |} in
  let self' :=
    {| rule_list := [py "2"; py "greater than"];
       count_type := Some 2%Z;
       userSelectedCount := Some 2%Z |} in
  let w :=
    {| world_db := no_people;
       world_obj :=
         {| media_list := [ {| ref_handle := py "M1" |};
                            {| ref_handle := py "M2" |};
                            {| ref_handle := py "M3" |} ] |} |} in
  prepare int_decimal self = Ok self'
  /\ apply self' w = (Ok true, w).
Proof.
  intros self self' w. split; [reflexivity|].
  destruct (HasGalleryBase_apply_counts int_decimal self self' w eq_refl)
    as (number & how & n & b & Hnumber & Hhow & Hn & Happly & _ & Hgreater & _).
  inversion Hnumber; subst number. inversion Hhow; subst how.
  inversion Hn; subst n.
  rewrite Happly. f_equal. f_equal. apply Hgreater.
  - discriminate.
  - reflexivity.
  - reflexivity.
Defined.
(** * Further properties of the index *)

Lemma Forall2_in_r {A B : Type} (P : A -> B -> Prop) (l : list A)
    (l' : list B) (b : B) :
  Forall2 P l l' -> In b l' -> exists a, In a l /\ P a b.
Proof.
  induction 1 as [|a b' l l' Hab _ IH]; [intros []|].
  intros [<-|Hb]; [exists a; simpl; auto|].
  destruct (IH Hb) as (a' & Ha' & HP). exists a'. simpl; auto.
Qed.

Lemma Sorted_app_l {A : Type} (R : A -> A -> Prop) (l1 l2 : list A) :
  Sorted R (l1 ++ l2) -> Sorted R l1.
Proof.
  induction l1 as [|x l1 IH]; simpl; intros Hs; [constructor|].
  inversion Hs as [|? ? Hs' Hhd]; subst. constructor; [auto|].
  destruct l1; simpl in *; inversion Hhd; constructor; assumption.
Qed.

(** [remove] makes the list one item shorter. *)
Lemma list_remove_length (x : pystr) :
  forall l l', list_remove x l = Ok l' -> length l = S (length l').
Proof.
  induction l as [|y l IH]; simpl; intros l'; [discriminate|].
  destruct (pystr_eqb y x).
  - intros E; inversion E; reflexivity.
  - intros E. apply bind_ok in E. destruct E as (rest' & Hrm & E).
    inversion E; subst. simpl. rewrite (IH _ Hrm). reflexivity.
Qed.

Section IndexMore.
Context `{Host}.

Lemma dedup_loop_length (rlocale : GrampsLocale) :
  forall copy first prev_index index_list l,
    dedup_loop rlocale copy first prev_index index_list = Ok l ->
    (length l <= length index_list)%nat.
Proof.
  induction copy as [|v rest IH]; intros first prev_index index_list l; simpl.
  - intros E; inversion E; subst; auto.
  - intros Hloop. apply bind_ok in Hloop. destruct Hloop as ([|] & _ & Hloop).
    + eapply IH; eassumption.
    + apply bind_ok in Hloop. destruct Hloop as (index_list' & Hrm & Hloop).
      apply IH in Hloop. apply list_remove_length in Hrm. lia.
Qed.

Lemma collect_letters_length (dbase : Database) (key : Z)
    (rlocale : GrampsLocale) (handle_list letters : list pystr) :
  collect_letters dbase handle_list key rlocale [] = Ok letters ->
  length letters = length handle_list.
Proof.
  intros Hc. destruct (collect_letters_items _ _ _ _ _ _ Hc)
    as (added & -> & Hall). simpl. symmetry.
  clear Hc. induction Hall; simpl; auto.
Qed.

(** When the first loop raises, it is for the first item whose letter
    cannot be computed. *)
Lemma collect_letters_raise (dbase : Database) (key : Z)
    (rlocale : GrampsLocale) (e : exn) :
  forall handle_list index_list,
    collect_letters dbase handle_list key rlocale index_list = Raise e
    <-> first_failure (item_letter dbase key rlocale) handle_list e.
Proof.
  unfold first_failure.
  induction handle_list as [|handle rest IH]; intros index_list; simpl.
  - split; [discriminate|]. intros (before & x & after & E & _).
    destruct before; discriminate.
  - destruct (item_letter dbase key rlocale handle) as [ltr|e'] eqn:E; simpl.
    + rewrite IH. split.
      * intros (before & x & after & -> & Hok & Hx).
        exists (handle :: before), x, after. repeat split; auto.
        intros y [<-|Hy]; eauto.
      * intros (before & x & after & Hsplit & Hok & Hx).
        destruct before as [|b before]; simpl in Hsplit;
          inversion Hsplit; subst; [congruence|].
        exists before, x, after. repeat split; auto.
        intros y Hy. apply Hok. simpl; auto.
    + split.
      * intros E'; inversion E'; subst e'.
        exists [], handle, rest. repeat split; auto. intros y [].
      * intros (before & x & after & Hsplit & Hok & Hx).
        destruct before as [|b before]; simpl in Hsplit;
          inversion Hsplit; subst; [congruence|].
        destruct (Hok b) as (v & Hv); simpl; auto. congruence.
Qed.

(** X1. Every letter that [get_first_letters] returns is the first letter
    of one of the items, and there are no more letters than items. *)
Theorem get_first_letters_from_items (dbase : Database)
    (handle_list : list pystr) (key : Z) (rlocale : GrampsLocale)
    (index_list : list pystr) :
  get_first_letters dbase handle_list key rlocale = Ok index_list ->
  (forall letter, In letter index_list ->
     exists handle,
       In handle handle_list
       /\ item_letter dbase key rlocale handle = Ok letter)
  /\ (length index_list <= length handle_list)%nat.
Proof.
  unfold get_first_letters. intros Hget.
  apply bind_ok in Hget. destruct Hget as (letters & Hcollect & Hget).
  apply bind_ok in Hget. destruct Hget as (sorted & Hsorted & Hloop).
  pose proof (dedup_loop_covers rlocale sorted [] true None eq_refl) as Hcov.
  simpl in Hcov. rewrite Hloop in Hcov. destruct Hcov as (_ & Hback & _).
  split.
  - intros letter Hin. apply Hback in Hin.
    apply (list_sort_in _ _ _ _ Hsorted) in Hin.
    destruct (collect_letters_items _ _ _ _ _ _ Hcollect)
      as (added & -> & Hall). simpl in Hin.
    apply (Forall2_in_r _ _ _ _ Hall Hin).
  - apply dedup_loop_length in Hloop.
    rewrite <- (collect_letters_length _ _ _ _ _ Hcollect).
    rewrite (Permutation_length (list_sort_perm _ _ _ Hsorted)).
    exact Hloop.
Qed.

(** X2. When the letter of some item cannot be computed,
    [get_first_letters] raises the exception of the first such item. Every
    exception that it raises is that one, or else an exception that the
    sort key of the locale raised on a collected letter or on a collected
    letter followed by "e" or "f": the [remove] of the second loop and the
    comparison with [prev_index] raise nothing of their own. *)
Theorem get_first_letters_raises (dbase : Database)
    (handle_list : list pystr) (key : Z) (rlocale : GrampsLocale) (e : exn) :
  (first_failure (item_letter dbase key rlocale) handle_list e ->
   get_first_letters dbase handle_list key rlocale = Raise e)
  /\ (get_first_letters dbase handle_list key rlocale = Raise e ->
      first_failure (item_letter dbase key rlocale) handle_list e
      \/ exists letters a text,
           collect_letters dbase handle_list key rlocale [] = Ok letters
           /\ In a letters
           /\ In text [a; a ++ py "e"; a ++ py "f"]
           /\ sort_key rlocale text = Raise e).
Proof.
  rewrite <- (collect_letters_raise dbase key rlocale e handle_list []).
  unfold get_first_letters.
  destruct (collect_letters dbase handle_list key rlocale []) as [letters|e'];
    simpl; [|tauto].
  split; [discriminate|]. intros Hraise. right.
  destruct (list_sort (sort_key rlocale) letters) as [sorted|e'] eqn:Hsorted;
    simpl in Hraise.
  - pose proof (dedup_loop_covers rlocale sorted [] true None eq_refl)
      as Hcov.
    simpl in Hcov. rewrite Hraise in Hcov.
    destruct Hcov as (a & b & Ha & Hb & Hab).
    apply (list_sort_in _ _ _ _ Hsorted) in Ha, Hb.
    destruct (primary_difference_raise _ _ _ _ Hab)
      as (_ & text & Htext & Hkey).
    cbn [In] in Htext.
    destruct Htext as [<-|[<-|[<-|[<-|[]]]]].
    + exists letters, a, (a ++ py "e"). cbn [In]. auto 10.
    + exists letters, b, (b ++ py "f"). cbn [In]. auto 10.
    + exists letters, b, (b ++ py "e"). cbn [In]. auto 10.
    + exists letters, a, (a ++ py "f"). cbn [In]. auto 10.
  - inversion Hraise; subst e'. apply list_sort_raise in Hsorted.
    apply first_failure_in in Hsorted. destruct Hsorted as (a & Ha & Hkey).
    exists letters, a, a. cbn [In]. auto 10.
Qed.

(** X3. When the collation is consistent with the comparator (two
    different collected letters with the same sort key have no primary
    difference) and no collected letter differs from itself, the list that
    [get_first_letters] returns holds no letter twice. *)
Theorem get_first_letters_no_repeat (dbase : Database)
    (handle_list : list pystr) (key : Z) (rlocale : GrampsLocale)
    (letters index_list : list pystr) :
  collect_letters dbase handle_list key rlocale [] = Ok letters ->
  get_first_letters dbase handle_list key rlocale = Ok index_list ->
  (forall a b k, In a letters -> In b letters ->
     sort_key rlocale a = Ok k -> sort_key rlocale b = Ok k -> a <> b ->
     primary_difference a b rlocale = Ok false) ->
  (forall a, In a letters -> primary_difference a a rlocale = Ok false) ->
  NoDup index_list.
Proof.
  intros Hcollect Hget Hcons Hrefl. unfold get_first_letters in Hget.
  rewrite Hcollect in Hget. simpl in Hget.
  apply bind_ok in Hget. destruct Hget as (sorted & Hsort & Hloop).
  destruct (dedup_loop_sorted rlocale letters Hcons sorted [] true None
              index_list) as (Hsorted & Hdiffer).
  { intros z Hz. simpl in Hz. apply (list_sort_in _ _ _ _ Hsort) in Hz.
    exact Hz. }
  { apply (list_sort_sorted _ _ _ Hsort). }
  { constructor. }
  { reflexivity. }
  { exact Hloop. }
  assert (Hincl : incl index_list letters).
  { pose proof (dedup_loop_covers rlocale sorted [] true None eq_refl)
      as Hcov.
    simpl in Hcov. rewrite Hloop in Hcov. destruct Hcov as (_ & Hback & _).
    intros z Hz. apply Hback in Hz.
    apply (list_sort_in _ _ _ _ Hsort) in Hz. exact Hz. }
  clear Hloop Hsort Hcollect.
  induction index_list as [|x l IH]; constructor.
  - intros Hin. apply in_split in Hin. destruct Hin as (l1 & l2 & ->).
    assert (Hkey : exists k, sort_key rlocale x = Ok k).
    { inversion Hsorted as [|? ? _ Hall]; subst.
      rewrite Forall_forall in Hall.
      destruct (Hall x) as (k & _ & Hk & _); [|eauto].
      rewrite in_app_iff. simpl. auto. }
    destruct Hkey as (k & Hk).
    assert (Hkeys : Forall (fun z => sort_key rlocale z = sort_key rlocale x)
                      (l1 ++ [x])).
    { apply Forall_app. split; [|repeat constructor].
      apply (StronglySorted_between (sort_key rlocale) x l1 x l2);
        auto. }
    assert (Hchain : Sorted (differ rlocale) (x :: l1 ++ [x])).
    { apply (Sorted_app_l _ (x :: l1 ++ [x]) l2).
      simpl. rewrite <- app_assoc. exact Hdiffer. }
    assert (Hsame : Forall (fun z => z = x) (l1 ++ [x])).
    { apply (differ_chain_same_key rlocale letters x k); auto.
      intros z Hz. apply Hincl. simpl in *. rewrite in_app_iff in *.
      simpl in *. tauto. }
    assert (Hx : In x letters) by (apply Hincl; simpl; auto).
    destruct l1 as [|y l1]; simpl in *.
    + inversion Hchain as [|? ? _ Hhd]; subst.
      inversion Hhd as [|? ? Hxx]; subst. unfold differ in Hxx.
      rewrite (Hrefl x Hx) in Hxx. discriminate.
    + inversion Hsame as [|? ? Hy _]; subst y.
      inversion Hchain as [|? ? _ Hhd]; subst.
      inversion Hhd as [|? ? Hxx]; subst. unfold differ in Hxx.
      rewrite (Hrefl x Hx) in Hxx. discriminate.
  - apply IH.
    + inversion Hsorted; assumption.
    + inversion Hdiffer; assumption.
    + intros z Hz. apply Hincl. simpl; auto.
Qed.

End IndexMore.

(** ** The contraction table *)

(** No language of the table has an underscore in its tag. *)
Lemma CONTRACTIONS_DICT_keys (tag : pystr) (contractions : list Contraction) :
  dict_get CONTRACTIONS_DICT tag = Some contractions ->
  split_first underscore tag = tag.
Proof.
  unfold CONTRACTIONS_DICT. cbn [dict_get].
  repeat match goal with
  | |- context [pystr_eqb ?k tag] =>
      let E := fresh "E" in
      destruct (pystr_eqb k tag) eqn:E;
      [apply pystr_eqb_eq in E; subst tag; intros _; reflexivity|]
  end.
  discriminate.
Qed.

Lemma split_first_idem (sep : N) (s : pystr) :
  split_first sep (split_first sep s) = split_first sep s.
Proof.
  induction s as [|c s IH]; simpl; [reflexivity|].
  destruct (c =? sep)%N eqn:E; simpl; [reflexivity|].
  rewrite E, IH. reflexivity.
Qed.

(** X4. The contractions of a language tag are those of the part of the
    tag before its first underscore: the country of the collation locale
    never changes the contraction data. *)
Theorem lookup_contractions_language (tag : pystr) :
  lookup_contractions tag
  = dict_get CONTRACTIONS_DICT (split_first underscore tag).
Proof.
  unfold lookup_contractions.
  destruct (dict_get CONTRACTIONS_DICT tag) as [contractions|] eqn:E;
    [|reflexivity].
  rewrite (CONTRACTIONS_DICT_keys tag contractions E). symmetry. exact E.
Qed.

(** X5. No contraction of the table is hidden behind an earlier one of its
    language: on a text that is one of the spellings of a contraction, the
    loop over the contractions of the language answers the index entry of
    that contraction. *)
Theorem contraction_spellings_found (lang : pystr)
    (contractions : list Contraction) (contraction : Contraction)
    (spelling : pystr) :
  In (lang, contractions) CONTRACTIONS_DICT ->
  In contraction contractions ->
  In spelling (fst contraction) ->
  scan_contractions spelling contractions = Some (snd contraction).
Proof.
  unfold CONTRACTIONS_DICT. intros Hlang.
  repeat (destruct Hlang as [Hlang|Hlang];
          [inversion Hlang; subst lang contractions; clear Hlang;
           intros Hc;
           repeat (destruct Hc as [<-|Hc]; [
             intros Hs; simpl in Hs;
             repeat (destruct Hs as [<-|Hs]; [reflexivity|]);
             contradiction |]);
           contradiction |]).
  contradiction.
Qed.

Lemma contraction_spellings_found_witness :
  let hu := [([py "cs"; py "Cs"; py "CS"], py "CS");
             ([py "dzs"; py "Dzs"; py "DZS"], py "DZS");
             ([py "dz"; py "Dz"; py "DZ"], py "DZ");
             ([py "gy"; py "Gy"; py "GY"], py "GY");
             ([py "ly"; py "Ly"; py "LY"], py "LY");
             ([py "ny"; py "Ny"; py "NY"], py "NY");
             ([py "sz"; py "Sz"; py "SZ"], py "SZ");
             ([py "ty"; py "Ty"; py "TY"], py "TY");
             ([py "zs"; py "Zs"; py "ZS"], py "ZS")] in
  dict_get CONTRACTIONS_DICT (py "hu") = Some hu
  /\ scan_contractions (py "Dz") hu = Some (py "DZ").
Proof.
  intros hu. split; [reflexivity|].
  apply (contraction_spellings_found (py "hu") hu
           ([py "dz"; py "Dz"; py "DZ"], py "DZ") (py "Dz")).
  - unfold CONTRACTIONS_DICT. simpl. tauto.
  - simpl. tauto.
  - simpl. tauto.
Defined.

(** ** The rows of the navigation bar *)

Lemma count_item_keys (menu_item : pystr) (sorted_set : list (pystr * Z)) :
  map fst (count_item menu_item sorted_set)
  = if existsb (fun k => pystr_eqb k menu_item) (map fst sorted_set)
    then map fst sorted_set
    else map fst sorted_set ++ [menu_item].
Proof.
  induction sorted_set as [|[k n] rest IH]; simpl; [reflexivity|].
  destruct (pystr_eqb k menu_item); simpl; [reflexivity|].
  rewrite IH. destruct (existsb _ _); reflexivity.
Qed.

Lemma existsb_pystr_eqb (x : pystr) (l : list pystr) :
  existsb (fun k => pystr_eqb k x) l = true <-> In x l.
Proof.
  rewrite existsb_exists. split.
  - intros (k & Hk & E). apply pystr_eqb_eq in E. subst; assumption.
  - intros Hx. exists x. split; [assumption | apply pystr_eqb_refl].
Qed.

(** The keys of the counting dictionary are the different letters, in the
    order in which they first come. *)
Lemma count_items_keys (index_list : list pystr) :
  forall sorted_set,
    NoDup (map fst sorted_set) ->
    NoDup (map fst (fold_left (fun d menu_item => count_item menu_item d)
                      index_list sorted_set))
    /\ forall x,
         In x (map fst (fold_left (fun d menu_item => count_item menu_item d)
                          index_list sorted_set))
         <-> In x (map fst sorted_set) \/ In x index_list.
Proof.
  induction index_list as [|m rest IH]; intros sorted_set Hnd; simpl.
  - split; [assumption | tauto].
  - assert (Hstep : NoDup (map fst (count_item m sorted_set))
                    /\ forall x, In x (map fst (count_item m sorted_set))
                                 <-> In x (map fst sorted_set) \/ m = x).
    { rewrite count_item_keys.
      destruct (existsb _ _) eqn:E.
      - apply existsb_pystr_eqb in E. split; [assumption|].
        intros x. split; [tauto | intros [Hx | <-]; assumption].
      - split.
        + apply NoDup_app; [assumption | repeat constructor; intros [] |].
          intros x Hx [<-|[]].
          apply existsb_pystr_eqb in Hx. congruence.
        + intros x. rewrite in_app_iff. simpl. tauto. }
    destruct Hstep as (Hnd' & Hin').
    destruct (IH _ Hnd') as (Hnd'' & Hin''). split; [assumption|].
    intros x. rewrite Hin'', Hin'. tauto.
Qed.

(** The letters of the navigation bar: every letter of [index_list] once,
    in ascending order of the sort key. *)
Lemma sorted_letters_spec (index_list : list pystr) (rlocale : GrampsLocale)
    (letters : list pystr) :
  sorted_letters index_list rlocale = Ok letters ->
  NoDup letters
  /\ (forall x, In x letters <-> In x index_list)
  /\ StronglySorted (key_le (sort_key rlocale)) letters.
Proof.
  unfold sorted_letters. intros Hsorted.
  destruct (count_items_keys index_list [] (NoDup_nil _)) as (Hnd & Hin).
  split; [|split].
  - eapply Permutation_NoDup; [exact (list_sort_perm _ _ _ Hsorted) | exact Hnd].
  - intros x. rewrite (list_sort_in _ _ _ x Hsorted), Hin. simpl. tauto.
  - exact (list_sort_sorted _ _ _ Hsorted).
Qed.

(** The sort of the letters returns when the sort key returns on every
    letter of the list, and otherwise it raises what the sort key raised on
    a letter of the list. *)
Lemma sorted_letters_returns (index_list : list pystr)
    (rlocale : GrampsLocale) :
  (forall letter, In letter index_list ->
     exists k, sort_key rlocale letter = Ok k) ->
  exists letters, sorted_letters index_list rlocale = Ok letters.
Proof.
  intros Hkeys. apply list_sort_returns. intros x Hx. apply Hkeys.
  destruct (count_items_keys index_list [] (NoDup_nil _)) as (_ & Hin).
  apply Hin in Hx. simpl in Hx. tauto.
Qed.

Lemma sorted_letters_raise (index_list : list pystr) (rlocale : GrampsLocale)
    (e : exn) :
  sorted_letters index_list rlocale = Raise e ->
  exists letter, In letter index_list /\ sort_key rlocale letter = Raise e.
Proof.
  unfold sorted_letters. intros Hraise. apply list_sort_raise in Hraise.
  apply first_failure_in in Hraise. destruct Hraise as (x & Hx & Hkey).
  destruct (count_items_keys index_list [] (NoDup_nil _)) as (_ & Hin).
  apply Hin in Hx. simpl in Hx. exists x. tauto.
Qed.

Lemma sorted_letters_raises (index_list : list pystr)
    (rlocale : GrampsLocale) :
  (exists letter e, In letter index_list /\ sort_key rlocale letter = Raise e) ->
  exists e, sorted_letters index_list rlocale = Raise e.
Proof.
  intros (letter & e & Hin & Hkey).
  destruct (count_items_keys index_list [] (NoDup_nil _)) as (_ & Hkeys).
  destruct (first_failure_exists (sort_key rlocale)
              (map fst (fold_left (fun d menu_item => count_item menu_item d)
                          index_list []))) as (e' & He').
  { exists letter, e. split; [|exact Hkey]. apply Hkeys. auto. }
  exists e'. apply list_sort_raise. exact He'.
Qed.

Lemma skipn_past_row {A : Type} (l : list A) (index width : nat) :
  skipn (index + Nat.min width (length l - index)) l
  = skipn width (skipn index l).
Proof.
  rewrite skipn_skipn.
  destruct (Nat.le_gt_cases (width + index) (length l)) as [Hle|Hgt].
  - f_equal. lia.
  - rewrite !skipn_all2 by lia. reflexivity.
Qed.

(** The [for] loop appends the rows of the letters that are left. *)
Lemma fill_rows_chunks (rlocale : GrampsLocale)
    (sorted_alpha_index : list pystr) (num_of_cols : nat) :
  forall rows index alphabetnavigation,
    fill_rows rows rlocale sorted_alpha_index (length sorted_alpha_index)
      num_of_cols index alphabetnavigation
    = Done (alphabetnavigation
            ++ row_chunks rlocale (num_of_cols + 1) rows
                 (skipn index sorted_alpha_index)).
Proof.
  induction rows as [|rows IH]; intros index alphabetnavigation;
    cbn [fill_rows row_chunks].
  - rewrite app_nil_r. reflexivity.
  - rewrite (fill_row_links rlocale sorted_alpha_index num_of_cols
               (S num_of_cols) 0 index []) by lia.
    rewrite IH, Nat.sub_0_r, skipn_past_row, <- app_assoc. reflexivity.
Qed.

Lemma row_chunks_length (rlocale : GrampsLocale) (width rows : nat) :
  forall letters, length (row_chunks rlocale width rows letters) = rows.
Proof. induction rows; intros letters; simpl; auto. Qed.

Lemma row_chunks_nth (rlocale : GrampsLocale) (width : nat) :
  forall rows letters i,
    (i < rows)%nat ->
    nth_error (row_chunks rlocale width rows letters) i
    = Some (map (nav_link rlocale) (firstn width (skipn (width * i) letters))).
Proof.
  induction rows as [|rows IH]; intros letters i Hi; [lia|].
  destruct i as [|i]; simpl.
  - rewrite Nat.mul_0_r. reflexivity.
  - rewrite IH by lia. rewrite skipn_skipn.
    replace (width * i + width)%nat with (width * S i)%nat by lia.
    reflexivity.
Qed.

Lemma firstn_then_firstn {A : Type} (a b : nat) (l : list A) :
  firstn a l ++ firstn b (skipn a l) = firstn (a + b) l.
Proof.
  revert l; induction a as [|a IH]; intros l; simpl; [reflexivity|].
  destruct l as [|x l]; simpl.
  - rewrite firstn_nil. reflexivity.
  - rewrite IH. reflexivity.
Qed.

Lemma row_chunks_concat (rlocale : GrampsLocale) (width : nat) :
  forall rows letters,
    concat (row_chunks rlocale width rows letters)
    = map (nav_link rlocale) (firstn (width * rows) letters).
Proof.
  induction rows as [|rows IH]; intros letters; simpl.
  - rewrite Nat.mul_0_r. reflexivity.
  - rewrite IH, <- map_app, firstn_then_firstn. do 2 f_equal. lia.
Qed.

(** The rows have room for all the letters. *)
Lemma rows_hold_all (n : nat) : (n <= 27 * (n / 26 + 1))%nat.
Proof.
  pose proof (Nat.div_mod_eq n 26) as Hdiv.
  pose proof (Nat.mod_upper_bound n 26) as Hmod.
  lia.
Qed.

(** [alphabet_navigation] on a list with a letter: the rows it returns. *)
Lemma alphabet_navigation_rows (index_list : list pystr)
    (rlocale : GrampsLocale) (letters : list pystr) :
  sorted_letters index_list rlocale = Ok letters ->
  letters <> [] ->
  alphabet_navigation index_list rlocale
  = Ok (Done (Some (row_chunks rlocale 27 (length letters / 26 + 1)
                      letters))).
Proof.
  intros Hsorted Hne. unfold alphabet_navigation.
  fold (sorted_letters index_list rlocale). rewrite Hsorted. cbn [bind].
  destruct letters as [|item others]; [congruence|].
  rewrite fill_rows_chunks. reflexivity.
Qed.

Lemma sorted_letters_nil (index_list : list pystr) (rlocale : GrampsLocale) :
  sorted_letters index_list rlocale = Ok [] <-> index_list = [].
Proof.
  split.
  - intros E. destruct (sorted_letters_spec _ _ _ E) as (_ & Hin & _).
    destruct index_list as [|x l]; auto.
    destruct (proj2 (Hin x)); simpl; auto.
  - intros ->. reflexivity.
Qed.

(** When [alphabet_navigation] returns, the sort of the letters has
    returned, with no letter for [None] and with a letter for a
    fragment. *)
Lemma alphabet_navigation_sorted (index_list : list pystr)
    (rlocale : GrampsLocale) (fragment : option NavFragment) :
  alphabet_navigation index_list rlocale = Ok (Done fragment) ->
  exists letters,
    sorted_letters index_list rlocale = Ok letters
    /\ (fragment = None <-> letters = []).
Proof.
  intros E.
  destruct (sorted_letters index_list rlocale) as [letters|e] eqn:Hsorted.
  - exists letters. split; [reflexivity|].
    destruct letters as [|item others].
    + unfold alphabet_navigation in E.
      fold (sorted_letters index_list rlocale) in E. rewrite Hsorted in E.
      inversion E. tauto.
    + rewrite (alphabet_navigation_rows _ _ _ Hsorted) in E by discriminate.
      inversion E. split; discriminate.
  - unfold alphabet_navigation in E.
    fold (sorted_letters index_list rlocale) in E. rewrite Hsorted in E.
    discriminate.
Qed.

(** X6. [alphabet_navigation] returns [None] for the empty list only. For
    a list with a letter it returns a fragment when the sort key of the
    locale returns on every letter of the list; and it raises exactly when
    the sort key raises on a letter of the list, with an exception that the
    sort key raised on such a letter. *)
Theorem alphabet_navigation_none_iff (index_list : list pystr)
    (rlocale : GrampsLocale) :
  (alphabet_navigation index_list rlocale = Ok (Done None)
   <-> index_list = [])
  /\ (index_list <> [] ->
      (forall letter, In letter index_list ->
         exists k, sort_key rlocale letter = Ok k) ->
      exists rows,
        alphabet_navigation index_list rlocale = Ok (Done (Some rows)))
  /\ (forall e,
        alphabet_navigation index_list rlocale = Raise e ->
        exists letter,
          In letter index_list /\ sort_key rlocale letter = Raise e)
  /\ ((exists letter e,
         In letter index_list /\ sort_key rlocale letter = Raise e) ->
      exists e, alphabet_navigation index_list rlocale = Raise e).
Proof.
  split; [|split; [|split]].
  - split.
    + intros E. destruct (alphabet_navigation_sorted _ _ _ E)
        as (letters & Hsorted & Hnone).
      apply (sorted_letters_nil index_list rlocale).
      rewrite Hsorted. f_equal. apply Hnone. reflexivity.
    + intros ->. reflexivity.
  - intros Hne Hkeys.
    destruct (sorted_letters_returns index_list rlocale Hkeys)
      as (letters & Hsorted).
    eexists. apply (alphabet_navigation_rows _ _ _ Hsorted).
    intros ->. apply sorted_letters_nil in Hsorted. contradiction.
  - intros e E. apply sorted_letters_raise.
    unfold alphabet_navigation in E.
    fold (sorted_letters index_list rlocale) in E.
    destruct (sorted_letters index_list rlocale); [discriminate|].
    simpl in E. congruence.
  - intros Hraises.
    destruct (sorted_letters_raises index_list rlocale Hraises) as (e & He).
    exists e. unfold alphabet_navigation.
    fold (sorted_letters index_list rlocale). rewrite He. reflexivity.
Qed.

(** X7. The rows of the navigation bar hold, together and in this order,
    one link for every different letter of [index_list], in ascending order
    of the locale's sort key: no letter is left out and none is linked
    twice. *)
Theorem alphabet_navigation_links (index_list : list pystr)
    (rlocale : GrampsLocale) (rows : NavFragment) :
  alphabet_navigation index_list rlocale = Ok (Done (Some rows)) ->
  exists letters,
    concat rows = map (nav_link rlocale) letters
    /\ NoDup letters
    /\ (forall x, In x letters <-> In x index_list)
    /\ StronglySorted (key_le (sort_key rlocale)) letters.
Proof.
  intros E. destruct (alphabet_navigation_sorted _ _ _ E)
    as (letters & Hsorted & Hnone).
  exists letters. split; [|apply (sorted_letters_spec _ _ _ Hsorted)].
  assert (Hne : letters <> []).
  { intros E0. apply Hnone in E0. discriminate. }
  rewrite (alphabet_navigation_rows index_list rlocale letters Hsorted Hne)
    in E.
  injection E as <-. rewrite row_chunks_concat.
  rewrite firstn_all2; [reflexivity|].
  exact (rows_hold_all (length letters)).
Qed.

(** X8. With n different letters the navigation bar has n // 26 + 1 rows,
    and row number i holds the links of the twenty-seven letters that come
    after the first 27 * i letters in sorted order, or of those that are
    left of them. *)
Theorem alphabet_navigation_layout (index_list : list pystr)
    (rlocale : GrampsLocale) (rows : NavFragment) :
  alphabet_navigation index_list rlocale = Ok (Done (Some rows)) ->
  exists letters,
    sorted_letters index_list rlocale = Ok letters
    /\ length rows = (length letters / 26 + 1)%nat
    /\ forall i, (i < length rows)%nat ->
         nth_error rows i
         = Some (map (nav_link rlocale)
                   (firstn 27 (skipn (27 * i) letters))).
Proof.
  intros E. destruct (alphabet_navigation_sorted _ _ _ E)
    as (letters & Hsorted & Hnone).
  exists letters. split; [exact Hsorted|].
  assert (Hne : letters <> []).
  { intros E0. apply Hnone in E0. discriminate. }
  rewrite (alphabet_navigation_rows index_list rlocale letters Hsorted Hne)
    in E.
  injection E as <-. rewrite row_chunks_length. split; [reflexivity|].
  intros i Hi. apply row_chunks_nth. exact Hi.
Qed.

(** ** The three comparisons of [HasGalleryBase] *)

(** X9. For one number and one object, exactly one of the three rules
    applies: the rule for "less than" that number, the rule for "greater
    than" it, and the rule with any other second parameter, which stands for
    "equal to". *)
Theorem HasGalleryBase_exactly_one (int : pystr -> result Z)
    (number other : pystr) (n : Z) (w : World) :
  int number = Ok n ->
  other <> py "less than" ->
  other <> py "greater than" ->
  exists less greater equal b1 b2 b3,
    prepare int (new_rule [number; py "less than"]) = Ok less
    /\ prepare int (new_rule [number; py "greater than"]) = Ok greater
    /\ prepare int (new_rule [number; other]) = Ok equal
    /\ apply less w = (Ok b1, w)
    /\ apply greater w = (Ok b2, w)
    /\ apply equal w = (Ok b3, w)
    /\ ((b1 = true /\ b2 = false /\ b3 = false)
        \/ (b1 = false /\ b2 = true /\ b3 = false)
        \/ (b1 = false /\ b2 = false /\ b3 = true)).
Proof.
  intros Hint Hless Hgreater.
  apply pystr_eqb_neq in Hless, Hgreater.
  unfold prepare, new_rule, subscript. cbn [rule_list nth_error bind].
  rewrite Hint. cbn [bind]. rewrite Hless, Hgreater.
  do 6 eexists. do 3 (split; [reflexivity|]).
  unfold apply, then_, get_media_list, ret.
  cbn [count_type userSelectedCount attribute bind].
  do 3 (split; [reflexivity|]).
  set (count := Z.of_nat (length (media_list (world_obj w)))).
  change ((0 =? 0)%Z) with true. change ((2 =? 0)%Z) with false.
  change ((2 =? 2)%Z) with true. change ((1 =? 0)%Z) with false.
  change ((1 =? 2)%Z) with false. cbv iota.
  rewrite Z.gtb_ltb.
  destruct (Z.ltb_spec count n); destruct (Z.ltb_spec n count);
    destruct (Z.eqb_spec count n); try lia; auto.
Qed.

Lemma HasGalleryBase_exactly_one_witness :
  let w :=
    {| world_db := no_people;
       world_obj := {| media_list := [ {| ref_handle := py "M1" |} ] |} |} in
  int_decimal (py "1") = Ok 1%Z
  /\ exists less greater equal,
       prepare int_decimal (new_rule [py "1"; py "less than"]) = Ok less
       /\ prepare int_decimal (new_rule [py "1"; py "greater than"])
          = Ok greater
       /\ prepare int_decimal (new_rule [py "1"; py "equal to"]) = Ok equal
       /\ apply less w = (Ok false, w)
       /\ apply greater w = (Ok false, w)
       /\ apply equal w = (Ok true, w).
Proof.
  intros w. split; [reflexivity|].
  destruct (HasGalleryBase_exactly_one int_decimal (py "1") (py "equal to")
              1%Z w eq_refl)
    as (less & greater & equal & b1 & b2 & b3
        & Hless & Hgreater & Hequal & _).
  - discriminate.
  - discriminate.
  - exists less, greater, equal.
    do 3 (split; [assumption|]).
    inversion Hless; inversion Hgreater; inversion Hequal.
    repeat split; reflexivity.
Defined.

(** * Properties of the other functions *)

(** ** Page names *)

Lemma str_endswith_spec (s suffix : pystr) :
  str_endswith s suffix = true <-> exists base, s = base ++ suffix.
Proof.
  unfold str_endswith. rewrite andb_true_iff, Nat.leb_le, pystr_eqb_eq.
  split.
  - intros [Hlen E]. exists (firstn (length s - length suffix) s).
    pose proof (firstn_skipn (length s - length suffix) s) as Hsplit.
    rewrite E in Hsplit. symmetry. exact Hsplit.
  - intros (base & ->). rewrite length_app. split; [lia|].
    replace (length base + length suffix - length suffix)%nat
      with (length base) by lia.
    rewrite skipn_app, skipn_all, Nat.sub_diag. reflexivity.
Qed.

(** X10. [_has_webpage_extension] answers true exactly for the names that
    end with one of the six extensions of [_WEB_EXT], written in lower case;
    such a name has four characters at least. *)
Theorem has_webpage_extension_iff (url : pystr) :
  (_has_webpage_extension url = true
   <-> exists base ext, In ext _WEB_EXT /\ url = base ++ ext)
  /\ (_has_webpage_extension url = true -> (4 <= length url)%nat).
Proof.
  assert (Hiff : _has_webpage_extension url = true
                 <-> exists base ext, In ext _WEB_EXT /\ url = base ++ ext).
  { unfold _has_webpage_extension. rewrite existsb_exists. split.
    - intros (ext & Hext & Hends). apply str_endswith_spec in Hends.
      destruct Hends as (base & ->). exists base, ext. auto.
    - intros (base & ext & Hext & ->). exists ext. split; [assumption|].
      apply str_endswith_spec. exists base. reflexivity. }
  split; [exact Hiff|].
  intros Htrue. apply Hiff in Htrue. destruct Htrue as (base & ext & Hext & ->).
  rewrite length_app. unfold _WEB_EXT in Hext. simpl in Hext.
  repeat (destruct Hext as [<-|Hext]; [simpl; lia|]). contradiction.
Qed.

(** ** Sorting people by surname *)

(** *** The dictionaries *)

Lemma dict_get_set {V : Type} (k k' : pystr) (v : V) (d : list (pystr * V)) :
  dict_get (dict_set k v d) k'
  = if pystr_eqb k k' then Some v else dict_get d k'.
Proof.
  induction d as [|[k0 v0] d IH]; simpl.
  - reflexivity.
  - destruct (pystr_eqb k0 k) eqn:E; simpl.
    + apply pystr_eqb_eq in E; subst k0.
      destruct (pystr_eqb k k'); reflexivity.
    + rewrite IH. destruct (pystr_eqb k0 k') eqn:E'; [|reflexivity].
      apply pystr_eqb_eq in E'; subst k0.
      destruct (pystr_eqb k k') eqn:E2; [|reflexivity].
      apply pystr_eqb_eq in E2; subst k'. rewrite pystr_eqb_refl in E.
      discriminate.
Qed.

Lemma dict_get_in {V : Type} (d : list (pystr * V)) (k : pystr) (v : V) :
  NoDup (map fst d) -> In (k, v) d -> dict_get d k = Some v.
Proof.
  induction d as [|[k0 v0] d IH]; simpl; intros Hnd Hin; [contradiction|].
  inversion Hnd as [|? ? Hk0 Hnd']; subst.
  destruct Hin as [E|Hin].
  - inversion E; subst. rewrite pystr_eqb_refl. reflexivity.
  - destruct (pystr_eqb k0 k) eqn:E; [|auto].
    apply pystr_eqb_eq in E; subst k0. exfalso. apply Hk0.
    apply (in_map fst) in Hin. exact Hin.
Qed.

Lemma dict_append_keys (k v : pystr) (d : list (pystr * list pystr)) :
  map fst (dict_append k v d)
  = if existsb (fun k' => pystr_eqb k' k) (map fst d)
    then map fst d
    else map fst d ++ [k].
Proof.
  induction d as [|[k0 vs] d IH]; simpl; [reflexivity|].
  destruct (pystr_eqb k0 k); simpl; [reflexivity|].
  rewrite IH. destruct (existsb _ _); reflexivity.
Qed.

Lemma dict_append_values (k v : pystr) (d : list (pystr * list pystr)) :
  Permutation (concat (map snd (dict_append k v d)))
    (concat (map snd d) ++ [v]).
Proof.
  induction d as [|[k0 vs] d IH]; simpl; [reflexivity|].
  destruct (pystr_eqb k0 k); simpl.
  - rewrite <- !app_assoc. apply Permutation_app_head.
    apply Permutation_app_comm.
  - rewrite IH, app_assoc. reflexivity.
Qed.

Lemma dict_append_entries (k v : pystr) (d : list (pystr * list pystr))
    (k' : pystr) (vs' : list pystr) :
  In (k', vs') (dict_append k v d) ->
  In (k', vs') d
  \/ (k' = k /\ exists vs, vs' = vs ++ [v] /\ (vs = [] \/ In (k, vs) d)).
Proof.
  induction d as [|[k0 vs] d IH]; simpl.
  - intros [E|[]]. inversion E; subst. right. split; [reflexivity|].
    exists []. auto.
  - destruct (pystr_eqb k0 k) eqn:E; simpl.
    + apply pystr_eqb_eq in E; subst k0. intros [E|Hin]; [|auto].
      inversion E; subst. right. split; [reflexivity|]. exists vs. auto.
    + intros [E'|Hin]; [auto|].
      destruct (IH Hin) as [Hold | (-> & vs0 & -> & Hvs0)]; [auto|].
      right. split; [reflexivity|]. exists vs0. tauto.
Qed.

Lemma for_each_map {A B : Type} (f : A -> outcome B) (g : A -> B)
    (l : list A) :
  (forall x, In x l -> f x = Return (g x)) ->
  for_each f l = Return (map g l).
Proof.
  induction l as [|x l IH]; simpl; intros Hf; [reflexivity|].
  rewrite (Hf x) by auto. simpl. rewrite IH by auto. reflexivity.
Qed.

Lemma concat_dict_lists (d : list (pystr * list pystr)) :
  NoDup (map fst d) ->
  flat_map (dict_list d) (map fst d) = concat (map snd d).
Proof.
  intros Hnd.
  assert (Hgen : forall l, incl l d ->
            flat_map (dict_list d) (map fst l) = concat (map snd l)).
  { induction l as [|[k vs] l IH]; simpl; intros Hincl; [reflexivity|].
    rewrite IH by (intros z Hz; apply Hincl; simpl; auto).
    unfold dict_list at 1.
    rewrite (dict_get_in d k vs Hnd) by (apply Hincl; simpl; auto).
    reflexivity. }
  apply Hgen, incl_refl.
Qed.

Lemma dict_get_some_in {V : Type} (d : list (pystr * V)) (k : pystr) (v : V) :
  dict_get d k = Some v -> In (k, v) d.
Proof.
  induction d as [|[k0 v0] d IH]; simpl; [discriminate|].
  destruct (pystr_eqb k0 k) eqn:E.
  - apply pystr_eqb_eq in E; subst k0. intros E; inversion E; auto.
  - auto.
Qed.

Lemma in_keys_entry {V : Type} (d : list (pystr * V)) (k : pystr) :
  In k (map fst d) -> exists v, In (k, v) d.
Proof.
  rewrite in_map_iff. intros ([k' v] & E & Hin). simpl in E. subst k'.
  exists v. exact Hin.
Qed.

Lemma Permutation_flat_map_pointwise {A B : Type} (f g : A -> list B)
    (l : list A) :
  (forall x, In x l -> Permutation (f x) (g x)) ->
  Permutation (flat_map f l) (flat_map g l).
Proof.
  induction l as [|x l IH]; simpl; intros Hfg; [constructor|].
  apply Permutation_app; [apply Hfg; auto | apply IH; auto].
Qed.

(** *** Calls that return or throw *)

Lemma thrown_return {A : Type} (m : result A) (a : A) :
  thrown m = Return a <-> m = Ok a.
Proof. destruct m; simpl; split; congruence. Qed.

Lemma thrown_throw {A : Type} (m : result A) (e : error) :
  thrown m = Throw e <-> exists e', e = Builtin e' /\ m = Raise e'.
Proof.
  destruct m as [a|e0]; simpl; split.
  - discriminate.
  - intros (e' & _ & E). discriminate.
  - intros E; inversion E. eauto.
  - intros (e' & -> & E). congruence.
Qed.

Lemma and_then_return {A B : Type} (m : outcome A) (k : A -> outcome B)
    (b : B) :
  and_then m k = Return b -> exists a, m = Return a /\ k a = Return b.
Proof. destruct m as [a|e]; simpl; [eauto | discriminate]. Qed.

Lemma for_each_return {A B : Type} (f : A -> outcome B) :
  forall l ys,
    for_each f l = Return ys -> Forall2 (fun x y => f x = Return y) l ys.
Proof.
  induction l as [|x l IH]; simpl; intros ys.
  - intros E; inversion E. constructor.
  - destruct (f x) as [y|e] eqn:Ex; simpl; [|discriminate].
    destruct (for_each f l) as [ys'|e]; simpl; [|discriminate].
    intros E; inversion E; subst. constructor; auto.
Qed.

Lemma for_each_returns {A B : Type} (f : A -> outcome B) :
  forall l,
    (forall x, In x l -> exists y, f x = Return y) ->
    exists ys, for_each f l = Return ys.
Proof.
  induction l as [|x l IH]; simpl; intros Hf; [eauto|].
  destruct (Hf x) as (y & ->); [auto|]. simpl.
  destruct IH as (ys & ->); [auto|]. simpl. eauto.
Qed.

Lemma for_each_throw {A B : Type} (f : A -> outcome B) (e : error) :
  forall l,
    for_each f l = Throw e -> exists x, In x l /\ f x = Throw e.
Proof.
  induction l as [|x l IH]; simpl; [discriminate|].
  destruct (f x) as [y|e0] eqn:Ex; simpl.
  - destruct (for_each f l) as [ys|e1]; simpl; [discriminate|].
    intros E; inversion E; subst.
    destruct (IH eq_refl) as (x' & Hx' & Hf). eauto.
  - intros E; inversion E; subst. eauto.
Qed.

Lemma Forall2_in_l {A B : Type} (P : A -> B -> Prop) (l : list A)
    (l' : list B) (a : A) :
  Forall2 P l l' -> In a l -> exists b, In b l' /\ P a b.
Proof.
  induction 1 as [|a' b l l' Hab _ IH]; [intros []|].
  intros [<-|Ha]; [exists b; simpl; auto|].
  destruct (IH Ha) as (b' & Hb' & HP). exists b'. simpl; auto.
Qed.

(** *** The two loops of [sort_people] *)

Section SortPeopleProofs.
Context `{Host}.
Variable group_as : Name -> pystr.
Variable nd_primary_surname : Name -> pystr.
Variable get_name_group_mapping : Database -> pystr -> option pystr.
Variable str_isspace : pystr -> bool.

Local Abbreviation file_people' :=
  (file_people group_as nd_primary_surname get_name_group_mapping str_isspace).
Local Abbreviation surname_of' :=
  (surname_of group_as nd_primary_surname get_name_group_mapping str_isspace).
Local Abbreviation filed_state' :=
  (filed_state group_as nd_primary_surname get_name_group_mapping
     str_isspace).
Local Abbreviation sort_people' :=
  (sort_people group_as nd_primary_surname get_name_group_mapping
     str_isspace).

Lemma file_people_state (dbase : Database) :
  forall handle_list sname_sub sortnames done sname_sub' sortnames',
    filed_state' dbase sname_sub sortnames done ->
    file_people' dbase handle_list sname_sub sortnames
    = Return (sname_sub', sortnames') ->
    filed_state' dbase sname_sub' sortnames' (done ++ handle_list).
Proof.
  induction handle_list as [|h rest IH];
    intros sname_sub sortnames done sname_sub' sortnames' Hstate; simpl.
  - intros E; inversion E; subst. rewrite app_nil_r. exact Hstate.
  - destruct (get_person_from_handle dbase h) as [person|] eqn:Eperson;
      [|discriminate].
    intros Hrest.
    replace (done ++ h :: rest) with ((done ++ [h]) ++ rest)
      by (rewrite <- app_assoc; reflexivity).
    eapply IH; [|exact Hrest].
    clear IH Hrest.
    destruct Hstate as (Hnd & Hperm & Hentries & Hnames).
    assert (Hsurname :
              surname_of' dbase h
              = group_surname group_as nd_primary_surname
                  get_name_group_mapping str_isspace dbase
                  (get_primary_name person))
      by (unfold surname_of; rewrite Eperson; reflexivity).
    split; [|split; [|split]].
    + rewrite dict_append_keys.
      destruct (existsb _ _) eqn:E; [assumption|].
      apply NoDup_app; [assumption | repeat constructor; intros [] |].
      intros x Hx [<-|[]]. apply existsb_pystr_eqb in Hx. congruence.
    + rewrite dict_append_values. apply Permutation_app_tail. exact Hperm.
    + intros k vs Hin.
      destruct (dict_append_entries _ _ _ _ _ Hin)
        as [Hold | (-> & vs0 & -> & Hvs0)]; [exact (Hentries k vs Hold)|].
      split; [destruct vs0; discriminate|].
      intros h' Hh'. apply in_app_or in Hh'.
      destruct Hh' as [Hh'|[<-|[]]].
      * destruct Hvs0 as [->|Hin']; [contradiction|].
        exact (proj2 (Hentries _ _ Hin') h' Hh').
      * split; [congruence | exact Hsurname].
    + intros h' Hh'. rewrite dict_get_set.
      destruct (pystr_eqb h h') eqn:E.
      * apply pystr_eqb_eq in E; subst h'.
        unfold sort_name_of. rewrite Eperson. reflexivity.
      * apply pystr_eqb_neq in E. apply in_app_or in Hh'.
        destruct Hh' as [Hh'|[<-|[]]]; [auto | congruence].
Qed.

Lemma file_people_throw (dbase : Database) (e : error) :
  forall handle_list sname_sub sortnames,
    file_people' dbase handle_list sname_sub sortnames = Throw e
    <-> e = Builtin AttributeError
        /\ exists h, In h handle_list
                     /\ get_person_from_handle dbase h = None.
Proof.
  induction handle_list as [|h rest IH]; intros sname_sub sortnames; simpl.
  - split; [discriminate | intros (_ & h & [] & _)].
  - destruct (get_person_from_handle dbase h) as [person|] eqn:Eperson.
    + rewrite IH. split.
      * intros (-> & h' & Hin & Hnone). split; [reflexivity|].
        exists h'. auto.
      * intros (-> & h' & [<-|Hin] & Hnone); [congruence|].
        split; [reflexivity|]. exists h'. auto.
    + split.
      * intros E; inversion E. split; [reflexivity|]. exists h. auto.
      * intros (-> & _). reflexivity.
Qed.

Lemma filed_state_empty (dbase : Database) : filed_state' dbase [] [] [].
Proof.
  repeat split; simpl; try contradiction; constructor.
Qed.

(** The second loop does for a surname what [group_of] says: the sort
    names of the people of the surname are in [sortnames]. *)
Lemma sort_group_spec (dbase : Database) (rlocale : GrampsLocale)
    (sname_sub : list (pystr * list pystr))
    (sortnames : list (pystr * pystr)) (done : list pystr) (name : pystr) :
  filed_state' dbase sname_sub sortnames done ->
  sort_group rlocale sname_sub sortnames name
  = group_of dbase rlocale sname_sub name.
Proof.
  intros (Hnd & Hperm & Hentries & Hnames). unfold sort_group, group_of.
  rewrite (for_each_map _ (fun x => (sort_name_of dbase x, x)));
    [reflexivity|].
  intros x Hx. unfold dict_item. rewrite Hnames; [reflexivity|].
  apply (Permutation_in _ Hperm). unfold dict_list in Hx.
  destruct (dict_get sname_sub name) as [vs|] eqn:E; [|contradiction].
  apply dict_get_some_in in E. apply in_concat. exists vs. split; [|exact Hx].
  apply (in_map snd) in E. exact E.
Qed.

(** The people that are filed under a surname are people of the list, and
    the surname is theirs. *)
Lemma filed_members (dbase : Database)
    (sname_sub : list (pystr * list pystr))
    (sortnames : list (pystr * pystr)) (done : list pystr)
    (name handle : pystr) :
  filed_state' dbase sname_sub sortnames done ->
  In handle (dict_list sname_sub name) ->
  In handle done
  /\ get_person_from_handle dbase handle <> None
  /\ surname_of' dbase handle = name.
Proof.
  intros (Hnd & Hperm & Hentries & Hnames) Hin. unfold dict_list in Hin.
  destruct (dict_get sname_sub name) as [vs|] eqn:E; [|contradiction].
  apply dict_get_some_in in E. split.
  - apply (Permutation_in _ Hperm). apply in_concat. exists vs.
    split; [|exact Hin]. apply (in_map snd) in E. exact E.
  - exact (proj2 (Hentries name vs E) handle Hin).
Qed.

(** Every surname of the dictionary has a person. *)
Lemma filed_keys (dbase : Database)
    (sname_sub : list (pystr * list pystr))
    (sortnames : list (pystr * pystr)) (done : list pystr) (name : pystr) :
  filed_state' dbase sname_sub sortnames done ->
  In name (map fst sname_sub) ->
  exists handle, In handle (dict_list sname_sub name).
Proof.
  intros (Hnd & Hperm & Hentries & Hnames) Hin.
  apply in_keys_entry in Hin. destruct Hin as (vs & Hvs).
  unfold dict_list. rewrite (dict_get_in _ _ _ Hnd Hvs).
  destruct (Hentries name vs Hvs) as (Hne & _).
  destruct vs as [|h vs]; [congruence|]. exists h. simpl. auto.
Qed.

(** Every person of the list is filed under a surname of the
    dictionary. *)
Lemma filed_cover (dbase : Database)
    (sname_sub : list (pystr * list pystr))
    (sortnames : list (pystr * pystr)) (done : list pystr) (handle : pystr) :
  filed_state' dbase sname_sub sortnames done ->
  In handle done ->
  exists name,
    In name (map fst sname_sub) /\ In handle (dict_list sname_sub name).
Proof.
  intros (Hnd & Hperm & Hentries & Hnames) Hin.
  apply (Permutation_in _ (Permutation_sym Hperm)) in Hin.
  apply in_concat in Hin. destruct Hin as (vs & Hvs & Hin).
  apply in_map_iff in Hvs. destruct Hvs as ([name vs'] & E & Hentry).
  simpl in E. subst vs'. exists name. split.
  - apply (in_map fst) in Hentry. exact Hentry.
  - unfold dict_list. rewrite (dict_get_in _ _ _ Hnd Hentry). exact Hin.
Qed.

(** What [group_of] returns. *)
Lemma group_of_return (dbase : Database) (rlocale : GrampsLocale)
    (sname_sub : list (pystr * list pystr)) (name : pystr)
    (group : pystr * list pystr) :
  group_of dbase rlocale sname_sub name = Return group ->
  exists slist,
    list_sort (fun x : pystr * pystr => sort_key rlocale (fst x))
      (map (fun x => (sort_name_of dbase x, x)) (dict_list sname_sub name))
    = Ok slist
    /\ group = (name, map snd slist).
Proof.
  unfold group_of. intros E. apply and_then_return in E.
  destruct E as (slist & Hsort & E). apply thrown_return in Hsort.
  inversion E. eauto.
Qed.

Lemma group_of_entries (dbase : Database) (rlocale : GrampsLocale)
    (sname_sub : list (pystr * list pystr)) (name : pystr)
    (group : pystr * list pystr) :
  group_of dbase rlocale sname_sub name = Return group ->
  fst group = name
  /\ Permutation (snd group) (dict_list sname_sub name).
Proof.
  intros E. destruct (group_of_return _ _ _ _ _ E) as (slist & Hsort & ->).
  split; [reflexivity|]. simpl.
  rewrite <- (list_sort_perm _ _ _ Hsort), map_map. simpl.
  rewrite map_id. reflexivity.
Qed.

(** What [sort_people] returns, when it returns. *)
Lemma sort_people_return (dbase : Database) (handle_list : list pystr)
    (rlocale : GrampsLocale) (sorted_lists : list (pystr * list pystr)) :
  sort_people' dbase handle_list rlocale = Return sorted_lists ->
  exists sname_sub sortnames temp_list,
    filed_state' dbase sname_sub sortnames handle_list
    /\ list_sort (sort_key rlocale) (map fst sname_sub) = Ok temp_list
    /\ Forall2 (fun name group =>
                  group_of dbase rlocale sname_sub name = Return group)
         temp_list sorted_lists.
Proof.
  unfold sort_people.
  destruct (file_people' dbase handle_list [] [])
    as [[sname_sub sortnames]|e] eqn:Efiled; simpl; [|discriminate].
  pose proof (file_people_state dbase handle_list [] [] [] _ _
                (filed_state_empty dbase) Efiled) as Hstate.
  simpl in Hstate. intros Hgroups.
  apply and_then_return in Hgroups.
  destruct Hgroups as (temp_list & Hsort & Hgroups).
  apply thrown_return in Hsort. apply for_each_return in Hgroups.
  exists sname_sub, sortnames, temp_list.
  split; [exact Hstate|]. split; [exact Hsort|].
  eapply Forall2_impl; [|exact Hgroups].
  intros name group Hgroup. simpl in Hgroup.
  rewrite <- (sort_group_spec dbase rlocale sname_sub sortnames handle_list
                name Hstate). exact Hgroup.
Qed.

(** The surnames of the groups are the sorted surnames. *)
Lemma groups_surnames (dbase : Database) (rlocale : GrampsLocale)
    (sname_sub : list (pystr * list pystr)) :
  forall temp_list sorted_lists,
    Forall2 (fun name group =>
               group_of dbase rlocale sname_sub name = Return group)
      temp_list sorted_lists ->
    map fst sorted_lists = temp_list.
Proof.
  induction 1 as [|name group temp_list sorted_lists Hgroup _ IH];
    [reflexivity|].
  simpl. rewrite IH. f_equal. apply (group_of_entries _ _ _ _ _ Hgroup).
Qed.

(** The people of the groups are the people of the sorted surnames. *)
Lemma groups_people (dbase : Database) (rlocale : GrampsLocale)
    (sname_sub : list (pystr * list pystr)) :
  forall temp_list sorted_lists,
    Forall2 (fun name group =>
               group_of dbase rlocale sname_sub name = Return group)
      temp_list sorted_lists ->
    Permutation (concat (map snd sorted_lists))
      (flat_map (dict_list sname_sub) temp_list).
Proof.
  induction 1 as [|name group temp_list sorted_lists Hgroup _ IH];
    [constructor|].
  simpl. apply Permutation_app; [|exact IH].
  apply (group_of_entries _ _ _ _ _ Hgroup).
Qed.

End SortPeopleProofs.

(** *** What [sort_people] returns *)

Section SortPeopleTheorems.
Context `{Host}.
Variable group_as : Name -> pystr.
Variable nd_primary_surname : Name -> pystr.
Variable get_name_group_mapping : Database -> pystr -> option pystr.
Variable str_isspace : pystr -> bool.

Local Abbreviation sort_people' :=
  (sort_people group_as nd_primary_surname get_name_group_mapping
     str_isspace).
Local Abbreviation group_surname' :=
  (group_surname group_as nd_primary_surname get_name_group_mapping
     str_isspace).

(** X11. The surnames of the groups that [sort_people] returns are all
    different, and in ascending order of the locale's sort key. *)
Theorem sort_people_surnames (dbase : Database) (handle_list : list pystr)
    (rlocale : GrampsLocale) (sorted_lists : list (pystr * list pystr)) :
  sort_people' dbase handle_list rlocale = Return sorted_lists ->
  NoDup (map fst sorted_lists)
  /\ StronglySorted (key_le (sort_key rlocale)) (map fst sorted_lists).
Proof.
  intros Hsort. apply sort_people_return in Hsort.
  destruct Hsort
    as (sname_sub & sortnames & temp_list & (Hnd & _) & Hsorted & Hgroups).
  rewrite (groups_surnames _ _ _ _ _ Hgroups). split.
  - eapply Permutation_NoDup; [exact (list_sort_perm _ _ _ Hsorted) | exact Hnd].
  - exact (list_sort_sorted _ _ _ Hsorted).
Qed.

(** X12. The groups that [sort_people] returns hold, together, the handles
    of the list it was given, each as many times as the list has it: no
    person is lost and none is added. *)
Theorem sort_people_all_people (dbase : Database) (handle_list : list pystr)
    (rlocale : GrampsLocale) (sorted_lists : list (pystr * list pystr)) :
  sort_people' dbase handle_list rlocale = Return sorted_lists ->
  Permutation (concat (map snd sorted_lists)) handle_list.
Proof.
  intros Hsort. apply sort_people_return in Hsort.
  destruct Hsort
    as (sname_sub & sortnames & temp_list & (Hnd & Hperm & _) & Hsorted
        & Hgroups).
  rewrite (groups_people _ _ _ _ _ Hgroups).
  rewrite <- (list_sort_perm _ _ _ Hsorted).
  rewrite (concat_dict_lists sname_sub Hnd). exact Hperm.
Qed.

(** X13. No group that [sort_people] returns is empty, and every person of
    a group is in the database and has the surname of the group: the
    [group_as] of the primary name when there is one, else the group
    mapping of its primary surname, and the empty surname when that is
    [None] or white space. *)
Theorem sort_people_groups (dbase : Database) (handle_list : list pystr)
    (rlocale : GrampsLocale) (sorted_lists : list (pystr * list pystr))
    (name : pystr) (entries : list pystr) :
  sort_people' dbase handle_list rlocale = Return sorted_lists ->
  In (name, entries) sorted_lists ->
  entries <> []
  /\ forall handle, In handle entries ->
       exists person,
         get_person_from_handle dbase handle = Some person
         /\ group_surname' dbase (get_primary_name person) = name.
Proof.
  intros Hsort Hin. apply sort_people_return in Hsort.
  destruct Hsort
    as (sname_sub & sortnames & temp_list & Hstate & Hsorted & Hgroups).
  destruct (Forall2_in_r _ _ _ _ Hgroups Hin) as (name' & Hname & Hgroup).
  destruct (group_of_entries _ _ _ _ _ Hgroup) as (Ename & Hperm).
  simpl in Ename, Hperm. subst name'.
  apply (list_sort_in _ _ _ _ Hsorted) in Hname.
  split.
  - destruct (filed_keys _ _ _ _ dbase _ _ _ name Hstate Hname)
      as (h & Hh).
    intros Enil. rewrite Enil in Hperm.
    apply (Permutation_in _ (Permutation_sym Hperm)) in Hh. contradiction.
  - intros handle Hhandle. apply (Permutation_in _ Hperm) in Hhandle.
    destruct (filed_members _ _ _ _ dbase _ _ _ _ _ Hstate Hhandle)
      as (_ & Hknown & Hsurname).
    unfold surname_of in Hsurname.
    destruct (get_person_from_handle dbase handle) as [person|];
      [|contradiction].
    exists person. auto.
Qed.

(** X14. Inside every group that [sort_people] returns, the people are in
    ascending order of the locale's sort key of their sort names. *)
Theorem sort_people_order (dbase : Database) (handle_list : list pystr)
    (rlocale : GrampsLocale) (sorted_lists : list (pystr * list pystr))
    (name : pystr) (entries : list pystr) :
  sort_people' dbase handle_list rlocale = Return sorted_lists ->
  In (name, entries) sorted_lists ->
  StronglySorted
    (key_le (fun handle => sort_key rlocale (sort_name_of dbase handle)))
    entries.
Proof.
  intros Hsort Hin. apply sort_people_return in Hsort.
  destruct Hsort
    as (sname_sub & sortnames & temp_list & _ & _ & Hgroups).
  destruct (Forall2_in_r _ _ _ _ Hgroups Hin) as (name' & _ & Hgroup).
  destruct (group_of_return _ _ _ _ _ Hgroup) as (slist & Hslist & E).
  inversion E; subst name' entries. clear E.
  apply StronglySorted_map.
  eapply StronglySorted_weaken; [|exact (list_sort_sorted _ _ _ Hslist)].
  intros [a x] [b y] Ha Hb.
  apply (list_sort_in _ _ _ _ Hslist) in Ha, Hb.
  apply in_map_iff in Ha, Hb.
  destruct Ha as (x' & Ex & _). destruct Hb as (y' & Ey & _).
  inversion Ex; inversion Ey; subst. unfold key_le. simpl. auto.
Qed.

(** X15. [sort_people] throws [AttributeError] when the database has no
    person for one of the handles. Every exception that it throws is that
    one, or else an exception that the sort key of the locale raised on the
    surname or on the sort name of a person of the list: its dictionaries
    never miss a key. It returns exactly when every handle has a person
    and the sort key returns on the surname and on the sort name of each of
    them. *)
Theorem sort_people_throws (dbase : Database) (handle_list : list pystr)
    (rlocale : GrampsLocale) :
  ((exists handle,
      In handle handle_list /\ get_person_from_handle dbase handle = None) ->
   sort_people' dbase handle_list rlocale = Throw (Builtin AttributeError))
  /\ (forall e,
        sort_people' dbase handle_list rlocale = Throw e ->
        (e = Builtin AttributeError
         /\ exists handle,
              In handle handle_list
              /\ get_person_from_handle dbase handle = None)
        \/ exists handle person text e',
             In handle handle_list
             /\ get_person_from_handle dbase handle = Some person
             /\ (text = group_surname' dbase (get_primary_name person)
                 \/ text = nd_sort_string (get_primary_name person))
             /\ sort_key rlocale text = Raise e'
             /\ e = Builtin e')
  /\ ((exists sorted_lists,
         sort_people' dbase handle_list rlocale = Return sorted_lists)
      <-> forall handle, In handle handle_list ->
            exists person,
              get_person_from_handle dbase handle = Some person
              /\ (exists k,
                    sort_key rlocale
                      (group_surname' dbase (get_primary_name person))
                    = Ok k)
              /\ (exists k,
                    sort_key rlocale (nd_sort_string (get_primary_name person))
                    = Ok k)).
Proof.
  assert (Hmissing :
            (exists handle,
               In handle handle_list
               /\ get_person_from_handle dbase handle = None) ->
            sort_people' dbase handle_list rlocale
            = Throw (Builtin AttributeError)).
  { intros Hnone.
    assert (Hthrow : file_people group_as nd_primary_surname
                       get_name_group_mapping str_isspace dbase handle_list
                       [] [] = Throw (Builtin AttributeError)).
    { apply file_people_throw. auto. }
    unfold sort_people. rewrite Hthrow. reflexivity. }
  assert (Hthrown :
            forall e,
              sort_people' dbase handle_list rlocale = Throw e ->
              (e = Builtin AttributeError
               /\ exists handle,
                    In handle handle_list
                    /\ get_person_from_handle dbase handle = None)
              \/ exists handle person text e',
                   In handle handle_list
                   /\ get_person_from_handle dbase handle = Some person
                   /\ (text = group_surname' dbase (get_primary_name person)
                       \/ text = nd_sort_string (get_primary_name person))
                   /\ sort_key rlocale text = Raise e'
                   /\ e = Builtin e').
  { intros e Hthrow. unfold sort_people in Hthrow.
    destruct (file_people _ _ _ _ dbase handle_list [] [])
      as [[sname_sub sortnames]|e0] eqn:Efiled; simpl in Hthrow.
    2: { left. inversion Hthrow; subst e0.
         apply (file_people_throw group_as nd_primary_surname
                  get_name_group_mapping str_isspace dbase e handle_list
                  [] []). exact Efiled. }
    right.
    pose proof (file_people_state _ _ _ _ dbase handle_list [] [] [] _ _
                  (filed_state_empty _ _ _ _ dbase) Efiled) as Hstate.
    simpl in Hstate.
    destruct (list_sort (sort_key rlocale) (map fst sname_sub))
      as [temp_list|e0] eqn:Hsorted; simpl in Hthrow.
    - apply for_each_throw in Hthrow. destruct Hthrow as (name & _ & Hgroup).
      rewrite (sort_group_spec _ _ _ _ dbase rlocale sname_sub sortnames
                 handle_list name Hstate) in Hgroup.
      unfold group_of in Hgroup.
      destruct (list_sort _ (map _ (dict_list sname_sub name)))
        as [slist|e0] eqn:Hslist; simpl in Hgroup; [discriminate|].
      inversion Hgroup; subst e. apply list_sort_raise in Hslist.
      apply first_failure_in in Hslist.
      destruct Hslist as ([sortname handle] & Hpair & Hkey).
      apply in_map_iff in Hpair. destruct Hpair as (h & E & Hh).
      inversion E; subst sortname handle. simpl in Hkey.
      destruct (filed_members _ _ _ _ dbase _ _ _ _ _ Hstate Hh)
        as (Hin & Hknown & _).
      unfold sort_name_of in Hkey.
      destruct (get_person_from_handle dbase h) as [person|] eqn:Eperson;
        [|contradiction].
      exists h, person, (nd_sort_string (get_primary_name person)), e0.
      auto 10.
    - inversion Hthrow; subst e. apply list_sort_raise in Hsorted.
      apply first_failure_in in Hsorted.
      destruct Hsorted as (name & Hname & Hkey).
      destruct (filed_keys _ _ _ _ dbase _ _ _ name Hstate Hname)
        as (h & Hh).
      destruct (filed_members _ _ _ _ dbase _ _ _ _ _ Hstate Hh)
        as (Hin & Hknown & Hsurname).
      unfold surname_of in Hsurname.
      destruct (get_person_from_handle dbase h) as [person|] eqn:Eperson;
        [|contradiction].
      exists h, person, name, e0. subst name. auto 10. }
  split; [exact Hmissing|]. split; [exact Hthrown|]. split.
  - intros (sorted_lists & Hreturn) handle Hin.
    destruct (get_person_from_handle dbase handle) as [person|] eqn:Eperson.
    2: { rewrite Hmissing in Hreturn by eauto. discriminate. }
    exists person. split; [reflexivity|].
    apply sort_people_return in Hreturn.
    destruct Hreturn
      as (sname_sub & sortnames & temp_list & Hstate & Hsorted & Hgroups).
    destruct (filed_cover _ _ _ _ dbase _ _ _ handle Hstate Hin)
      as (name & Hname & Hmember).
    destruct (filed_members _ _ _ _ dbase _ _ _ _ _ Hstate Hmember)
      as (_ & _ & Hsurname).
    unfold surname_of in Hsurname. rewrite Eperson in Hsurname.
    split.
    + rewrite Hsurname.
      apply (list_sort_keys _ _ _ Hsorted). exact Hname.
    + apply (list_sort_in _ _ _ _ Hsorted) in Hname.
      destruct (Forall2_in_l _ _ _ _ Hgroups Hname) as (group & _ & Hgroup).
      destruct (group_of_return _ _ _ _ _ Hgroup) as (slist & Hslist & _).
      destruct (list_sort_keys _ _ _ Hslist (sort_name_of dbase handle, handle))
        as (k & Hk).
      { apply in_map_iff. exists handle. auto. }
      simpl in Hk. unfold sort_name_of in Hk. rewrite Eperson in Hk. eauto.
  - intros Hall.
    destruct (sort_people' dbase handle_list rlocale) as [sorted_lists|e]
      eqn:Hresult; [eauto|].
    exfalso. destruct (Hthrown e eq_refl)
      as [(_ & handle & Hin & Hnone)
         | (handle & person & text & e' & Hin & Hperson & Htext & Hkey & _)].
    + destruct (Hall handle Hin) as (person & Hperson & _). congruence.
    + destruct (Hall handle Hin) as (person' & Hperson' & (k1 & Hk1)
                                      & (k2 & Hk2)).
      rewrite Hperson in Hperson'. inversion Hperson'; subst person'.
      destruct Htext as [-> | ->]; congruence.
Qed.

End SortPeopleTheorems.

(** ** Escaping text for HTML *)

(** *** The quotes of a text *)

Lemma split_at_first_some (q : N) :
  forall s before behind,
    split_at_first q s = Some (before, behind) ->
    s = before ++ q :: behind /\ ~ In q before.
Proof.
  induction s as [|c s IH]; simpl; intros before behind; [discriminate|].
  destruct (c =? q)%N eqn:E.
  - apply N.eqb_eq in E; subst c. intros E; inversion E; subst. auto.
  - apply N.eqb_neq in E.
    destruct (split_at_first q s) as [[b a]|]; [|discriminate].
    intros E'; inversion E'; subst. destruct (IH _ _ eq_refl) as (-> & Hb).
    split; [reflexivity|]. simpl. tauto.
Qed.

Lemma split_at_first_none (q : N) (s : pystr) :
  split_at_first q s = None <-> ~ In q s.
Proof.
  induction s as [|c s IH]; simpl; [tauto|].
  destruct (c =? q)%N eqn:E.
  - apply N.eqb_eq in E. split; [discriminate | tauto].
  - apply N.eqb_neq in E.
    destruct (split_at_first q s) as [[b a]|].
    + split; [discriminate|]. intros Hn. exfalso.
      assert (Hs : ~ In q s) by tauto. apply IH in Hs. discriminate.
    + split; [|reflexivity]. intros _ [Hc|Hs]; [auto|].
      apply (proj1 IH eq_refl Hs).
Qed.

Lemma split_at_first_here (q : N) (before behind : pystr) :
  ~ In q before ->
  split_at_first q (before ++ q :: behind) = Some (before, behind).
Proof.
  induction before as [|c before IH]; simpl; intros Hn.
  - rewrite N.eqb_refl. reflexivity.
  - destruct (c =? q)%N eqn:E; [apply N.eqb_eq in E; tauto|].
    rewrite IH by tauto. reflexivity.
Qed.

Lemma split_first_incl (sep : N) (s : pystr) :
  incl (split_first sep s) s.
Proof.
  induction s as [|c s IH]; simpl; [apply incl_refl|].
  destruct (c =? sep)%N; [intros x [] |].
  intros x [<-|Hx]; simpl; auto.
Qed.

Lemma split_first_line (sep : N) (line rest : pystr) :
  ~ In sep line -> split_first sep (line ++ sep :: rest) = line.
Proof.
  induction line as [|c line IH]; simpl; intros Hn.
  - rewrite N.eqb_refl. reflexivity.
  - destruct (c =? sep)%N eqn:E; [apply N.eqb_eq in E; tauto|].
    rewrite IH by tauto. reflexivity.
Qed.

Lemma split_first_whole (sep : N) (line : pystr) :
  ~ In sep line -> split_first sep line = line.
Proof.
  induction line as [|c line IH]; simpl; intros Hn; [reflexivity|].
  destruct (c =? sep)%N eqn:E; [apply N.eqb_eq in E; tauto|].
  rewrite IH by tauto. reflexivity.
Qed.

Lemma quotes_match_some (q : N) (text group1 group2 group3 : pystr) :
  quotes_match q text = Some (group1, group2, group3) ->
  exists rest,
    text = group1 ++ q :: group2 ++ q :: rest
    /\ ~ In q group1 /\ ~ In q group2
    /\ group3 = split_first newline rest.
Proof.
  unfold quotes_match.
  destruct (split_at_first q text) as [[g1 rest1]|] eqn:E1; [|discriminate].
  destruct (split_at_first q rest1) as [[g2 rest2]|] eqn:E2; [|discriminate].
  intros E; inversion E; subst.
  apply split_at_first_some in E1, E2.
  destruct E1 as (-> & H1). destruct E2 as (-> & H2).
  exists rest2. auto.
Qed.

Lemma quotes_match_none (q : N) (text : pystr) :
  ~ In q text -> quotes_match q text = None.
Proof.
  intros Hn. unfold quotes_match.
  rewrite (proj2 (split_at_first_none q text) Hn). reflexivity.
Qed.

Lemma quotes_match_pair (q : N) (group1 group2 rest : pystr) :
  ~ In q group1 -> ~ In q group2 ->
  quotes_match q (group1 ++ q :: group2 ++ q :: rest)
  = Some (group1, group2, split_first newline rest).
Proof.
  intros H1 H2. unfold quotes_match.
  rewrite (split_at_first_here q group1 _ H1).
  rewrite (split_at_first_here q group2 _ H2). reflexivity.
Qed.

Lemma occurrences_app (q : N) (a b : pystr) :
  occurrences q (a ++ b) = (occurrences q a + occurrences q b)%nat.
Proof. unfold occurrences. rewrite filter_app, length_app. reflexivity. Qed.

Lemma occurrences_none (q : N) (s : pystr) :
  ~ In q s -> occurrences q s = 0%nat.
Proof.
  unfold occurrences. induction s as [|c s IH]; simpl; intros Hn; auto.
  destruct (q =? c)%N eqn:E; [apply N.eqb_eq in E; subst; tauto|].
  apply IH. tauto.
Qed.

Lemma occurrences_incl_line (q : N) (s : pystr) :
  (occurrences q (split_first newline s) <= occurrences q s)%nat.
Proof.
  unfold occurrences. induction s as [|c s IH]; simpl; [lia|].
  destruct (c =? newline)%N; simpl; [lia|].
  destruct (q =? c)%N; simpl; lia.
Qed.

Lemma occurrences_le_length (q : N) (s : pystr) :
  (occurrences q s <= length s)%nat.
Proof. unfold occurrences. apply filter_length_le. Qed.

Section CurlQuotes.
Variable q : N.
Variables opening closing : pystr.
Hypothesis opening_plain : ~ In q opening.
Hypothesis closing_plain : ~ In q closing.

Lemma curl_step_occurrences (text group1 group2 group3 : pystr) :
  quotes_match q text = Some (group1, group2, group3) ->
  (occurrences q (group1 ++ opening ++ group2 ++ closing ++ group3) + 2
   <= occurrences q text)%nat.
Proof.
  intros Hm. apply quotes_match_some in Hm.
  destruct Hm as (rest & -> & H1 & H2 & ->).
  rewrite !occurrences_app.
  change (q :: group2 ++ q :: rest) with ([q] ++ group2 ++ [q] ++ rest).
  rewrite !occurrences_app.
  rewrite (occurrences_none q group1 H1), (occurrences_none q group2 H2).
  rewrite (occurrences_none q opening opening_plain).
  rewrite (occurrences_none q closing closing_plain).
  pose proof (occurrences_incl_line q rest).
  unfold occurrences at 2 3. simpl. rewrite N.eqb_refl. simpl. lia.
Qed.

(** The loop ends when its fuel is at least the number of quotes, and
    more fuel does not change its result. *)
Lemma curl_quotes_enough :
  forall fuel fuel' text,
    (occurrences q text <= fuel)%nat ->
    (occurrences q text <= fuel')%nat ->
    curl_quotes fuel q opening closing text
    = curl_quotes fuel' q opening closing text
    /\ exists out, curl_quotes fuel q opening closing text = Done out.
Proof.
  induction fuel as [|fuel IH]; intros fuel' text Hfuel Hfuel'.
  - destruct fuel' as [|fuel']; simpl;
      destruct (quotes_match q text) as [[[g1 g2] g3]|] eqn:Hm; eauto;
      apply curl_step_occurrences in Hm; lia.
  - destruct fuel' as [|fuel']; simpl;
      destruct (quotes_match q text) as [[[g1 g2] g3]|] eqn:Hm; eauto.
    + apply curl_step_occurrences in Hm; lia.
    + apply curl_step_occurrences in Hm. apply IH; lia.
Qed.

Lemma curl_quotes_chars :
  forall fuel text out,
    curl_quotes fuel q opening closing text = Done out ->
    forall x, In x out -> In x text \/ In x opening \/ In x closing.
Proof.
  induction fuel as [|fuel IH]; intros text out; simpl;
    destruct (quotes_match q text) as [[[g1 g2] g3]|] eqn:Hm;
    try discriminate; try (intros E; inversion E; subst; tauto).
  intros Hloop x Hx. apply quotes_match_some in Hm.
  destruct Hm as (rest & -> & _ & _ & ->).
  destruct (IH _ _ Hloop x Hx) as [Hin|Hin]; [|tauto].
  repeat (rewrite in_app_iff in Hin; simpl in Hin).
  repeat (rewrite in_app_iff; simpl).
  destruct Hin as [Hin|[Hin|[Hin|[Hin|Hin]]]]; try tauto.
  apply split_first_incl in Hin. tauto.
Qed.

End CurlQuotes.

(** *** Replacing *)

Lemma replace_from_chars (old new : pystr) :
  forall text skip x,
    In x (replace_from old new skip text) -> In x text \/ In x new.
Proof.
  induction text as [|c text IH]; simpl; intros skip x; [tauto|].
  destruct skip as [|skip].
  - destruct (str_startswith (c :: text) old).
    + rewrite in_app_iff. intros [Hx|Hx]; [tauto|].
      destruct (IH _ _ Hx); tauto.
    + intros [<-|Hx]; [tauto|]. destruct (IH _ _ Hx); tauto.
  - intros Hx. destruct (IH _ _ Hx); tauto.
Qed.

(** Replacing every [c] by a text without [c] leaves no [c]. *)
Lemma replace_char_gone (c : N) (new text : pystr) :
  ~ In c new -> ~ In c (str_replace [c] new text).
Proof.
  intros Hnew. unfold str_replace.
  induction text as [|x text IH]; simpl; [tauto|].
  unfold str_startswith. simpl.
  destruct (x =? c)%N eqn:E; simpl.
  - rewrite in_app_iff. tauto.
  - apply N.eqb_neq in E. intros [Hx|Hx]; [congruence | tauto].
Qed.

(** A text without the first character of [old] is left as it is. *)
Lemma replace_absent (c : N) (old new text : pystr) :
  ~ In c text -> str_replace (c :: old) new text = text.
Proof.
  unfold str_replace. induction text as [|x text IH]; simpl; intros Hn;
    [reflexivity|].
  unfold str_startswith. simpl.
  destruct (x =? c)%N eqn:E; [apply N.eqb_eq in E; subst; tauto|].
  simpl. rewrite IH by tauto. reflexivity.
Qed.

(** *** What [html_escape] returns *)

Lemma not_in_by_existsb (c : N) (l : pystr) :
  existsb (N.eqb c) l = false -> ~ In c l.
Proof.
  intros E Hin. assert (existsb (N.eqb c) l = true); [|congruence].
  apply existsb_exists. exists c. split; [assumption | apply N.eqb_refl].
Qed.

Lemma incl_by_forallb (l m : pystr) :
  forallb (fun x => existsb (N.eqb x) m) l = true -> incl l m.
Proof.
  rewrite forallb_forall. intros Hall x Hx. apply Hall in Hx.
  apply existsb_exists in Hx. destruct Hx as (y & Hy & E).
  apply N.eqb_eq in E. subst. assumption.
Qed.

Ltac not_in_entity := apply not_in_by_existsb; vm_compute; reflexivity.

(** The marks are made of the characters of [entity_characters]. *)
Lemma entities_incl :
  Forall (fun entity => incl entity entity_characters)
    [py "&#8220;"; py "&#8221;"; py "&#34;"; py "&#8217;s ";
     py "&#8216;"; py "&#8217;"; py "&#39;"].
Proof.
  repeat (apply Forall_cons; [apply incl_by_forallb; vm_compute; reflexivity|]).
  apply Forall_nil.
Qed.

Section HtmlEscapeTheorems.
Variable escape : pystr -> pystr.

(** The steps of [escape_quotes], with results. *)
Lemma escape_quotes_steps (text : pystr) :
  exists curled curled',
    curl_quotes (length text) double_quote (py "&#8220;") (py "&#8221;") text
    = Done curled
    /\ curl_quotes
         (length (str_replace (py "'s ") (py "&#8217;s ")
                    (str_replace [double_quote] (py "&#34;") curled)))
         single_quote (py "&#8216;") (py "&#8217;")
         (str_replace (py "'s ") (py "&#8217;s ")
            (str_replace [double_quote] (py "&#34;") curled))
       = Done curled'
    /\ escape_quotes text
       = Done (str_replace [single_quote] (py "&#39;") curled').
Proof.
  unfold escape_quotes.
  destruct (curl_quotes_enough double_quote (py "&#8220;") (py "&#8221;")
              ltac:(not_in_entity) ltac:(not_in_entity)
              (length text) (length text) text
              (occurrences_le_length _ _) (occurrences_le_length _ _))
    as (_ & curled & ->).
  exists curled.
  set (text' := str_replace (py "'s ") (py "&#8217;s ")
                  (str_replace [double_quote] (py "&#34;") curled)).
  destruct (curl_quotes_enough single_quote (py "&#8216;") (py "&#8217;")
              ltac:(not_in_entity) ltac:(not_in_entity)
              (length text') (length text') text'
              (occurrences_le_length _ _) (occurrences_le_length _ _))
    as (_ & curled' & ->).
  exists curled'. auto.
Qed.

(** X16. [html_escape] returns, and the text it returns has no double
    quote and no single quote. *)
Theorem html_escape_no_quotes (text : pystr) :
  exists out,
    html_escape escape text = Done out
    /\ ~ In double_quote out
    /\ ~ In single_quote out.
Proof.
  unfold html_escape.
  destruct (escape_quotes_steps (escape text))
    as (curled & curled' & Hcurled & Hcurled' & ->).
  eexists. split; [reflexivity|]. split.
  - intros Hin. apply replace_from_chars in Hin.
    destruct Hin as [Hin|Hin]; [|revert Hin; not_in_entity].
    apply (curl_quotes_chars _ _ _ _ _ _ Hcurled') in Hin.
    destruct Hin as [Hin|[Hin|Hin]];
      [| revert Hin; not_in_entity | revert Hin; not_in_entity].
    apply replace_from_chars in Hin.
    destruct Hin as [Hin|Hin]; [|revert Hin; not_in_entity].
    revert Hin. apply replace_char_gone. not_in_entity.
  - apply replace_char_gone. not_in_entity.
Qed.

(** X17. Every character of the text that [html_escape] returns is a
    character of the text that [escape] returned, or one of the characters
    of its own marks: an ampersand, a hash, a semicolon, a digit, the
    letter s or a blank. *)
Theorem html_escape_characters (text out : pystr) (x : N) :
  html_escape escape text = Done out ->
  In x out ->
  In x (escape text) \/ In x entity_characters.
Proof.
  unfold html_escape.
  destruct (escape_quotes_steps (escape text))
    as (curled & curled' & Hcurled & Hcurled' & ->).
  intros E Hin. inversion E; subst out. clear E.
  assert (Hent : forall n entity,
            nth_error [py "&#8220;"; py "&#8221;"; py "&#34;";
                       py "&#8217;s "; py "&#8216;"; py "&#8217;";
                       py "&#39;"] n = Some entity ->
            In x entity -> In x entity_characters).
  { intros n entity Hn Hx. apply nth_error_In in Hn.
    pose proof entities_incl as Hall. rewrite Forall_forall in Hall.
    apply (Hall entity Hn). exact Hx. }
  apply replace_from_chars in Hin.
  destruct Hin as [Hin|Hin]; [|right; apply (Hent 6%nat _ eq_refl Hin)].
  apply (curl_quotes_chars _ _ _ _ _ _ Hcurled') in Hin.
  destruct Hin as [Hin|[Hin|Hin]];
    [| right; apply (Hent 4%nat _ eq_refl Hin)
     | right; apply (Hent 5%nat _ eq_refl Hin)].
  apply replace_from_chars in Hin.
  destruct Hin as [Hin|Hin]; [|right; apply (Hent 3%nat _ eq_refl Hin)].
  apply replace_from_chars in Hin.
  destruct Hin as [Hin|Hin]; [|right; apply (Hent 2%nat _ eq_refl Hin)].
  apply (curl_quotes_chars _ _ _ _ _ _ Hcurled) in Hin.
  destruct Hin as [Hin|[Hin|Hin]];
    [ left; exact Hin
    | right; apply (Hent 0%nat _ eq_refl Hin)
    | right; apply (Hent 1%nat _ eq_refl Hin)].
Qed.

(** X18. A text in which [escape] leaves no quote is returned as [escape]
    returned it. *)
Theorem html_escape_without_quotes (text : pystr) :
  ~ In double_quote (escape text) ->
  ~ In single_quote (escape text) ->
  html_escape escape text = Done (escape text).
Proof.
  intros Hdq Hsq. unfold html_escape, escape_quotes.
  assert (Hcurl : forall fuel quote opening closing,
            ~ In quote (escape text) ->
            curl_quotes fuel quote opening closing (escape text)
            = Done (escape text)).
  { intros fuel quote opening closing Hn.
    destruct fuel; simpl; rewrite (quotes_match_none _ _ Hn); reflexivity. }
  rewrite (Hcurl _ _ _ _ Hdq).
  rewrite (replace_absent double_quote [] _ _ Hdq).
  change (py "'s ") with (single_quote :: py "s ").
  rewrite (replace_absent single_quote _ _ _ Hsq).
  rewrite (Hcurl _ _ _ _ Hsq).
  rewrite (replace_absent single_quote [] _ _ Hsq). reflexivity.
Qed.

(** X19. When a pair of double quotes is followed by a line break, what
    comes after the line break is lost: the result is that of the text
    that ends before the line break. *)
Theorem html_escape_drops_lines (text text' before quoted line rest : pystr) :
  escape text
  = before ++ double_quote :: quoted ++ double_quote :: line
      ++ newline :: rest ->
  escape text'
  = before ++ double_quote :: quoted ++ double_quote :: line ->
  ~ In double_quote before ->
  ~ In double_quote quoted ->
  ~ In newline line ->
  html_escape escape text = html_escape escape text'.
Proof.
  intros E E' Hbefore Hquoted Hline.
  unfold html_escape, escape_quotes. rewrite E, E'.
  assert (Hsame :
            curl_quotes
              (length (before ++ double_quote :: quoted ++ double_quote
                         :: line ++ newline :: rest))
              double_quote (py "&#8220;") (py "&#8221;")
              (before ++ double_quote :: quoted ++ double_quote
                 :: line ++ newline :: rest)
            = curl_quotes
                (length (before ++ double_quote :: quoted ++ double_quote
                           :: line))
                double_quote (py "&#8220;") (py "&#8221;")
                (before ++ double_quote :: quoted ++ double_quote :: line)).
  { set (curled := before ++ py "&#8220;" ++ quoted ++ py "&#8221;" ++ line).
    assert (Hocc : (occurrences double_quote curled <= length line)%nat).
    { unfold curled. rewrite !occurrences_app.
      rewrite (occurrences_none _ _ Hbefore), (occurrences_none _ _ Hquoted).
      rewrite (occurrences_none double_quote (py "&#8220;"))
        by not_in_entity.
      rewrite (occurrences_none double_quote (py "&#8221;"))
        by not_in_entity.
      pose proof (occurrences_le_length double_quote line). lia. }
    assert (Hstep : forall fuel tail,
              split_first newline tail = line ->
              curl_quotes (S fuel) double_quote (py "&#8220;") (py "&#8221;")
                (before ++ double_quote :: quoted ++ double_quote :: tail)
              = curl_quotes fuel double_quote (py "&#8220;") (py "&#8221;")
                  curled).
    { intros fuel tail Htail. cbn [curl_quotes].
      rewrite (quotes_match_pair double_quote before quoted tail
                 Hbefore Hquoted), Htail. reflexivity. }
    destruct (length (before ++ double_quote :: quoted ++ double_quote
                        :: line ++ newline :: rest)) as [|fuel] eqn:Efuel.
    { rewrite length_app in Efuel. simpl in Efuel. lia. }
    destruct (length (before ++ double_quote :: quoted ++ double_quote
                        :: line)) as [|fuel'] eqn:Efuel'.
    { rewrite length_app in Efuel'. simpl in Efuel'. lia. }
    rewrite (Hstep fuel _ (split_first_line newline line rest Hline)).
    rewrite (Hstep fuel' _ (split_first_whole newline line Hline)).
    rewrite length_app in Efuel, Efuel'. cbn [length] in Efuel, Efuel'.
    rewrite length_app in Efuel, Efuel'. cbn [length] in Efuel, Efuel'.
    rewrite length_app in Efuel. cbn [length] in Efuel.
    apply (curl_quotes_enough double_quote (py "&#8220;") (py "&#8221;")
             ltac:(not_in_entity) ltac:(not_in_entity)); lia. }
  rewrite Hsame. reflexivity.
Qed.

End HtmlEscapeTheorems.

(** ** The further properties at concrete inputs *)

Lemma get_first_letters_from_items_witness :
  let rlocale := code_point_locale 0 "en" in
  let handle_list := [py "Birth"; py "Baptism"; py "Death"; py "Burial"] in
  get_first_letters (H := plain_host rlocale) no_people handle_list
    _ALPHAEVENT rlocale = Ok [py "B"; py "D"]
  /\ (forall letter, In letter [py "B"; py "D"] ->
        exists handle,
          In handle handle_list
          /\ item_letter (H := plain_host rlocale) no_people _ALPHAEVENT
               rlocale handle = Ok letter)
  /\ (length [py "B"; py "D"] <= length handle_list)%nat.
Proof.
  intros rlocale handle_list. split; [reflexivity|].
  apply (get_first_letters_from_items (H := plain_host rlocale) no_people
           handle_list _ALPHAEVENT rlocale [py "B"; py "D"]).
  reflexivity.
Defined.

Lemma get_first_letters_no_repeat_witness :
  let rlocale := code_point_locale 0 "en" in
  let handle_list := [py "Birth"; py "Baptism"; py "Death"; py "Burial"] in
  get_first_letters (H := plain_host rlocale) no_people handle_list
    _ALPHAEVENT rlocale = Ok [py "B"; py "D"]
  /\ NoDup [py "B"; py "D"].
Proof.
  intros rlocale handle_list. split; [reflexivity|].
  apply (get_first_letters_no_repeat (H := plain_host rlocale) no_people
           handle_list _ALPHAEVENT rlocale
           [py "B"; py "B"; py "D"; py "B"] [py "B"; py "D"]).
  - reflexivity.
  - reflexivity.
  - intros a b k _ _ Ha Hb Hne. exfalso. apply Hne.
    simpl in Ha, Hb. congruence.
  - intros a [<-|[<-|[<-|[<-|[]]]]]; reflexivity.
Defined.

Lemma alphabet_navigation_links_witness :
  let rlocale := code_point_locale 0 "en" in
  let index_list := [py "B"; py "A"; py "B"] in
  exists rows letters,
    alphabet_navigation index_list rlocale = Ok (Done (Some rows))
    /\ concat rows = map (nav_link rlocale) letters
    /\ NoDup letters
    /\ (forall x, In x letters <-> In x index_list)
    /\ StronglySorted (key_le (sort_key rlocale)) letters.
Proof.
  intros rlocale index_list.
  destruct (alphabet_navigation_links index_list rlocale
              [[nav_link rlocale (py "A"); nav_link rlocale (py "B")]]
              eq_refl)
    as (letters & Hlinks).
  exists [[nav_link rlocale (py "A"); nav_link rlocale (py "B")]], letters.
  split; [reflexivity | exact Hlinks].
Defined.

Lemma alphabet_navigation_layout_witness :
  let rlocale := code_point_locale 0 "en" in
  let index_list := [py "B"; py "A"; py "B"] in
  let rows := [[nav_link rlocale (py "A"); nav_link rlocale (py "B")]] in
  alphabet_navigation index_list rlocale = Ok (Done (Some rows))
  /\ exists letters,
       sorted_letters index_list rlocale = Ok letters
       /\ length rows = (length letters / 26 + 1)%nat.
Proof.
  intros rlocale index_list rows. split; [reflexivity|].
  destruct (alphabet_navigation_layout index_list rlocale rows eq_refl)
    as (letters & Hsorted & Hlength & _).
  exists letters. split; [exact Hsorted | exact Hlength].
Defined.

Lemma sort_people_surnames_witness :
  sort_three_people = Return three_people_sorted
  /\ NoDup (map fst three_people_sorted)
  /\ StronglySorted (key_le (sort_key (code_point_locale 0 "en")))
       (map fst three_people_sorted).
Proof.
  split; [reflexivity|].
  apply (sort_people_surnames (H := plain_host (code_point_locale 0 "en"))
           (fun _ => []) get_suffix (fun _ surname => Some surname)
           isspace_blank three_people
           [py "I0001"; py "I0002"; py "I0003"] (code_point_locale 0 "en")).
  reflexivity.
Defined.

Lemma sort_people_all_people_witness :
  sort_three_people = Return three_people_sorted
  /\ Permutation (concat (map snd three_people_sorted))
       [py "I0001"; py "I0002"; py "I0003"].
Proof.
  split; [reflexivity|].
  apply (sort_people_all_people (H := plain_host (code_point_locale 0 "en"))
           (fun _ => []) get_suffix (fun _ surname => Some surname)
           isspace_blank three_people
           [py "I0001"; py "I0002"; py "I0003"] (code_point_locale 0 "en")).
  reflexivity.
Defined.

Lemma sort_people_groups_witness :
  sort_three_people = Return three_people_sorted
  /\ In (py "Smith", [py "I0003"; py "I0001"]) three_people_sorted
  /\ forall handle, In handle [py "I0003"; py "I0001"] ->
       exists person,
         get_person_from_handle three_people handle = Some person
         /\ group_surname (fun _ => []) get_suffix
              (fun _ surname => Some surname) isspace_blank three_people
              (get_primary_name person) = py "Smith".
Proof.
  split; [reflexivity|]. split; [simpl; tauto|].
  apply (sort_people_groups (H := plain_host (code_point_locale 0 "en"))
           (fun _ => []) get_suffix (fun _ surname => Some surname)
           isspace_blank three_people
           [py "I0001"; py "I0002"; py "I0003"] (code_point_locale 0 "en")
           three_people_sorted (py "Smith") [py "I0003"; py "I0001"]).
  - reflexivity.
  - simpl; tauto.
Defined.

Lemma sort_people_order_witness :
  sort_three_people = Return three_people_sorted
  /\ StronglySorted
       (key_le (fun handle =>
                  sort_key (code_point_locale 0 "en")
                    (sort_name_of (H := plain_host (code_point_locale 0 "en"))
                       three_people handle)))
       [py "I0003"; py "I0001"].
Proof.
  split; [reflexivity|].
  apply (sort_people_order (H := plain_host (code_point_locale 0 "en"))
           (fun _ => []) get_suffix (fun _ surname => Some surname)
           isspace_blank three_people
           [py "I0001"; py "I0002"; py "I0003"] (code_point_locale 0 "en")
           three_people_sorted (py "Smith") [py "I0003"; py "I0001"]).
  - reflexivity.
  - simpl; tauto.
Defined.

Lemma html_escape_characters_witness :
  html_escape (fun text => text) (py "'a'") = Done (py "&#8216;a&#8217;")
  /\ In 59%N (py "&#8216;a&#8217;")
  /\ (In 59%N (py "'a'") \/ In 59%N entity_characters).
Proof.
  split; [reflexivity|]. split; [simpl; tauto|].
  apply (html_escape_characters (fun text => text) (py "'a'")
           (py "&#8216;a&#8217;") 59%N).
  - reflexivity.
  - simpl; tauto.
Defined.

Lemma html_escape_without_quotes_witness :
  ~ In double_quote (py "a < b")
  /\ ~ In single_quote (py "a < b")
  /\ html_escape (fun text => text) (py "a < b") = Done (py "a < b").
Proof.
  assert (Hd : ~ In double_quote (py "a < b")) by not_in_entity.
  assert (Hs : ~ In single_quote (py "a < b")) by not_in_entity.
  split; [exact Hd|]. split; [exact Hs|].
  apply (html_escape_without_quotes (fun text => text) (py "a < b") Hd Hs).
Defined.

Lemma html_escape_drops_lines_witness :
  let first_line := [double_quote] ++ py "hi" ++ [double_quote] ++ py " now" in
  html_escape (fun text => text) (py "say " ++ first_line ++ [newline]
                                    ++ py "next line")
  = html_escape (fun text => text) (py "say " ++ first_line)
  /\ html_escape (fun text => text) (py "say " ++ first_line)
     = Done (py "say &#8220;hi&#8221; now").
Proof.
  intros first_line. split; [|reflexivity].
  apply (html_escape_drops_lines (fun text => text) _ _
           (py "say ") (py "hi") (py " now") (py "next line")).
  - reflexivity.
  - reflexivity.
  - not_in_entity.
  - not_in_entity.
  - not_in_entity.
Defined.

(** With the sort key of the C locale, a text with the character U+0000
    makes the sorts raise: the list of first letters of an event type that
    starts with it, the navigation bar of that letter, and the people whose
    surname it is. *)
Lemma get_first_letters_raises_on_nul :
  get_first_letters (H := plain_host (strxfrm_locale 0 "en")) no_people
    [0%N :: py "Birth"] _ALPHAEVENT (strxfrm_locale 0 "en")
  = Raise ValueError.
Proof. reflexivity. Qed.

Lemma alphabet_navigation_raises_on_nul :
  alphabet_navigation [py "A"; [0%N]] (strxfrm_locale 0 "en")
  = Raise ValueError.
Proof. reflexivity. Qed.

Lemma sort_people_raises_on_nul :
  sort_people (H := plain_host (strxfrm_locale 0 "en"))
    (fun _ => []) get_suffix (fun _ surname => Some surname) isspace_blank
    person_with_nul [py "I0001"] (strxfrm_locale 0 "en")
  = Throw (Builtin ValueError).
Proof. reflexivity. Qed.

(** ** Children in birth order *)

Section AddBirthdateProofs.
Variable Event : Type.
Variable Date : Type.
Variable get_birth_ref : Person -> option pystr.
Variable get_event_from_handle : Database -> pystr -> option Event.
Variable get_date_object : Event -> Date.
Variable get_sort_value : Date -> Z.
Variable get_date : GrampsLocale -> Date -> pystr.
Variable get_death_or_fallback : Database -> Person -> option Event.

Local Abbreviation add_birthdate_loop' :=
  (add_birthdate_loop Event Date get_birth_ref get_event_from_handle
     get_date_object get_sort_value get_date get_death_or_fallback).
Local Abbreviation add_birthdate' :=
  (add_birthdate Event Date get_birth_ref get_event_from_handle
     get_date_object get_sort_value get_date get_death_or_fallback).

Lemma add_birthdate_loop_handles (dbase : Database) (rlocale : GrampsLocale) :
  forall ppl_handle_list birth1 death sortable_individuals result,
    add_birthdate_loop' dbase ppl_handle_list rlocale birth1 death
      sortable_individuals = Return result ->
    map entry_handle result
    = map entry_handle sortable_individuals ++ ppl_handle_list.
Proof.
  induction ppl_handle_list as [|h rest IH];
    intros birth1 death sortable_individuals result; cbn [add_birthdate_loop].
  - intros E; inversion E; subst. rewrite app_nil_r. reflexivity.
  - destruct (match get_person_from_handle dbase h with
              | Some _ => _ | None => _ end) as [[birth_date b1] d1].
    destruct b1 as [b|]; [|discriminate]. destruct d1 as [d|]; [|discriminate].
    cbn [read_local and_then]. intros Hloop. rewrite (IH _ _ _ _ Hloop).
    rewrite map_app, <- app_assoc. reflexivity.
Qed.

(** X20. [add_birthdate] does not sort: the list it returns has one entry
    for every handle of the list it was given, in the same order. *)
Theorem add_birthdate_keeps_order (dbase : Database)
    (ppl_handle_list : list pystr) (rlocale : GrampsLocale)
    (result : list BirthEntry) :
  add_birthdate' dbase ppl_handle_list rlocale = Return result ->
  map entry_handle result = ppl_handle_list.
Proof.
  intros Hadd. apply add_birthdate_loop_handles in Hadd. exact Hadd.
Qed.

Lemma add_birthdate_loop_bound (dbase : Database) (rlocale : GrampsLocale) :
  forall ppl_handle_list b d sortable_individuals,
    exists result,
      add_birthdate_loop' dbase ppl_handle_list rlocale (Some b) (Some d)
        sortable_individuals = Return result.
Proof.
  induction ppl_handle_list as [|h rest IH]; intros b d sortable_individuals;
    cbn [add_birthdate_loop]; [eauto|].
  destruct (get_person_from_handle dbase h) as [person|].
  - destruct (match get_birth_ref person with
              | Some _ => _ | None => _ end) as [birth_date b1].
    cbn [read_local and_then]. apply IH.
  - cbn [read_local and_then]. apply IH.
Qed.

(** X21. [add_birthdate] throws exactly when the database has no person
    for the first handle of the list, and then it is [UnboundLocalError]:
    a handle without person that comes later does not stop it. *)
Theorem add_birthdate_throws (dbase : Database)
    (ppl_handle_list : list pystr) (rlocale : GrampsLocale) (e : error) :
  add_birthdate' dbase ppl_handle_list rlocale = Throw e
  <-> e = UnboundLocalError
      /\ exists person_handle rest,
           ppl_handle_list = person_handle :: rest
           /\ get_person_from_handle dbase person_handle = None.
Proof.
  unfold add_birthdate. destruct ppl_handle_list as [|h rest];
    cbn [add_birthdate_loop].
  - split; [discriminate | intros (_ & h & rest & E & _); discriminate].
  - destruct (get_person_from_handle dbase h) as [person|] eqn:Eperson.
    + destruct (match get_birth_ref person with
                | Some _ => _ | None => _ end) as [birth_date b1].
      cbn [read_local and_then].
      match goal with
      | |- context [add_birthdate_loop' _ ?l _ (Some ?b) (Some ?d) ?acc] =>
          destruct (add_birthdate_loop_bound dbase rlocale l b d acc)
            as (result & ->)
      end.
      split; [discriminate|].
      intros (_ & h' & rest' & E & Hnone). inversion E; subst. congruence.
    + cbn [read_local and_then]. split.
      * intros E; inversion E. split; [reflexivity|]. exists h, rest. auto.
      * intros (-> & _). reflexivity.
Qed.

Lemma add_birthdate_loop_stale (dbase : Database) (rlocale : GrampsLocale) :
  forall ppl_handle_list birth1 death sortable_individuals result,
    add_birthdate_loop' dbase ppl_handle_list rlocale birth1 death
      sortable_individuals = Return result ->
    exists added,
      result = sortable_individuals ++ added
      /\ (forall handle rest,
            ppl_handle_list = handle :: rest ->
            get_person_from_handle dbase handle = None ->
            exists b d,
              birth1 = Some b /\ death = Some d
              /\ nth_error added 0 = Some (0%Z, b, d, handle))
      /\ (forall i handle,
            nth_error ppl_handle_list (S i) = Some handle ->
            get_person_from_handle dbase handle = None ->
            exists birth_date b d handle',
              nth_error added i = Some (birth_date, b, d, handle')
              /\ nth_error added (S i) = Some (0%Z, b, d, handle)).
Proof.
  induction ppl_handle_list as [|h rest IH];
    intros birth1 death sortable_individuals result; cbn [add_birthdate_loop].
  - intros E; inversion E; subst. exists []. rewrite app_nil_r.
    split; [reflexivity|]. split.
    + intros handle rest E'. discriminate.
    + intros i handle Hnth. discriminate.
  - destruct (match get_person_from_handle dbase h with
              | Some _ => _ | None => _ end) as [[birth_date b1] d1] eqn:Eround.
    destruct b1 as [b|]; [|discriminate]. destruct d1 as [d|]; [|discriminate].
    cbn [read_local and_then]. intros Hloop.
    destruct (IH _ _ _ _ Hloop) as (added & -> & Hfirst & Hlater).
    exists ((birth_date, b, d, h) :: added). rewrite <- app_assoc.
    split; [reflexivity|]. split.
    + intros handle rest' E' Hnone. inversion E'; subst handle rest'.
      rewrite Hnone in Eround. inversion Eround; subst.
      exists b, d. auto.
    + intros [|i] handle Hnth Hnone.
      * destruct rest as [|h2 rest2]; [discriminate|].
        simpl in Hnth. inversion Hnth; subst h2.
        destruct (Hfirst handle rest2 eq_refl Hnone)
          as (b' & d' & Eb & Ed & Hentry).
        inversion Eb; inversion Ed; subst b' d'.
        exists birth_date, b, d, h. simpl. auto.
      * simpl in Hnth. destruct (Hlater i handle Hnth Hnone)
          as (bd & b' & d' & h' & Hprev & Hentry).
        exists bd, b', d', h'. simpl. auto.
Qed.

(** X22. For a handle without person that is not the first of the list,
    the entry has the birth date 0 and the birth and death words of the
    entry before it: the two variables keep what the round before left in
    them. *)
Theorem add_birthdate_unknown_person (dbase : Database)
    (ppl_handle_list : list pystr) (rlocale : GrampsLocale)
    (result : list BirthEntry) (i : nat) (handle : pystr) :
  add_birthdate' dbase ppl_handle_list rlocale = Return result ->
  nth_error ppl_handle_list (S i) = Some handle ->
  get_person_from_handle dbase handle = None ->
  exists birth_date b d handle',
    nth_error result i = Some (birth_date, b, d, handle')
    /\ nth_error result (S i) = Some (0%Z, b, d, handle).
Proof.
  intros Hadd Hnth Hnone. apply add_birthdate_loop_stale in Hadd.
  destruct Hadd as (added & -> & _ & Hlater).
  apply (Hlater i handle Hnth Hnone).
Qed.

End AddBirthdateProofs.

Lemma add_birthdate_keeps_order_witness :
  birthdates_of_three = Return three_birthdates
  /\ map entry_handle three_birthdates
     = [py "I0001"; py "I0009"; py "I0002"].
Proof.
  split; [reflexivity|].
  apply (add_birthdate_keeps_order (Z * pystr) (Z * pystr) birth_of events_of
           (fun event => event) fst (fun _ date => snd date)
           (fun _ _ => None) three_people _ (code_point_locale 0 "en")).
  reflexivity.
Defined.

Lemma add_birthdate_unknown_person_witness :
  birthdates_of_three = Return three_birthdates
  /\ get_person_from_handle three_people (py "I0009") = None
  /\ exists birth_date b d handle',
       nth_error three_birthdates 0 = Some (birth_date, b, d, handle')
       /\ nth_error three_birthdates 1 = Some (0%Z, b, d, py "I0009").
Proof.
  split; [reflexivity|]. split; [reflexivity|].
  apply (add_birthdate_unknown_person (Z * pystr) (Z * pystr) birth_of
           events_of (fun event => event) fst (fun _ date => snd date)
           (fun _ _ => None) three_people
           [py "I0001"; py "I0009"; py "I0002"] (code_point_locale 0 "en")).
  - reflexivity.
  - reflexivity.
  - reflexivity.
Defined.

(** ** The grid of thumbnails *)

Section ThumbnailGridProofs.
Variable Photo : Type.

Local Abbreviation MediaItem' := (MediaItem Photo).
Local Abbreviation GridCell' := (GridCell Photo).

Lemma number_from_app (a b : list MediaItem') :
  forall index,
    number_from index (a ++ b)
    = number_from index a ++ number_from (index + length a) b.
Proof.
  induction a as [|x a IH]; intros index; simpl.
  - rewrite Nat.add_0_r. reflexivity.
  - rewrite IH. do 2 f_equal. f_equal. lia.
Qed.

Lemma number_from_length (items : list MediaItem') :
  forall index, length (number_from index items) = length items.
Proof.
  induction items as [|x items IH]; intros index; simpl; [reflexivity|].
  rewrite IH. reflexivity.
Qed.

Lemma thumbnail_row_done (media_list : list MediaItem') (num_of_cols : nat) :
  forall fuel index indexpos cols trow,
    (cols <= num_of_cols)%nat ->
    (num_of_cols - cols <= fuel)%nat ->
    thumbnail_row fuel media_list (length media_list) num_of_cols index
      indexpos cols trow
    = Done (Return
        (trow ++ number_from index
                   (firstn (num_of_cols - cols) (skipn indexpos media_list)),
         (index + Nat.min (num_of_cols - cols)
                    (length media_list - indexpos))%nat,
         (indexpos + Nat.min (num_of_cols - cols)
                       (length media_list - indexpos))%nat,
         (cols + Nat.min (num_of_cols - cols)
                   (length media_list - indexpos))%nat)).
Proof.
  induction fuel as [|fuel IH]; intros index indexpos cols trow Hcols Hfuel;
    cbn [thumbnail_row].
  - replace (num_of_cols - cols)%nat with 0%nat by lia.
    replace (cols <? num_of_cols)%nat with false
      by (symmetry; apply Nat.ltb_ge; lia).
    simpl. rewrite app_nil_r, !Nat.add_0_r. reflexivity.
  - destruct (Nat.ltb_spec cols num_of_cols) as [Hlt|Hge]; cbn [andb].
    + destruct (Nat.ltb_spec indexpos (length media_list)) as [Hpos|Hpos].
      * destruct (nth_error media_list indexpos) as [item|] eqn:Eitem.
        2: { apply nth_error_None in Eitem. lia. }
        rewrite IH by lia.
        apply nth_error_split in Eitem.
        destruct Eitem as (front & back & -> & <-).
        rewrite !length_app. cbn [length].
        replace (skipn (length front) (front ++ item :: back))
          with (item :: back)
          by (rewrite skipn_app, skipn_all, Nat.sub_diag; reflexivity).
        replace (skipn (length front + 1) (front ++ item :: back))
          with back
          by (rewrite skipn_app, skipn_all2 by lia;
              replace (length front + 1 - length front)%nat with 1%nat by lia;
              reflexivity).
        replace (num_of_cols - cols)%nat with (S (num_of_cols - (cols + 1)))
          by lia.
        cbn [firstn number_from]. rewrite <- app_assoc. cbn [app].
        replace (index + 1)%nat with (S index) by lia.
        do 2 f_equal.
        repeat (apply f_equal2; [|lia]). reflexivity.
      * rewrite skipn_all2 by lia. rewrite firstn_nil. simpl.
        replace (length media_list - indexpos)%nat with 0%nat by lia.
        rewrite Nat.min_0_r, app_nil_r, !Nat.add_0_r. reflexivity.
    + replace (num_of_cols - cols)%nat with 0%nat by lia.
      simpl. rewrite app_nil_r, !Nat.add_0_r. reflexivity.
Qed.

Lemma skipn_past (items : list MediaItem') (num_of_cols indexpos : nat) :
  skipn (indexpos + Nat.min num_of_cols (length items - indexpos)) items
  = skipn num_of_cols (skipn indexpos items).
Proof.
  rewrite skipn_skipn.
  destruct (Nat.le_gt_cases num_of_cols (length items - indexpos)) as [Hle|Hgt].
  - rewrite Nat.min_l by exact Hle. f_equal. lia.
  - rewrite !skipn_all2 by lia. reflexivity.
Qed.

Lemma thumbnail_rows_done (media_list : list MediaItem')
    (num_of_rows num_of_cols : nat) :
  forall fuel grid_row index indexpos trow tbody,
    (num_of_rows - grid_row <= fuel)%nat ->
    exists tbody' trow',
      thumbnail_rows fuel media_list (length media_list) num_of_rows
        num_of_cols grid_row index indexpos (option_map (@length _) trow)
        trow tbody
      = Done (Return (tbody', trow', option_map (@length _) trow',
                      Nat.max grid_row num_of_rows))
      /\ table_rows tbody' trow'
         = table_rows tbody trow
           ++ grid_rows num_of_cols (num_of_rows - grid_row) index
                (skipn indexpos media_list)
      /\ (trow' = None -> trow = None /\ (num_of_rows <= grid_row)%nat).
Proof.
  induction fuel as [|fuel IH]; intros grid_row index indexpos trow tbody Hfuel;
    cbn [thumbnail_rows].
  - replace (grid_row <? num_of_rows)%nat with false
      by (symmetry; apply Nat.ltb_ge; lia).
    exists tbody, trow. rewrite Nat.max_l by lia.
    replace (num_of_rows - grid_row)%nat with 0%nat by lia.
    cbn [grid_rows]. rewrite app_nil_r.
    split; [reflexivity|]. split; [reflexivity|]. intros ->. split; [reflexivity|lia].
  - destruct (Nat.ltb_spec grid_row num_of_rows) as [Hlt|Hge].
    + rewrite thumbnail_row_done by lia.
      rewrite Nat.sub_0_r. cbn [app Nat.add].
      set (row := number_from index
                    (firstn num_of_cols (skipn indexpos media_list))).
      assert (Hrow : Nat.min num_of_cols (length media_list - indexpos)
                     = length row).
      { unfold row. rewrite number_from_length, length_firstn, length_skipn.
        reflexivity. }
      specialize (IH (grid_row + 1)%nat
                    (index + Nat.min num_of_cols
                               (length media_list - indexpos))%nat
                    (indexpos + Nat.min num_of_cols
                                  (length media_list - indexpos))%nat
                    (Some row) (table_rows tbody trow)).
      destruct IH as (tbody' & trow' & Hrun & Hrows & Hnone); [lia|].
      cbn [option_map] in Hrun. rewrite <- Hrow in Hrun.
      exists tbody', trow'.
      unfold table_rows in Hrun. rewrite Hrun. rewrite Nat.max_r by lia. rewrite Nat.max_r by lia.
      split; [reflexivity|]. split.
      * rewrite Hrows. cbn [table_rows]. rewrite <- app_assoc. f_equal.
        replace (num_of_rows - grid_row)%nat
          with (S (num_of_rows - (grid_row + 1))) by lia.
        cbn [grid_rows app]. fold row. f_equal.
        rewrite skipn_past. rewrite length_skipn. reflexivity.
      * intros E. destruct (Hnone E) as (Hsome & _). discriminate.
    + exists tbody, trow. rewrite Nat.max_l by lia.
      replace (num_of_rows - grid_row)%nat with 0%nat by lia.
      cbn [grid_rows]. rewrite app_nil_r.
      split; [reflexivity|]. split; [reflexivity|].
      intros ->. split; [reflexivity|lia].
Qed.

Lemma grid_rows_split (num_of_cols : nat) :
  forall rows index (items : list MediaItem'),
    (num_of_cols * rows <= length items < num_of_cols * S rows)%nat ->
    exists full lastrow,
      grid_rows num_of_cols (S rows) index items = full ++ [lastrow]
      /\ length full = rows
      /\ Forall (fun row => length row = num_of_cols) full
      /\ (length lastrow + num_of_cols * rows = length items)%nat
      /\ concat full ++ lastrow = number_from index items.
Proof.
  induction rows as [|rows IH]; intros index items Hlen.
  - exists [], (number_from index items). cbn [grid_rows app].
    rewrite firstn_all2 by lia.
    split; [reflexivity|]. split; [reflexivity|]. split; [constructor|].
    split; [rewrite number_from_length; lia | reflexivity].
  - rewrite Nat.mul_succ_r in Hlen.
    rewrite (Nat.mul_succ_r num_of_cols (S rows)) in Hlen.
    rewrite Nat.mul_succ_r in Hlen.
    destruct (IH (index + Nat.min num_of_cols (length items))%nat
                (skipn num_of_cols items)) as
      (full & lastrow & Hrows & Hfull & Hall & Hlast & Hcells).
    { rewrite length_skipn, Nat.mul_succ_r. lia. }
    exists (number_from index (firstn num_of_cols items) :: full), lastrow.
    change (grid_rows num_of_cols (S (S rows)) index items)
      with (number_from index (firstn num_of_cols items)
            :: grid_rows num_of_cols (S rows)
                 (index + Nat.min num_of_cols (length items))
                 (skipn num_of_cols items)).
    rewrite Hrows. split; [reflexivity|]. split; [simpl; lia|]. split.
    + constructor; [|exact Hall].
      rewrite number_from_length, length_firstn. lia.
    + split.
      * rewrite length_skipn in Hlast. rewrite Nat.mul_succ_r. lia.
      * cbn [concat]. rewrite <- app_assoc, Hcells.
        pose proof (number_from_app (firstn num_of_cols items)
                      (skipn num_of_cols items) index) as Happ.
        rewrite firstn_skipn, length_firstn in Happ.
        symmetry. exact Happ.
Qed.

Lemma map_seq_repeat {B : Type} (x : B) :
  forall count start,
    map (fun _ => x) (seq start count) = repeat x count.
Proof.
  induction count as [|count IH]; intros start; simpl; [reflexivity|].
  rewrite IH. reflexivity.
Qed.

(** What [thumbnail_grid] returns: rows of seven thumbnails, then a last
    row of fewer than seven, finished with empty cells. *)
Lemma thumbnail_grid_rows (media_list : list MediaItem') :
  exists full lastrow,
    thumbnail_grid media_list
    = Done (Return
        (full ++ [lastrow ++ repeat EmptyDays
                               (7 - length media_list mod 7)]))
    /\ length full = (length media_list / 7)%nat
    /\ Forall (fun row => length row = 7%nat) full
    /\ length lastrow = (length media_list mod 7)%nat
    /\ concat full ++ lastrow = number_from 1 media_list.
Proof.
  unfold thumbnail_grid. cbv zeta.
  pose proof (Nat.div_mod_eq (length media_list) 7) as Hdiv.
  pose proof (Nat.mod_upper_bound (length media_list) 7) as Hmod.
  remember (length media_list / 7)%nat as q eqn:Eq.
  remember (length media_list mod 7)%nat as r eqn:Er.
  assert (Hr : (r < 7)%nat) by (apply Hmod; discriminate). clear Hmod.
  destruct (thumbnail_rows_done media_list (q + 1) 7 (q + 1) 0 1 0 None [])
    as (tbody & trow & Hrun & Hrows & Hnone); [lia|].
  cbn [table_rows app skipn] in Hrows.
  replace (q + 1 - 0)%nat with (S q) in Hrows by lia.
  destruct (grid_rows_split 7 q 1 media_list)
    as (full & lastrow & Hsplit & Hfull & Hall & Hlast & Hcells); [lia|].
  rewrite Hsplit in Hrows.
  destruct trow as [row|]; [|destruct (Hnone eq_refl); lia].
  cbn [table_rows] in Hrows. apply app_inj_tail in Hrows.
  destruct Hrows as (-> & ->).
  assert (Hlen : length lastrow = r) by lia.
  exists full, lastrow.
  cbn [option_map] in Hrun. rewrite Hrun, Hlen.
  rewrite Nat.max_r by lia. rewrite Nat.eqb_refl.
  cbn [read_local and_then].
  replace (r <? 7)%nat with true by (symmetry; apply Nat.ltb_lt; exact Hr).
  cbn [read_local and_then]. rewrite map_seq_repeat. auto.
Qed.

(** X23. The grid of thumbnails is built for every list of media, and it
    has [n // 7 + 1] rows of exactly seven cells each, the empty cells
    counted. *)
Theorem thumbnail_grid_layout (media_list : list MediaItem') :
  exists rows,
    thumbnail_grid media_list = Done (Return rows)
    /\ length rows = (length media_list / 7 + 1)%nat
    /\ Forall (fun row => length row = 7%nat) rows.
Proof.
  destruct (thumbnail_grid_rows media_list)
    as (full & lastrow & Hgrid & Hfull & Hall & Hlast & _).
  pose proof (Nat.mod_upper_bound (length media_list) 7) as Hmod.
  eexists. split; [exact Hgrid|]. split.
  - rewrite length_app, Hfull. reflexivity.
  - apply Forall_app. split; [exact Hall|]. constructor; [|constructor].
    rewrite length_app, repeat_length, Hlast.
    assert (length media_list mod 7 < 7)%nat by (apply Hmod; discriminate).
    lia.
Qed.

(** X24. Read row after row, the cells of the grid are the entries of
    [media_list] in their order, numbered from 1 on, followed by
    [7 - n % 7] empty cells: at least one, and seven when the number of
    entries is a multiple of seven. *)
Theorem thumbnail_grid_cells (media_list : list MediaItem') :
  exists rows,
    thumbnail_grid media_list = Done (Return rows)
    /\ concat rows
       = number_from 1 media_list
         ++ repeat EmptyDays (7 - length media_list mod 7).
Proof.
  destruct (thumbnail_grid_rows media_list)
    as (full & lastrow & Hgrid & _ & _ & _ & Hcells).
  eexists. split; [exact Hgrid|].
  rewrite concat_app. cbn [concat]. rewrite app_nil_r, app_assoc, Hcells.
  reflexivity.
Qed.

(** X25. When the number of entries is a multiple of seven (or zero), the
    last row of the grid holds no thumbnail: it is a row of seven empty
    cells. *)
Theorem thumbnail_grid_empty_row (media_list : list MediaItem') :
  (length media_list mod 7 = 0)%nat ->
  exists rows,
    thumbnail_grid media_list = Done (Return (rows ++ [repeat EmptyDays 7]))
    /\ concat rows = number_from 1 media_list.
Proof.
  intros Hmultiple.
  destruct (thumbnail_grid_rows media_list)
    as (full & lastrow & Hgrid & _ & _ & Hlast & Hcells).
  rewrite Hmultiple in Hgrid, Hlast.
  destruct lastrow as [|cell lastrow]; [|discriminate].
  rewrite app_nil_r in Hcells. cbn [app] in Hgrid.
  exists full. split; [exact Hgrid | exact Hcells].
Qed.

End ThumbnailGridProofs.

Lemma thumbnail_grid_empty_row_witness :
  (length seven_media mod 7 = 0)%nat
  /\ exists rows,
       thumbnail_grid seven_media
       = Done (Return (rows ++ [repeat EmptyDays 7]))
       /\ concat rows = number_from 1 seven_media.
Proof.
  split; [reflexivity|].
  apply (thumbnail_grid_empty_row unit seven_media). reflexivity.
Defined.

(** ** Events by type *)

Lemma tuple_lt_le (x y : Z * pystr) : tuple_lt x y = true -> tuple_le x y.
Proof.
  unfold tuple_lt, tuple_compare, tuple_le.
  destruct (Z.compare_spec (fst x) (fst y)) as [E|E|E];
    [|auto|discriminate].
  intros Hlt. right. split; [exact E|]. apply str_lt_le. exact Hlt.
Qed.

Lemma tuple_not_lt_le (x y : Z * pystr) :
  tuple_lt x y = false -> tuple_le y x.
Proof.
  unfold tuple_lt, tuple_compare, tuple_le.
  destruct (Z.compare_spec (fst x) (fst y)) as [E|E|E];
    [|discriminate|auto].
  intros Hlt. right. split; [auto|]. apply str_not_lt_le. exact Hlt.
Qed.

Lemma tuple_le_trans (a b c : Z * pystr) :
  tuple_le a b -> tuple_le b c -> tuple_le a c.
Proof.
  unfold tuple_le. intros [Hab|(Hab & Hab')] [Hbc|(Hbc & Hbc')].
  - left; lia.
  - left; lia.
  - left; lia.
  - right. split; [lia|]. apply (str_le_trans _ _ _ Hab' Hbc').
Qed.

Lemma insert_tuple_perm (x : Z * pystr) (l : list (Z * pystr)) :
  Permutation (x :: l) (insert_tuple x l).
Proof.
  induction l as [|y l IH]; simpl; auto.
  destruct (tuple_lt x y); auto.
  rewrite perm_swap. constructor. exact IH.
Qed.

Lemma insert_tuple_sorted (x : Z * pystr) (l : list (Z * pystr)) :
  Sorted tuple_le l -> Sorted tuple_le (insert_tuple x l).
Proof.
  induction 1 as [|y l Hs IH Hhd]; simpl.
  - repeat constructor.
  - destruct (tuple_lt x y) eqn:E.
    + constructor; [constructor; assumption|].
      constructor. apply tuple_lt_le; assumption.
    + constructor; [assumption|].
      apply tuple_not_lt_le in E.
      destruct l as [|z l]; simpl.
      * constructor; assumption.
      * destruct (tuple_lt x z); constructor; auto.
        inversion Hhd; assumption.
Qed.

Lemma sort_tuples_fold (l acc : list (Z * pystr)) :
  Permutation (acc ++ l)
    (fold_left (fun sorted x => insert_tuple x sorted) l acc)
  /\ (Sorted tuple_le acc ->
      Sorted tuple_le
        (fold_left (fun sorted x => insert_tuple x sorted) l acc)).
Proof.
  revert acc; induction l as [|x l IH]; intros acc; simpl.
  - rewrite app_nil_r. auto.
  - destruct (IH (insert_tuple x acc)) as (Hperm & Hsorted). split.
    + rewrite <- Hperm, <- insert_tuple_perm.
      symmetry; apply Permutation_middle.
    + intros Hacc. apply Hsorted, insert_tuple_sorted, Hacc.
Qed.

Lemma sort_tuples_perm (l : list (Z * pystr)) :
  Permutation l (sort_tuples l).
Proof. apply (sort_tuples_fold l []). Qed.

Lemma sort_tuples_sorted (l : list (Z * pystr)) :
  StronglySorted tuple_le (sort_tuples l).
Proof.
  apply Sorted_StronglySorted.
  - intros a b c. apply tuple_le_trans.
  - apply (sort_tuples_fold l []). constructor.
Qed.

Lemma dict_set_in_keys {V : Type} (k : pystr) (v : V) (d : list (pystr * V))
    (k' : pystr) :
  In k' (map fst (dict_set k v d)) <-> k' = k \/ In k' (map fst d).
Proof.
  induction d as [|[k0 v0] d IH]; simpl.
  - intuition.
  - destruct (pystr_eqb k0 k) eqn:E; simpl.
    + apply pystr_eqb_eq in E; subst k0. intuition.
    + rewrite IH. intuition.
Qed.

Lemma dict_set_nodup {V : Type} (k : pystr) (v : V) (d : list (pystr * V)) :
  NoDup (map fst d) -> NoDup (map fst (dict_set k v d)).
Proof.
  induction d as [|[k0 v0] d IH]; simpl; intros Hnd.
  - constructor; [intros []|constructor].
  - inversion Hnd as [|? ? Hk0 Hnd']; subst.
    destruct (pystr_eqb k0 k) eqn:E; simpl.
    + constructor; assumption.
    + constructor; [|auto]. rewrite dict_set_in_keys.
      intros [->|Hin]; [|contradiction].
      rewrite pystr_eqb_refl in E. discriminate.
Qed.

Lemma dict_set_present {V : Type} (k : pystr) (v v' : V)
    (d : list (pystr * V)) :
  dict_get d k = Some v -> map fst (dict_set k v' d) = map fst d.
Proof.
  induction d as [|[k0 v0] d IH]; simpl; [discriminate|].
  destruct (pystr_eqb k0 k) eqn:E; simpl; [reflexivity|].
  intros Hget. rewrite IH by exact Hget. reflexivity.
Qed.

Lemma StronglySorted_strict (l : list pystr) :
  StronglySorted (fun a b => str_le a b = true) l ->
  NoDup l ->
  StronglySorted (fun a b => str_lt a b = true) l.
Proof.
  induction 1 as [|x l Hs IH Hall]; intros Hnd; constructor.
  - apply IH. inversion Hnd; assumption.
  - inversion Hnd as [|? ? Hx Hnd']; subst.
    rewrite Forall_forall in *. intros b Hb.
    specialize (Hall b Hb). unfold str_le in Hall. unfold str_lt.
    destruct (str_compare x b) eqn:E; [|reflexivity|discriminate].
    apply str_compare_eq in E. subst b. contradiction.
Qed.

Section SortEventTypesProofs.
Variable Event : Type.
Variable EventType : Type.
Variable Date : Type.
Variable get_event_from_handle : Database -> pystr -> option Event.
Variable get_type : Event -> EventType.
Variable xml_str : EventType -> pystr.
Variable get_date_object : Event -> Date.
Variable get_sort_value : Date -> Z.

Local Abbreviation file_events' :=
  (file_events Event EventType Date get_event_from_handle get_type xml_str
     get_date_object get_sort_value).
Local Abbreviation sort_event_types' :=
  (sort_event_types Event EventType Date get_event_from_handle get_type
     xml_str get_date_object get_sort_value).
Local Abbreviation has_type' :=
  (has_type Event EventType get_event_from_handle get_type xml_str).
Local Abbreviation event_tuple' :=
  (event_tuple Event Date get_event_from_handle get_date_object
     get_sort_value).

Lemma empty_lists (event_types : list pystr) :
  forall acc : list (pystr * list (Z * pystr)),
    let event_dict :=
      fold_left (fun d evt_type => dict_set evt_type [] d) event_types acc in
    (NoDup (map fst acc) -> NoDup (map fst event_dict))
    /\ (forall t, In t (map fst event_dict)
                  <-> In t (map fst acc) \/ In t event_types)
    /\ ((forall t l, dict_get acc t = Some l -> l = []) ->
        forall t l, dict_get event_dict t = Some l -> l = []).
Proof.
  induction event_types as [|evt_type event_types IH]; intros acc; simpl.
  - split; [auto|]. split; [intuition|auto].
  - destruct (IH (dict_set evt_type [] acc)) as (Hnd & Hin & Hempty).
    split; [|split].
    + intros Hacc. apply Hnd, dict_set_nodup, Hacc.
    + intros t. rewrite Hin, dict_set_in_keys. intuition.
    + intros Hacc. apply Hempty. intros t l. rewrite dict_get_set.
      destruct (pystr_eqb evt_type t); [|apply Hacc].
      intros E; inversion E; reflexivity.
Qed.

Lemma file_events_state (dbase : Database) (rlocale : GrampsLocale) :
  forall event_handle_list event_dict event_dict',
    file_events' dbase event_handle_list rlocale event_dict
    = Return event_dict' ->
    map fst event_dict' = map fst event_dict
    /\ forall t,
         dict_get event_dict' t
         = option_map
             (fun l => l ++ map (event_tuple' dbase)
                             (filter (has_type' dbase rlocale t)
                                event_handle_list))
             (dict_get event_dict t).
Proof.
  induction event_handle_list as [|h rest IH]; intros event_dict event_dict';
    cbn [file_events].
  - intros E; inversion E; subst. split; [reflexivity|].
    intros t. simpl. destruct (dict_get event_dict' t); simpl;
      [rewrite app_nil_r|]; reflexivity.
  - unfold has_type, event_tuple. cbn [filter].
    destruct (get_event_from_handle dbase h) as [event|] eqn:Eevent;
      cbn [attribute_of and_then]; [|discriminate].
    intros Hrest. apply IH in Hrest. destruct Hrest as (Hkeys & Hlists).
    destruct (dict_get event_dict
                (sgettext rlocale (xml_str (get_type event))))
      as [tup_list|] eqn:Eget.
    + split.
      * rewrite Hkeys. apply (dict_set_present _ tup_list). exact Eget.
      * intros t. rewrite Hlists, dict_get_set. unfold has_type, event_tuple.
        destruct (pystr_eqb (sgettext rlocale (xml_str (get_type event))) t)
          eqn:E.
        -- apply pystr_eqb_eq in E. subst t. rewrite Eget.
           cbn [option_map map]. rewrite Eevent, <- app_assoc.
           reflexivity.
        -- reflexivity.
    + split; [exact Hkeys|].
      intros t. rewrite Hlists. unfold has_type, event_tuple.
      destruct (pystr_eqb (sgettext rlocale (xml_str (get_type event))) t)
        eqn:E; [|reflexivity].
      apply pystr_eqb_eq in E. subst t. rewrite Eget. reflexivity.
Qed.

Lemma file_events_throw (dbase : Database) (rlocale : GrampsLocale)
    (e : error) :
  forall event_handle_list event_dict,
    file_events' dbase event_handle_list rlocale event_dict = Throw e
    <-> e = Builtin AttributeError
        /\ exists event_handle,
             In event_handle event_handle_list
             /\ get_event_from_handle dbase event_handle = None.
Proof.
  induction event_handle_list as [|h rest IH]; intros event_dict;
    cbn [file_events].
  - split; [discriminate | intros (_ & h & [] & _)].
  - destruct (get_event_from_handle dbase h) as [event|] eqn:Eevent;
      cbn [attribute_of and_then].
    + rewrite IH. split.
      * intros (-> & h' & Hin & Hnone). split; [reflexivity|].
        exists h'. simpl. auto.
      * intros (-> & h' & [<-|Hin] & Hnone); [congruence|].
        split; [reflexivity|]. exists h'. auto.
    + split.
      * intros E; inversion E. split; [reflexivity|].
        exists h. simpl. auto.
      * intros (-> & _). reflexivity.
Qed.

(** What [sort_event_types] returns, from the dictionary that the loop
    leaves. *)
Lemma sort_event_types_return (dbase : Database) (event_types : list pystr)
    (event_handle_list : list pystr) (rlocale : GrampsLocale)
    (retval : list (pystr * list (Z * pystr))) :
  sort_event_types' dbase event_types event_handle_list rlocale
  = Return retval ->
  exists event_dict,
    retval
    = sorted_by fst
        (map (fun item => (fst item, sort_tuples (snd item))) event_dict)
    /\ NoDup (map fst event_dict)
    /\ (forall t, In t (map fst event_dict) <-> In t event_types)
    /\ forall t l,
         In (t, l) event_dict ->
         l = map (event_tuple' dbase)
               (filter (has_type' dbase rlocale t) event_handle_list).
Proof.
  unfold sort_event_types. cbv zeta.
  destruct (empty_lists event_types []) as (Hnd & Hin & Hempty).
  cbv zeta in Hnd, Hin, Hempty.
  destruct (file_events' dbase event_handle_list rlocale
              (fold_left (fun d evt_type => dict_set evt_type [] d)
                 event_types [])) as [event_dict|e] eqn:Efile;
    cbn [and_then]; [|discriminate].
  intros E; inversion E; subst retval. clear E.
  apply file_events_state in Efile. destruct Efile as (Hkeys & Hlists).
  exists event_dict. split; [reflexivity|].
  assert (Hnd' : NoDup (map fst event_dict)).
  { rewrite Hkeys. apply Hnd. constructor. }
  split; [exact Hnd'|]. split.
  - intros t. rewrite Hkeys, Hin. simpl. intuition.
  - intros t l Hentry. apply (dict_get_in _ _ _ Hnd') in Hentry.
    rewrite Hlists in Hentry.
    destruct (dict_get (fold_left (fun d evt_type => dict_set evt_type [] d)
                          event_types []) t) as [l0|] eqn:E0;
      [|discriminate].
    apply Hempty in E0; [|discriminate]. subst l0.
    simpl in Hentry. inversion Hentry. reflexivity.
Qed.

End SortEventTypesProofs.

Lemma insert_tuple_last (x : Z * pystr) (l : list (Z * pystr)) :
  Forall (fun y => tuple_le y x) l -> insert_tuple x l = l ++ [x].
Proof.
  induction 1 as [|y l Hy Hall IH]; simpl; [reflexivity|].
  assert (E : tuple_lt x y = false).
  { unfold tuple_lt, tuple_compare. unfold tuple_le in Hy.
    destruct (Z.compare_spec (fst x) (fst y)) as [E|E|E];
      [|lia|reflexivity].
    destruct Hy as [Hy|(_ & Hy)]; [lia|].
    unfold str_le in Hy. rewrite (str_compare_antisym (snd x) (snd y)) in Hy.
    destruct (str_compare (snd x) (snd y)); simpl in Hy; congruence. }
  rewrite E, IH. reflexivity.
Qed.

Lemma sort_tuples_of_sorted (l : list (Z * pystr)) :
  StronglySorted tuple_le l -> sort_tuples l = l.
Proof.
  intros Hsorted. unfold sort_tuples.
  assert (Hgen : forall acc,
            StronglySorted tuple_le (acc ++ l) ->
            fold_left (fun sorted x => insert_tuple x sorted) l acc
            = acc ++ l).
  { clear Hsorted. induction l as [|x l IH]; intros acc Hs; simpl.
    - rewrite app_nil_r. reflexivity.
    - rewrite insert_tuple_last.
      + rewrite IH by (rewrite <- app_assoc; exact Hs).
        rewrite <- app_assoc. reflexivity.
      + clear IH. induction acc as [|y acc IHacc]; [constructor|].
        simpl in Hs. inversion Hs as [|? ? Hs' Hall]; subst.
        constructor; [|apply IHacc; exact Hs'].
        rewrite Forall_forall in Hall. apply Hall.
        apply in_or_app. right. simpl. auto. }
  apply (Hgen []). exact Hsorted.
Qed.

Section SortEventTypesTheorems.
Variable Event : Type.
Variable EventType : Type.
Variable Date : Type.
Variable get_event_from_handle : Database -> pystr -> option Event.
Variable get_type : Event -> EventType.
Variable xml_str : EventType -> pystr.
Variable get_date_object : Event -> Date.
Variable get_sort_value : Date -> Z.

Local Abbreviation sort_event_types' :=
  (sort_event_types Event EventType Date get_event_from_handle get_type
     xml_str get_date_object get_sort_value).
Local Abbreviation has_type' :=
  (has_type Event EventType get_event_from_handle get_type xml_str).
Local Abbreviation event_tuple' :=
  (event_tuple Event Date get_event_from_handle get_date_object
     get_sort_value).

Lemma sort_event_types_entry (dbase : Database) (event_types : list pystr)
    (event_handle_list : list pystr) (rlocale : GrampsLocale)
    (retval : list (pystr * list (Z * pystr)))
    (event_type : pystr) (data_list : list (Z * pystr)) :
  sort_event_types' dbase event_types event_handle_list rlocale
  = Return retval ->
  In (event_type, data_list) retval ->
  data_list
  = sort_tuples
      (map (event_tuple' dbase)
         (filter (has_type' dbase rlocale event_type) event_handle_list)).
Proof.
  intros Hsort Hin.
  destruct (sort_event_types_return _ _ _ _ _ _ _ _ _ _ _ _ _ Hsort)
    as (event_dict & -> & _ & _ & Hlists).
  apply (Permutation_in _ (Permutation_sym (sorted_by_perm fst _))) in Hin.
  apply in_map_iff in Hin. destruct Hin as ([t l] & E & Hentry).
  simpl in E. inversion E; subst. f_equal. apply Hlists. exact Hentry.
Qed.

(** X26. The event types of the result are the different types of
    [event_types], each one once, in the order of their code points:
    the order of the locale plays no part. *)
Theorem sort_event_types_types (dbase : Database) (event_types : list pystr)
    (event_handle_list : list pystr) (rlocale : GrampsLocale)
    (retval : list (pystr * list (Z * pystr))) :
  sort_event_types' dbase event_types event_handle_list rlocale
  = Return retval ->
  StronglySorted (fun a b => str_lt a b = true) (map fst retval)
  /\ forall event_type,
       In event_type (map fst retval) <-> In event_type event_types.
Proof.
  intros Hsort.
  destruct (sort_event_types_return _ _ _ _ _ _ _ _ _ _ _ _ _ Hsort)
    as (event_dict & -> & Hnd & Hkeys & _).
  set (items := map (fun item => (fst item, sort_tuples (snd item)))
                  event_dict).
  assert (Hitems : map fst items = map fst event_dict).
  { unfold items. rewrite map_map. reflexivity. }
  assert (Hperm : Permutation (map fst event_dict)
                    (map fst (sorted_by fst items))).
  { rewrite <- Hitems. apply Permutation_map, sorted_by_perm. }
  split.
  - apply StronglySorted_strict.
    + apply StronglySorted_map. apply (sorted_by_sorted fst items).
    + apply (Permutation_NoDup Hperm Hnd).
  - intros event_type. rewrite <- Hkeys. split.
    + apply Permutation_in, Permutation_sym, Hperm.
    + apply Permutation_in, Hperm.
Qed.

(** X27. The list filed under an event type holds, once for each time it
    is in [event_handle_list], every handle whose event has that type in
    the words of [rlocale], and nothing else; each handle comes with the
    sort value of the date of its event, and the list is in the order of
    these values, handles of one value in the order of their code
    points. *)
Theorem sort_event_types_events (dbase : Database) (event_types : list pystr)
    (event_handle_list : list pystr) (rlocale : GrampsLocale)
    (retval : list (pystr * list (Z * pystr)))
    (event_type : pystr) (data_list : list (Z * pystr)) :
  sort_event_types' dbase event_types event_handle_list rlocale
  = Return retval ->
  In (event_type, data_list) retval ->
  StronglySorted tuple_le data_list
  /\ Permutation (map snd data_list)
       (filter (has_type' dbase rlocale event_type) event_handle_list)
  /\ Forall (fun tup =>
               exists event,
                 get_event_from_handle dbase (snd tup) = Some event
                 /\ fst tup = get_sort_value (get_date_object event))
       data_list.
Proof.
  intros Hsort Hin.
  rewrite (sort_event_types_entry _ _ _ _ _ _ _ Hsort Hin).
  split; [apply sort_tuples_sorted|]. split.
  - rewrite <- sort_tuples_perm, map_map.
    unfold event_tuple. simpl. rewrite map_id. reflexivity.
  - rewrite Forall_forall. intros tup Htup.
    apply (Permutation_in _ (Permutation_sym (sort_tuples_perm _))) in Htup.
    apply in_map_iff in Htup. destruct Htup as (h & <- & Hh).
    apply filter_In in Hh. destruct Hh as (_ & Hh).
    unfold has_type in Hh. unfold event_tuple. simpl.
    destruct (get_event_from_handle dbase h) as [event|]; [|discriminate].
    exists event. auto.
Qed.

(** X28. [sort_event_types] throws exactly when the database has no event
    for one of the handles, and then it is [AttributeError]. *)
Theorem sort_event_types_throws (dbase : Database)
    (event_types : list pystr) (event_handle_list : list pystr)
    (rlocale : GrampsLocale) (e : error) :
  sort_event_types' dbase event_types event_handle_list rlocale = Throw e
  <-> e = Builtin AttributeError
      /\ exists event_handle,
           In event_handle event_handle_list
           /\ get_event_from_handle dbase event_handle = None.
Proof.
  rewrite <- (file_events_throw Event EventType Date get_event_from_handle
                get_type xml_str get_date_object get_sort_value dbase rlocale
                e event_handle_list
                (fold_left (fun d evt_type => dict_set evt_type [] d)
                   event_types [])).
  unfold sort_event_types. cbv zeta.
  destruct (file_events _ _ _ _ _ _ _ _ _ _ _ _); cbn [and_then].
  - split; discriminate.
  - reflexivity.
Qed.

(** X29. The list of an event type is in the order that
    [sorted(data_list, key=itemgetter(0, 1))] of [eventlistpage] asks for:
    that second sort leaves it as it is. *)
Theorem sort_event_types_sorted_again (dbase : Database)
    (event_types : list pystr) (event_handle_list : list pystr)
    (rlocale : GrampsLocale) (retval : list (pystr * list (Z * pystr)))
    (evt_type : pystr) (data_list : list (Z * pystr)) :
  sort_event_types' dbase event_types event_handle_list rlocale
  = Return retval ->
  In (evt_type, data_list) retval ->
  sort_tuples data_list = data_list.
Proof.
  intros Hsort Hin. apply sort_tuples_of_sorted.
  rewrite (sort_event_types_entry _ _ _ _ _ _ _ Hsort Hin).
  apply sort_tuples_sorted.
Qed.

End SortEventTypesTheorems.

Lemma sort_event_types_types_witness :
  sort_four_events = Return four_events_sorted
  /\ StronglySorted (fun a b => str_lt a b = true)
       (map fst four_events_sorted)
  /\ forall event_type,
       In event_type (map fst four_events_sorted)
       <-> In event_type
             [py "Death"; py "Birth"; py "Death"; py "Marriage"].
Proof.
  split; [reflexivity|].
  apply (sort_event_types_types (pystr * Z) pystr Z four_events fst
           (fun type => type) snd (fun date => date) no_people _
           [py "E0004"; py "E0001"; py "E0002"; py "E0003"]
           (code_point_locale 0 "en")).
  reflexivity.
Defined.

Lemma sort_event_types_events_witness :
  sort_four_events = Return four_events_sorted
  /\ In (py "Birth", births_sorted) four_events_sorted
  /\ StronglySorted tuple_le births_sorted
  /\ Permutation (map snd births_sorted)
       (filter (has_type (pystr * Z) pystr four_events fst
                  (fun type => type) no_people (code_point_locale 0 "en")
                  (py "Birth"))
          [py "E0004"; py "E0001"; py "E0002"; py "E0003"])
  /\ Forall (fun tup =>
               exists event,
                 four_events no_people (snd tup) = Some event
                 /\ fst tup = snd event)
       births_sorted.
Proof.
  split; [reflexivity|]. split; [left; reflexivity|].
  apply (sort_event_types_events (pystr * Z) pystr Z four_events fst
           (fun type => type) snd (fun date => date) no_people
           [py "Death"; py "Birth"; py "Death"; py "Marriage"]
           [py "E0004"; py "E0001"; py "E0002"; py "E0003"]
           (code_point_locale 0 "en") four_events_sorted).
  - reflexivity.
  - left; reflexivity.
Defined.

Lemma sort_event_types_sorted_again_witness :
  sort_four_events = Return four_events_sorted
  /\ In (py "Birth", births_sorted) four_events_sorted
  /\ sort_tuples births_sorted = births_sorted.
Proof.
  split; [reflexivity|]. split; [left; reflexivity|].
  apply (sort_event_types_sorted_again (pystr * Z) pystr Z four_events fst
           (fun type => type) snd (fun date => date) no_people
           [py "Death"; py "Birth"; py "Death"; py "Marriage"]
           [py "E0004"; py "E0001"; py "E0002"; py "E0003"]
           (code_point_locale 0 "en") four_events_sorted (py "Birth")).
  - reflexivity.
  - left; reflexivity.
Defined.

(** ** The events of some people *)

Section BuildEventDataProofs.
Variable Event : Type.
Variable Family : Type.
Variable get_event_from_handle : Database -> pystr -> option Event.
Variable get_family_from_handle : Database -> pystr -> option Family.
Variable get_event_ref_list : Person -> list pystr.
Variable get_family_handle_list : Person -> list pystr.
Variable family_get_event_ref_list : Family -> list pystr.
Variable str_get_type : Event -> pystr.
Variable str_type : Event -> pystr.

Local Abbreviation person_events' :=
  (person_events Event get_event_from_handle str_get_type).
Local Abbreviation family_events' :=
  (family_events Event get_event_from_handle str_type).
Local Abbreviation families_events' :=
  (families_events Event Family get_event_from_handle get_family_from_handle
     family_get_event_ref_list str_type).
Local Abbreviation people_events' :=
  (people_events Event Family get_event_from_handle get_family_from_handle
     get_event_ref_list get_family_handle_list family_get_event_ref_list
     str_get_type str_type).
Local Abbreviation build_event_data_by_individuals' :=
  (build_event_data_by_individuals Event Family get_event_from_handle
     get_family_from_handle get_event_ref_list get_family_handle_list
     family_get_event_ref_list str_get_type str_type).
Local Abbreviation known_events' :=
  (known_events Event get_event_from_handle).
Local Abbreviation family_event_data' :=
  (family_event_data Event Family get_event_from_handle
     get_family_from_handle family_get_event_ref_list str_type).
Local Abbreviation person_event_data' :=
  (person_event_data Event Family get_event_from_handle
     get_family_from_handle get_event_ref_list get_family_handle_list
     family_get_event_ref_list str_get_type str_type).

Lemma with_events_nil (data : EventData) : with_events data [] = data.
Proof.
  destruct data as [event_handle_list event_types]. unfold with_events.
  simpl. rewrite !app_nil_r. reflexivity.
Qed.

Lemma with_events_app (data : EventData) (events more : list (pystr * pystr)) :
  with_events (with_events data events) more
  = with_events data (events ++ more).
Proof.
  unfold with_events. simpl. rewrite !map_app, !app_assoc. reflexivity.
Qed.

Lemma person_events_data (dbase : Database) :
  forall evt_ref_list data,
    person_events' dbase evt_ref_list data
    = with_events data (known_events' str_get_type dbase evt_ref_list).
Proof.
  induction evt_ref_list as [|evt_ref rest IH];
    intros [event_handle_list event_types]; cbn [person_events].
  - symmetry. apply with_events_nil.
  - rewrite IH. unfold known_events. cbn [flat_map].
    destruct (get_event_from_handle dbase evt_ref) as [event|].
    + rewrite <- with_events_app. reflexivity.
    + reflexivity.
Qed.

Lemma family_events_data (dbase : Database) :
  forall family_evt_ref_list data,
    family_events' dbase family_evt_ref_list data
    = with_events data (known_events' str_type dbase family_evt_ref_list).
Proof.
  induction family_evt_ref_list as [|evt_ref rest IH];
    intros [event_handle_list event_types]; cbn [family_events].
  - symmetry. apply with_events_nil.
  - rewrite IH. unfold known_events. cbn [flat_map].
    destruct (get_event_from_handle dbase evt_ref) as [event|].
    + rewrite <- with_events_app. reflexivity.
    + reflexivity.
Qed.

Lemma families_events_data (dbase : Database) :
  forall person_family_handle_list data,
    families_events' dbase person_family_handle_list data
    = with_events data (family_event_data' dbase person_family_handle_list).
Proof.
  induction person_family_handle_list as [|family_handle rest IH];
    intros data; cbn [families_events].
  - symmetry. apply with_events_nil.
  - rewrite IH. unfold family_event_data. cbn [flat_map].
    destruct (get_family_from_handle dbase family_handle) as [family|].
    + rewrite family_events_data, with_events_app. reflexivity.
    + reflexivity.
Qed.

Lemma people_events_data (dbase : Database) :
  forall ppl_handle_list data,
    people_events' dbase ppl_handle_list data
    = with_events data (flat_map (person_event_data' dbase) ppl_handle_list).
Proof.
  induction ppl_handle_list as [|person_handle rest IH];
    intros data; cbn [people_events].
  - symmetry. apply with_events_nil.
  - rewrite IH. cbn [flat_map]. unfold person_event_data at 2.
    destruct (get_person_from_handle dbase person_handle) as [person|].
    + rewrite families_events_data, person_events_data, !with_events_app.
      rewrite app_assoc. reflexivity.
    + reflexivity.
Qed.

Lemma combine_fst_snd {A B : Type} (l : list (A * B)) :
  combine (map fst l) (map snd l) = l.
Proof.
  induction l as [|[a b] l IH]; simpl; [reflexivity|].
  rewrite IH. reflexivity.
Qed.

Lemma known_events_in (type_name : Event -> pystr) (dbase : Database)
    (evt_ref_list : list pystr) (evt_ref event_type : pystr) :
  In (evt_ref, event_type) (known_events' type_name dbase evt_ref_list) ->
  exists event,
    In evt_ref evt_ref_list
    /\ get_event_from_handle dbase evt_ref = Some event
    /\ event_type = type_name event.
Proof.
  unfold known_events. intros Hin. apply in_flat_map in Hin.
  destruct Hin as (ref & Href & Hin).
  destruct (get_event_from_handle dbase ref) as [event|] eqn:Eevent;
    [|contradiction].
  destruct Hin as [E|[]]. inversion E; subst. eauto.
Qed.

(** X30. The two lists that [build_event_data_by_individuals] returns go
    together. They have the same length. For every handle of
    [ppl_handle_list] that has a person, in the order of the list, they
    hold first the events of the person that the database has, each handle
    with [str(event.get_type())] at the same place of the other list, then,
    family by family for the families of the person that the database has,
    the events of the family that the database has, each handle with
    [str(event.type)] at the same place. So every handle of the first list
    is the handle of an event of a person of the list, with the name that
    [get_type] gives, or of an event of a family of such a person, with the
    name that [type] gives. *)
Theorem build_event_data_by_individuals_parallel (dbase : Database)
    (ppl_handle_list : list pystr) :
  let '(event_handle_list, event_types) :=
    build_event_data_by_individuals' dbase ppl_handle_list in
  length event_handle_list = length event_types
  /\ event_handle_list
     = map fst (flat_map (person_event_data' dbase) ppl_handle_list)
  /\ event_types
     = map snd (flat_map (person_event_data' dbase) ppl_handle_list)
  /\ forall evt_ref event_type,
       In (evt_ref, event_type) (combine event_handle_list event_types) ->
       exists person_handle person event,
         In person_handle ppl_handle_list
         /\ get_person_from_handle dbase person_handle = Some person
         /\ get_event_from_handle dbase evt_ref = Some event
         /\ ((In evt_ref (get_event_ref_list person)
              /\ event_type = str_get_type event)
             \/ exists family_handle family,
                  In family_handle (get_family_handle_list person)
                  /\ get_family_from_handle dbase family_handle = Some family
                  /\ In evt_ref (family_get_event_ref_list family)
                  /\ event_type = str_type event).
Proof.
  unfold build_event_data_by_individuals. cbv zeta.
  rewrite people_events_data. unfold with_events. cbn [fst snd app].
  split; [rewrite !length_map; reflexivity|].
  split; [reflexivity|]. split; [reflexivity|].
  intros evt_ref event_type Hin. rewrite combine_fst_snd in Hin.
  apply in_flat_map in Hin. destruct Hin as (person_handle & Hperson & Hin).
  unfold person_event_data in Hin.
  destruct (get_person_from_handle dbase person_handle) as [person|]
    eqn:Eperson; [|contradiction].
  apply in_app_iff in Hin. destruct Hin as [Hin|Hin].
  - apply known_events_in in Hin. destruct Hin as (event & Href & Hevent & ->).
    exists person_handle, person, event. auto 10.
  - unfold family_event_data in Hin. apply in_flat_map in Hin.
    destruct Hin as (family_handle & Hfamily & Hin).
    destruct (get_family_from_handle dbase family_handle) as [family|]
      eqn:Efamily; [|contradiction].
    apply known_events_in in Hin. destruct Hin as (event & Href & Hevent & ->).
    exists person_handle, person, event.
    split; [exact Hperson|]. split; [exact Eperson|]. split; [exact Hevent|].
    right. exists family_handle, family. auto.
Qed.

End BuildEventDataProofs.
